(** * bip340-key-pair: a shallow embedding of the key classes

    The development follows [src/public-key.ts] and [src/private-key.ts].
    BigInt values are integers of [Z]; a [Uint8Array] is a cell of a store
    holding a list of bytes, so that two references to one array alias;
    a thrown exception is an explicit completion.  The modules the classes
    import ([constants.ts], the hash, the base-58 codec and the curve
    library) are gathered in the class [Imports]. *)

From Stdlib Require Import ZArith Znumtheory Zmod Lia List Bool.
From Stdlib Require Import Strings.Byte Ascii String DecimalString.
From stdpp Require Import base list strings.
Import ListNotations.

Local Open Scope Z_scope.

(** ** Exceptions and completions *)

(** The exceptions the code can raise.  [PublicKeyError] and
    [PrivateKeyError] carry the message and the type tag given to their
    constructors; the others are the built-in errors of the language and
    [CodecError] is the plain [Error] thrown by the base-58 decoder. *)
Inductive error : Type :=
| PublicKeyError (message type : string)
| PrivateKeyError (message type : string)
| TypeError (message : string)
| RangeError (message : string)
| SyntaxError (message : string)
| CodecError (message : string).

(** How an evaluation ends: with a value, with a thrown exception, or,
    for the one loop of the code, with the iteration bound used up. *)
Inductive completion (A : Type) : Type :=
| Ok (a : A)
| Throw (e : error)
| OutOfFuel.
Arguments Ok {A} a.
Arguments Throw {A} e.
Arguments OutOfFuel {A}.

#[global] Instance completion_ret : MRet completion := fun A a => Ok a.
#[global] Instance completion_bind : MBind completion := fun A B k c =>
  match c with
  | Ok a => k a
  | Throw e => Throw e
  | OutOfFuel => OutOfFuel
  end.

(** ** The store of byte arrays *)

(** A [Uint8Array] is a reference into a store of byte lists.  Two
    variables holding one array hold one location; [new Uint8Array(a)]
    and [a.slice(..)] allocate a new cell. *)
Definition loc : Type := nat.
Definition store : Type := list (list byte).

(** Code runs against the store; a throw keeps the store reached so far. *)
Definition M (A : Type) : Type := store -> completion A * store.

#[global] Instance M_ret : MRet M := fun A a h => (Ok a, h).
#[global] Instance M_bind : MBind M := fun A B k m h =>
  match m h with
  | (Ok a, h') => k a h'
  | (Throw e, h') => (Throw e, h')
  | (OutOfFuel, h') => (OutOfFuel, h')
  end.

Definition throw {A : Type} (e : error) : M A := fun h => (Throw e, h).
Definition lift {A : Type} (c : completion A) : M A := fun h => (c, h).

(** A new array with the given contents, at the next free location. *)
Definition alloc (contents : list byte) : M loc :=
  fun h => (Ok (length h), h ++ [contents]).

(** The contents of an array.  A location that was never allocated is no
    array at all. *)
Definition read (r : loc) : M (list byte) :=
  fun h => match h !! r with
           | Some contents => (Ok contents, h)
           | None => (Throw (TypeError "not a Uint8Array"), h)
           end.

(** What a holder of the reference [r] can do to the array: replace its
    contents, as [a[i] = v] (the function [<[i := v]>], which ignores an
    index out of range), [a.set(..)] or [a.fill(..)] do. *)
Definition mutate (r : loc) (f : list byte -> list byte) (h : store) : store :=
  alter f r h.

(** ** Bytes, BigInt and strings of the language *)

Definition byte_to_Z (b : byte) : Z := Z.of_N (Byte.to_N b).

(** Storing a number into a [Uint8Array] keeps it modulo 256. *)
Definition byte_of_Z (z : Z) : byte :=
  default x00 (Byte.of_N (Z.to_N (z mod 256))).

(** [a % m] on BigInt: the remainder has the sign of the dividend, and a
    zero divisor throws. *)
Definition BigInt_rem (a m : Z) : completion Z :=
  if m =? 0 then Throw (RangeError "Division by zero") else Ok (Z.rem a m).

(** A BigInt is falsy exactly when it is [0n]. *)
Definition BigInt_truthy (a : Z) : bool := negb (a =? 0).

(** The digit [0..15] as a lower-case hexadecimal character. *)
Definition hex_char (d : Z) : ascii :=
  ascii_of_N (Z.to_N (if d <? 10 then 48 + d else 87 + d)).

(** The value of a hexadecimal character, either case. *)
Definition hex_value (c : ascii) : option Z :=
  let k := Z.of_N (N_of_ascii c) in
  if (48 <=? k) && (k <=? 57) then Some (k - 48)
  else if (97 <=? k) && (k <=? 102) then Some (k - 87)
  else if (65 <=? k) && (k <=? 70) then Some (k - 55)
  else None.

(** [Buffer.from(bytes).toString('hex')]: two characters per byte. *)
Fixpoint Buffer_toString_hex (bytes : list byte) : string :=
  match bytes with
  | [] => EmptyString
  | b :: rest =>
      String (hex_char (byte_to_Z b / 16))
        (String (hex_char (byte_to_Z b mod 16)) (Buffer_toString_hex rest))
  end.

Fixpoint parse_hex (acc : Z) (digits : string) : option Z :=
  match digits with
  | EmptyString => Some acc
  | String c rest =>
      match hex_value c with
      | Some d => parse_hex (acc * 16 + d) rest
      | None => None
      end
  end.

(** [BigInt('0x' + digits)]: at least one digit, all hexadecimal. *)
Definition BigInt_of_0x (digits : string) : completion Z :=
  match digits with
  | EmptyString => Throw (SyntaxError "Cannot convert 0x to a BigInt")
  | _ =>
      match parse_hex 0 digits with
      | Some z => Ok z
      | None => Throw (SyntaxError "Cannot convert string to a BigInt")
      end
  end.

(** The hexadecimal digits of a non-negative integer, most significant
    first, at least one; [width] bounds their number. *)
Fixpoint hex_digits (width : nat) (z : Z) (acc : string) : string :=
  match width with
  | O => acc
  | S width' =>
      let acc' := String (hex_char (z mod 16)) acc in
      if z / 16 =? 0 then acc' else hex_digits width' (z / 16) acc'
  end.

(** [z.toString(16)] on BigInt. *)
Definition BigInt_toString_16 (z : Z) : string :=
  if z <? 0
  then String "-" (hex_digits (S (Z.to_nat (Z.log2 (- z)))) (- z) EmptyString)
  else hex_digits (S (Z.to_nat (Z.log2 z))) z EmptyString.

(** [s.padStart(targetLength, c)] for a one-character filler. *)
Definition padStart (targetLength : nat) (c : ascii) (s : string) : string :=
  string_of_list_ascii (repeat c (targetLength - String.length s)) +:+ s.

(** [Buffer.from(s, 'hex')]: one byte per pair of hexadecimal characters,
    stopping at the first pair that is not one. *)
Fixpoint Buffer_from_hex (s : string) : list byte :=
  match s with
  | String c1 (String c2 rest) =>
      match hex_value c1, hex_value c2 with
      | Some hi, Some lo => byte_of_Z (hi * 16 + lo) :: Buffer_from_hex rest
      | _, _ => []
      end
  | _ => []
  end.

(** [`${bytes}`] for a [Uint8Array]: the elements in decimal, joined by
    commas. *)
Definition byte_decimal (b : byte) : string :=
  NilZero.string_of_uint (N.to_uint (Byte.to_N b)).

Fixpoint Uint8Array_toString (bytes : list byte) : string :=
  match bytes with
  | [] => EmptyString
  | [b] => byte_decimal b
  | b :: rest => byte_decimal b +:+ String "," (Uint8Array_toString rest)
  end.

(** The values a constructor argument or a field of [PrivateKey] can hold
    at run time: the type annotations are erased. *)
Inductive value : Type :=
| VUndefined
| VBigInt (z : Z)
| VUint8Array (r : loc).

Definition truthy (v : value) : bool :=
  match v with
  | VUndefined => false
  | VBigInt z => BigInt_truthy z
  | VUint8Array _ => true
  end.

(** [a ?? b]: [b] is evaluated only when [a] is [undefined]. *)
Definition nullish {A : Type} (a : value) (inj : A -> value) (b : M A) : M value :=
  match a with
  | VUndefined => x ← b; mret (inj x)
  | _ => mret a
  end.

(** [new Uint8Array(v)]: a copy of an array; a length otherwise, which a
    BigInt cannot be converted to. *)
Definition new_Uint8Array (v : value) : M loc :=
  match v with
  | VUint8Array r => contents ← read r; alloc contents
  | VBigInt _ => throw (TypeError "Cannot convert a BigInt value to a number")
  | VUndefined => alloc []
  end.

(** [BigInt(v)]: an array is first turned into its string. *)
Definition BigInt_of_value (v : value) : M Z :=
  match v with
  | VBigInt z => mret z
  | VUint8Array r =>
      contents ← read r;
      match contents with
      | [] => mret 0
      | [b] => mret (byte_to_Z b)
      | _ => throw (SyntaxError "Cannot convert string to a BigInt")
      end
  | VUndefined => throw (TypeError "Cannot convert undefined to a BigInt")
  end.

(** A line terminator, which the [.] of a regular expression does not
    match. *)
Definition is_line_terminator (c : ascii) : bool :=
  let k := N_of_ascii c in ((k =? 10) || (k =? 13))%N.

(** [s.match(/.{2}/g)]: the pairs of characters other than line
    terminators, from left to right without overlap; the empty list
    stands for [null]. *)
Fixpoint match_pairs (s : string) : list (ascii * ascii) :=
  match s with
  | String c1 (String c2 rest as tail) =>
      if is_line_terminator c1 || is_line_terminator c2
      then match_pairs tail
      else (c1, c2) :: match_pairs rest
  | _ => []
  end.

(** White space, which [parseInt] skips. *)
Definition is_whitespace (c : ascii) : bool :=
  let k := N_of_ascii c in
  ((k =? 9) || (k =? 10) || (k =? 11) || (k =? 12) || (k =? 13)
   || (k =? 32) || (k =? 160))%N.

(** [parseInt(chunk, 16)] for a chunk of two characters: white space is
    skipped, then a sign and a [0x] prefix are read, then the hexadecimal
    digits that follow; [None] is [NaN]. *)
Definition parseInt_16 (chunk : ascii * ascii) : option Z :=
  let (c1, c2) := chunk in
  if is_whitespace c1 then hex_value c2
  else if Ascii.eqb c1 "-" then Z.opp <$> hex_value c2
  else if Ascii.eqb c1 "+" then hex_value c2
  else match hex_value c1 with
       | Some hi =>
           if (hi =? 0) && (Ascii.eqb c2 "x" || Ascii.eqb c2 "X") then None
           else match hex_value c2 with
                | Some lo => Some (hi * 16 + lo)
                | None => Some hi
                end
       | None => None
       end.

(** A number stored into a [Uint8Array]: [NaN] becomes 0. *)
Definition number_to_byte (n : option Z) : byte :=
  match n with
  | Some z => byte_of_Z z
  | None => x00
  end.

(** ** The imported modules *)

(** [constants.ts] is not among the sources, and the hash, the codec and
    the curve library are other packages: the classes are modelled over
    any values for them.
    - [CURVE_p], [CURVE_n], [CURVE_b]: the fields [CURVE.p], [CURVE.n] and
      [CURVE.b] of [constants.ts];
    - [BIP340_MULTIKEY_PREFIX], [BIP340_MULTIKEY_PREFIX_HASH]: the prefix
      bytes and the hexadecimal digest, of [constants.ts];
    - [sha256]: [@noble/hashes];
    - [base58btc_encode], [base58btc_decode]: [multiformats], whose decoder
      throws on a string it does not accept;
    - [tinysecp_isPrivate]: [tiny-secp256k1]. *)
Class Imports : Type := {
  CURVE_p : Z;
  CURVE_n : Z;
  CURVE_b : Z;
  BIP340_MULTIKEY_PREFIX : list byte;
  BIP340_MULTIKEY_PREFIX_HASH : string;
  sha256 : list byte -> list byte;
  base58btc_encode : list byte -> string;
  base58btc_decode : string -> completion (list byte);
  tinysecp_isPrivate : list byte -> bool
}.

(** The point functions of [tiny-secp256k1]: [pointFromScalar] throws,
    returns [null] or returns a new array; [isPointCompressed] is a
    test. *)
Class CurveLibrary : Type := {
  tinysecp_pointFromScalar :
    list byte -> bool -> completion (option (list byte));
  tinysecp_isPointCompressed : list byte -> bool
}.

(** ** [PublicKeyUtils] *)

Module PublicKeyUtils.

(** One run of the [while (exp > 0n)] loop of [modPow] per unit of fuel. *)
Fixpoint modPow_loop (fuel : nat) (result base exp modulus : Z) : completion Z :=
  if exp >? 0 then
    match fuel with
    | O => OutOfFuel
    | S fuel' =>
        result' ← (if BigInt_truthy (Z.land exp 1)
                   then BigInt_rem (result * base) modulus
                   else Ok result);
        base' ← BigInt_rem (base * base) modulus;
        modPow_loop fuel' result' base' (Z.shiftr exp 1) modulus
    end
  else Ok result.

(** The number of binary digits of a positive exponent: the loop halves
    the exponent, so it runs that many times. *)
Definition iterations (exp : Z) : nat :=
  if exp >? 0 then S (Z.to_nat (Z.log2 exp)) else O.

Definition modPow (base exp modulus : Z) : completion Z :=
  modPow_loop (iterations exp) 1 base exp modulus.

(** [sqrtMod(a, p) = modPow(a, (p + 1n) >> 2n, p)]. *)
Definition sqrtMod (a p : Z) : completion Z :=
  modPow a (Z.shiftr (p + 1) 2) p.

Section WithImports.
Context `{Imports}.

(** The intermediate Buffers never leave [liftX]; only the array it
    returns is allocated. *)
Definition liftX (xBytes : loc) : M loc :=
  xs ← read xBytes;
  if negb (length xs =? 32)%nat then
    throw (PublicKeyError
             "Invalid argument: x-coordinate length must be 32 bytes"
             "LIFT_X_ERROR")
  else
    x ← lift (BigInt_of_0x (Buffer_toString_hex xs));
    if (x <=? 0) || (x >=? CURVE_p) then
      throw (PublicKeyError
               "Invalid conversion: x out of range as BigInt"
               "LIFT_X_ERROR")
    else
      ySquared ← lift (BigInt_rem (x ^ 3 + CURVE_b) CURVE_p);
      y ← lift (sqrtMod ySquared CURVE_p);
      let yBytes :=
        Buffer_from_hex (padStart 64 "0" (BigInt_toString_16 y)) in
      alloc ([x04] ++ xs ++ yBytes).

End WithImports.

End PublicKeyUtils.

(** ** [PublicKey] *)

Module PublicKey.

(** The object: its one data field. *)
Record t : Type := { _bytes : loc }.

Section WithImports.
Context `{Imports}.

Definition constructor (bytes : loc) : M t :=
  contents ← read bytes;
  let bytelength := length contents in
  if negb ((bytelength =? 32)%nat || (bytelength =? 33)%nat) then
    throw (PublicKeyError
             "Invalid argument: byte length must be 32 (x-only) or 33 (compressed)"
             "PUBLIC_KEY_CONSTRUCTOR_ERROR")
  else if (bytelength =? 32)%nat then
    fresh ← alloc ([x02] ++ contents);
    mret {| _bytes := fresh |}
  else
    mret {| _bytes := bytes |}.

(** [get bytes]: [new Uint8Array(this._bytes)]. *)
Definition bytes (this : t) : M loc :=
  new_Uint8Array (VUint8Array (_bytes this)).

(** [get x]: [this.bytes.slice(1, 33)]. *)
Definition x (this : t) : M loc :=
  copy ← bytes this;
  contents ← read copy;
  alloc (take 32 (drop 1 contents)).

(** [get parity]: [this.bytes[0]], [undefined] on an empty array. *)
Definition parity (this : t) : M (option byte) :=
  copy ← bytes this;
  contents ← read copy;
  mret (contents !! 0%nat).

(** [get uncompressed]: [this.utils.liftX(this.x)]. *)
Definition uncompressed (this : t) : M loc :=
  xBytes ← x this;
  PublicKeyUtils.liftX xBytes.

(** [get y]: [this.uncompressed.slice(33, 65)]. *)
Definition y (this : t) : M loc :=
  point ← uncompressed this;
  contents ← read point;
  alloc (take 32 (drop 33 contents)).

Definition encode (this : t) : M string :=
  xCoordinate ← x this;
  xs ← read xCoordinate;
  if negb (length xs =? 32)%nat then
    throw (PublicKeyError
             "Invalid argument: must be x-only public key (32 bytes)"
             "ENCODE_PUBLIC_KEY_ERROR")
  else
    multikeyBytes ← alloc (BIP340_MULTIKEY_PREFIX ++ xs);
    payload ← read multikeyBytes;
    mret (base58btc_encode payload).

(** [get multibase]. *)
Definition multibase (this : t) : M string := encode this.

(** [decode()] decodes this key's own multibase string.  The prefix is
    a view on the decoded array ([subarray]) that is only read. *)
Definition decode (this : t) : M loc :=
  encoded ← multibase this;
  decoded ← lift (base58btc_decode encoded);
  multibase ← alloc decoded;
  payload ← read multibase;
  if negb (length payload =? 34)%nat then
    throw (PublicKeyError
             "Invalid argument: must be 34 byte publicKeyMultibase"
             "DECODE_PUBLIC_KEY_ERROR")
  else
    let prefix := take 2 payload in
    let prefixHash := Buffer_toString_hex (sha256 prefix) in
    if negb (String.eqb prefixHash BIP340_MULTIKEY_PREFIX_HASH) then
      throw (PublicKeyError
               ("Invalid prefix: malformed multibase prefix "
                  +:+ Uint8Array_toString prefix)
               "DECODE_PUBLIC_KEY_ERROR")
    else
      mret multibase.

(** [get prefix]. *)
Definition prefix (this : t) : M loc := decode this.

(** [hex()]: [Buffer.from(this.bytes).toString('hex')]. *)
Definition hex (this : t) : M string :=
  copy ← bytes this;
  contents ← read copy;
  mret (Buffer_toString_hex contents).

(** [equals(other)]: [this.hex() === other.hex()]. *)
Definition equals (this other : t) : M bool :=
  mine ← hex this;
  theirs ← hex other;
  mret (String.eqb mine theirs).

End WithImports.

End PublicKey.

(** ** [PrivateKeyUtils] and [PrivateKey] *)

Module PrivateKeyUtils.

(** [bytes.reduce((acc, byte) => (acc << 8n) | BigInt(byte), 0n)]. *)
Definition toSecret (bytes : loc) : M Z :=
  contents ← read bytes;
  mret (fold_left (fun acc byte => Z.lor (Z.shiftl acc 8) (byte_to_Z byte))
          contents 0).

Section WithImports.
Context `{Imports}.

Definition toBytes (secret : Z) : M loc :=
  bytes ← alloc (map (fun i : nat =>
                        byte_of_Z (Z.land
                                     (Z.shiftr secret (8 * (31 - Z.of_nat i)))
                                     255))
                   (seq 0 32));
  contents ← read bytes;
  if negb (tinysecp_isPrivate contents) then
    throw (PrivateKeyError
             "Invalid private key: secret out of valid range"
             "SET_PRIVATE_KEY_ERROR")
  else
    new_Uint8Array (VUint8Array bytes).

(** [isValid(bytes)]: [tinysecp.isPrivate(bytes)]. *)
Definition isValid (bytes : loc) : M bool :=
  contents ← read bytes;
  mret (tinysecp_isPrivate contents).

Context `{CurveLibrary}.

(** [computePublicKey(privateKeyBytes)]: the compressed point of the
    curve library, in the array the library returns. *)
Definition computePublicKey (privateKeyBytes : loc) : M loc :=
  contents ← read privateKeyBytes;
  point ← lift (tinysecp_pointFromScalar contents true);
  match point with
  | None =>
      throw (PrivateKeyError
               "Invalid compute: failed to derive public key"
               "COMPUTE_PUBLIC_KEY_ERROR")
  | Some derived =>
      publicKeyBytes ← alloc derived;
      if negb (length derived =? 33)%nat then
        throw (PrivateKeyError
                 "Invalid compute: public key not compressed format"
                 "COMPUTE_PUBLIC_KEY_ERROR")
      else
        mret publicKeyBytes
  end.

End WithImports.

End PrivateKeyUtils.

Module PrivateKey.

(** The object: both fields are optional and, the casts of the
    constructor being erased, hold whatever value was assigned. *)
Record t : Type := { _bytes : value; _secret : value }.

Section WithImports.
Context `{Imports}.

(** A call of a utility on a value of the wrong run-time type. *)
Definition toBytes_value (seedSecret : value) : M loc :=
  match seedSecret with
  | VBigInt secret => PrivateKeyUtils.toBytes secret
  | _ => throw (TypeError "Cannot mix BigInt and other types")
  end.

Definition toSecret_value (seedBytes : value) : M Z :=
  match seedBytes with
  | VUint8Array bytes => PrivateKeyUtils.toSecret bytes
  | _ => throw (TypeError "bytes.reduce is not a function")
  end.

Definition constructor (seed : value) : M t :=
  if negb (truthy seed) then
    throw (PrivateKeyError
             "Invalid argument: must provide a 32-byte private key or a bigint secret"
             "PRIVATE_KEY_CONSTRUCTOR_ERROR")
  else
    (* isBytes && seed.length !== 32 *)
    wrongLength ← match seed with
                  | VUint8Array r =>
                      contents ← read r;
                      mret (negb (length contents =? 32)%nat)
                  | _ => mret false
                  end;
    if (wrongLength : bool) then
      throw (PrivateKeyError
               "Invalid argument: must provide a 32-byte private key"
               "PRIVATE_KEY_CONSTRUCTOR_ERROR")
    else
      (* isSecret && (seed < 1n || seed >= CURVE.n) *)
      let outOfRange := match seed with
                        | VBigInt s => (s <? 1) || (s >=? CURVE_n)
                        | _ => false
                        end in
      if outOfRange then
        throw (PrivateKeyError
                 "Invalid argument: secret out of valid range"
                 "PRIVATE_KEY_CONSTRUCTOR_ERROR")
      else
        let seedBytes := seed in
        let seedSecret := seed in
        bytes ← nullish seedBytes VUint8Array (toBytes_value seedSecret);
        secret ← nullish seedSecret VBigInt (toSecret_value seedBytes);
        mret {| _bytes := bytes; _secret := secret |}.

(** [get bytes]. *)
Definition bytes (this : t) : M loc :=
  if negb (truthy (_bytes this)) then
    throw (PrivateKeyError
             "Missing variable: private key not set"
             "GET_RAW_PRIVATE_KEY_ERROR")
  else
    new_Uint8Array (_bytes this).

(** [get secret]: returns the secret with the object, whose [_secret]
    field the getter may have filled in. *)
Definition secret (this : t) : M (Z * t) :=
  this' ← (if negb (truthy (_secret this)) then
             copy ← bytes this;
             s ← PrivateKeyUtils.toSecret copy;
             mret {| _bytes := _bytes this; _secret := VBigInt s |}
           else mret this);
  s ← BigInt_of_value (_secret this');
  mret (s, this').

Context `{CurveLibrary}.

(** [get point]: the x-coordinate of the point of the curve library,
    as a BigInt. *)
Definition point (this : t) : M Z :=
  copy ← bytes this;
  contents ← read copy;
  derived ← lift (tinysecp_pointFromScalar contents true);
  match derived with
  | None =>
      throw (PrivateKeyError
               "Undefined publicKey: failed to compute public key"
               "PRIVATE_KEY_POINT_ERROR")
  | Some publicKey =>
      if negb (tinysecp_isPointCompressed publicKey) then
        throw (PrivateKeyError
                 "Malformed publicKey: public key not compressed format"
                 "PRIVATE_KEY_POINT_ERROR")
      else
        lift (BigInt_of_0x (Buffer_toString_hex (take 32 (drop 1 publicKey))))
  end.

(** [hex()]: [Buffer.from(this.bytes).toString('hex')]. *)
Definition hex (this : t) : M string :=
  copy ← bytes this;
  contents ← read copy;
  mret (Buffer_toString_hex contents).

(** [equals(other)]: [this.hex() === other.hex()]. *)
Definition equals (this other : t) : M bool :=
  mine ← hex this;
  theirs ← hex other;
  mret (String.eqb mine theirs).

(** [computePublicKey()]:
    [new PublicKey(PrivateKeyUtils.computePublicKey(this.bytes))]. *)
Definition computePublicKey (this : t) : M PublicKey.t :=
  copy ← bytes this;
  publicKeyBytes ← PrivateKeyUtils.computePublicKey copy;
  PublicKey.constructor publicKeyBytes.

(** [isValid()]: [PrivateKeyUtils.isValid(this.bytes)]. *)
Definition isValid (this : t) : M bool :=
  copy ← bytes this;
  PrivateKeyUtils.isValid copy.

End WithImports.

End PrivateKey.

(** ** The static methods that build keys *)

(** [PrivateKeyUtils.fromSecret] and [PublicKeyUtils.fromPrivateKey] build
    objects of the classes above. *)
Module Factories.

Section WithImports.
Context `{Imports} `{CurveLibrary}.

(** [PrivateKeyUtils.fromSecret(secret)]: the bytes are read off the
    hexadecimal digits of the secret, two by two. *)
Definition fromSecret (secret : Z) : M PrivateKey.t :=
  let hexsecret := padStart 64 "0" (BigInt_toString_16 secret) in
  match match_pairs hexsecret with
  | [] => throw (TypeError "Cannot read properties of null (reading 'map')")
  | chunks =>
      privateKeyBytes ← alloc (map (fun chunk => number_to_byte (parseInt_16 chunk))
                                   chunks);
      PrivateKey.constructor (VUint8Array privateKeyBytes)
  end.

(** [PublicKeyUtils.fromPrivateKey(pk)], for a [PrivateKey] object or the
    bytes of one. *)
Definition fromPrivateKey (pk : PrivateKey.t + loc) : M PublicKey.t :=
  bytes ← match pk with
          | inl object => PrivateKey.bytes object
          | inr array => mret array
          end;
  contents ← read bytes;
  if negb (length contents =? 32)%nat then
    throw (PublicKeyError "Invalid arg: must be 32 byte private key"
                          "FROM_PRIVATE_KEY_ERROR")
  else
    privateKey ← match pk with
                 | inl object => mret object
                 | inr array => PrivateKey.constructor (VUint8Array array)
                 end;
    PrivateKey.computePublicKey privateKey.

End WithImports.

End Factories.

(** ** Vocabulary of the statements *)

(** The big-endian unsigned integer a byte string denotes. *)
Definition be_value (bytes : list byte) : Z :=
  fold_left (fun acc b => acc * 256 + byte_to_Z b) bytes 0.

(** The big-endian encoding of [z] on [len] bytes. *)
Fixpoint be_bytes (len : nat) (z : Z) : list byte :=
  match len with
  | O => []
  | S len' => be_bytes len' (z / 256) ++ [byte_of_Z z]
  end.

(** The [k] low hexadecimal digits of [z], most significant first, in
    front of [acc]. *)
Fixpoint hex_fixed (k : nat) (z : Z) (acc : string) : string :=
  match k with
  | O => acc
  | S k' => hex_fixed k' (z / 16) (String (hex_char (z mod 16)) acc)
  end.

(** A string of [k] zero digits. *)
Definition zeros (k : nat) : string := string_of_list_ascii (repeat "0"%char k).

(** The bytes of a string of ASCII characters. *)
Definition ascii_bytes (s : string) : list byte :=
  map byte_of_ascii (list_ascii_of_string s).

(** What a call that returns an array hands to its caller: the contents
    of that array in the store the call leaves; nothing when it throws. *)
Definition returned (call : M loc) (h : store) : option (list byte) :=
  match call h with
  | (Ok r, h') => h' !! r
  | _ => None
  end.

(** The exceptions of the statements, as the code builds them. *)
Definition liftX_length_error : error :=
  PublicKeyError "Invalid argument: x-coordinate length must be 32 bytes"
                 "LIFT_X_ERROR".

Definition liftX_range_error : error :=
  PublicKeyError "Invalid conversion: x out of range as BigInt" "LIFT_X_ERROR".

Definition constructor_error : error :=
  PublicKeyError
    "Invalid argument: byte length must be 32 (x-only) or 33 (compressed)"
    "PUBLIC_KEY_CONSTRUCTOR_ERROR".

Definition decode_length_error : error :=
  PublicKeyError "Invalid argument: must be 34 byte publicKeyMultibase"
                 "DECODE_PUBLIC_KEY_ERROR".

Definition decode_prefix_error (prefix : list byte) : error :=
  PublicKeyError
    ("Invalid prefix: malformed multibase prefix " +:+ Uint8Array_toString prefix)
    "DECODE_PUBLIC_KEY_ERROR".

Definition bigint_to_number_error : error :=
  TypeError "Cannot convert a BigInt value to a number".

Definition seed_missing_error : error :=
  PrivateKeyError
    "Invalid argument: must provide a 32-byte private key or a bigint secret"
    "PRIVATE_KEY_CONSTRUCTOR_ERROR".

Definition seed_length_error : error :=
  PrivateKeyError "Invalid argument: must provide a 32-byte private key"
                  "PRIVATE_KEY_CONSTRUCTOR_ERROR".

Definition seed_range_error : error :=
  PrivateKeyError "Invalid argument: secret out of valid range"
                  "PRIVATE_KEY_CONSTRUCTOR_ERROR".

Definition toBytes_error : error :=
  PrivateKeyError "Invalid private key: secret out of valid range"
                  "SET_PRIVATE_KEY_ERROR".

Definition compute_failed_error : error :=
  PrivateKeyError "Invalid compute: failed to derive public key"
                  "COMPUTE_PUBLIC_KEY_ERROR".

Definition compute_format_error : error :=
  PrivateKeyError "Invalid compute: public key not compressed format"
                  "COMPUTE_PUBLIC_KEY_ERROR".

Definition point_failed_error : error :=
  PrivateKeyError "Undefined publicKey: failed to compute public key"
                  "PRIVATE_KEY_POINT_ERROR".

Definition point_format_error : error :=
  PrivateKeyError "Malformed publicKey: public key not compressed format"
                  "PRIVATE_KEY_POINT_ERROR".

Definition fromPrivateKey_error : error :=
  PublicKeyError "Invalid arg: must be 32 byte private key" "FROM_PRIVATE_KEY_ERROR".

(** The y-coordinate [liftX] computes for the x-coordinate [x]. *)
Definition lifted_y `{Imports} (x : Z) : Z :=
  ((x ^ 3 + CURVE_b) mod CURVE_p) ^ ((CURVE_p + 1) / 4) mod CURVE_p.

(** ** Primality certificates *)

(** No [k >= d] with [k * k <= n] divides [n]: trial division, one
    candidate per unit of fuel. *)
Fixpoint no_divisor (fuel : nat) (d n : Z) : bool :=
  match fuel with
  | O => d * d >? n
  | S fuel' =>
      if d * d >? n then true
      else if n mod d =? 0 then false
      else no_divisor fuel' (d + 1) n
  end.

Definition trial_division (n : Z) : bool :=
  (1 <? n) && no_divisor (Z.to_nat (Z.sqrt n)) 2 n.

(** The test of Pocklington for one prime factor [q] of [N - 1] and a base
    [a], computed with the [modPow] of the code. *)
Definition pocklington_check (N : Z) (qa : Z * Z) : bool :=
  let (q, a) := qa in
  match PublicKeyUtils.modPow a (N - 1) N,
        PublicKeyUtils.modPow a ((N - 1) / q) N with
  | Ok u, Ok v =>
      (0 <=? a) && ((N - 1) mod q =? 0) && (u =? 1) && (Z.gcd (v - 1) N =? 1)
  | _, _ => false
  end.

(** ** Reference values for the imports *)

(** Concrete imports to run the model on: the secp256k1 constants, SHA-256
    after FIPS 180-4, the base-58 multibase codec with the Bitcoin alphabet
    and the scalar validity test of the curve library. *)
Module Reference.

(** Modelled from the spec: [constants.ts] is not among the sources.  The
    specification names the curve, secp256k1, with [b = 7]; [CURVE.p] is
    its field prime, [2^256 - 2^32 - 977]. *)
Definition secp256k1_p : Z :=
  0xFFFFFFFFFFFFFFFFFFFFFFFFFFFFFFFFFFFFFFFFFFFFFFFFFFFFFFFEFFFFFC2F.

(** Modelled from the spec: [CURVE.n] of [constants.ts], the order of the
    group of secp256k1. *)
Definition secp256k1_n : Z :=
  0xFFFFFFFFFFFFFFFFFFFFFFFFFFFFFFFEBAAEDCE6AF48A03BBFD25E8CD0364141.

(** The generator of the curve, a point to try [liftX] on. *)
Definition secp256k1_Gx : Z :=
  0x79BE667EF9DCBBAC55A06295CE870B07029BFCDB2DCE28D959F2815B16F81798.

Definition secp256k1_Gy : Z :=
  0x483ADA7726A3C4655DA4FBFC0E1108A8FD17B448A68554199C47D08FFB10D4B8.

(** *** SHA-256 *)

Definition w32 (z : Z) : Z := z mod 2 ^ 32.

Definition rotr (k x : Z) : Z :=
  Z.lor (Z.shiftr x k) (w32 (Z.shiftl x (32 - k))).

Definition Ch (x y z : Z) : Z :=
  Z.lxor (Z.land x y) (Z.land (Z.lxor x 0xffffffff) z).

Definition Maj (x y z : Z) : Z :=
  Z.lxor (Z.lxor (Z.land x y) (Z.land x z)) (Z.land y z).

Definition Sigma0 (x : Z) : Z :=
  Z.lxor (Z.lxor (rotr 2 x) (rotr 13 x)) (rotr 22 x).

Definition Sigma1 (x : Z) : Z :=
  Z.lxor (Z.lxor (rotr 6 x) (rotr 11 x)) (rotr 25 x).

Definition sigma0 (x : Z) : Z :=
  Z.lxor (Z.lxor (rotr 7 x) (rotr 18 x)) (Z.shiftr x 3).

Definition sigma1 (x : Z) : Z :=
  Z.lxor (Z.lxor (rotr 17 x) (rotr 19 x)) (Z.shiftr x 10).

(** The largest [r] with [r ^ 3 <= n], by bisection between [lo] and
    [hi]. *)
Fixpoint cube_root (fuel : nat) (lo hi n : Z) : Z :=
  match fuel with
  | O => lo
  | S fuel' =>
      let mid := (lo + hi) / 2 in
      if mid =? lo then lo
      else if mid ^ 3 <=? n then cube_root fuel' mid hi n
           else cube_root fuel' lo mid n
  end.

(** The first 64 primes, 2 to 311. *)
Definition primes64 : list Z :=
  List.filter trial_division (map Z.of_nat (seq 2 310)).

(** The round constants: the first 32 bits of the fractional parts of the
    cube roots of the first 64 primes. *)
Definition K256 : list Z :=
  map (fun q => w32 (cube_root 128 0 (2 ^ 64) (q * 2 ^ 96))) primes64.

(** The initial hash value: the same of the square roots of the first 8
    primes. *)
Definition H256 : list Z :=
  map (fun q => w32 (Z.sqrt (q * 2 ^ 64))) (take 8 primes64).

(** The message followed by the bit [1], zeros and its length in bits,
    to a multiple of 64 bytes. *)
Definition pad (message : list byte) : list byte :=
  let len := Z.of_nat (length message) in
  message ++ [x80] ++ repeat x00 (Z.to_nat ((55 - len) mod 64))
          ++ be_bytes 8 (8 * len).

Fixpoint words (fuel : nat) (bytes : list byte) : list Z :=
  match fuel, bytes with
  | S fuel', b0 :: b1 :: b2 :: b3 :: rest =>
      be_value [b0; b1; b2; b3] :: words fuel' rest
  | _, _ => []
  end.

(** The message schedule, latest word first. *)
Fixpoint schedule (steps : nat) (w : list Z) : list Z :=
  match steps with
  | O => w
  | S steps' =>
      schedule steps'
        (w32 (sigma1 (nth 1 w 0) + nth 6 w 0 + sigma0 (nth 14 w 0) + nth 15 w 0)
           :: w)
  end.

Definition round (state : list Z) (kw : Z * Z) : list Z :=
  match state with
  | [a; b; c; d; e; f; g; h] =>
      let t1 := w32 (h + Sigma1 e + Ch e f g + fst kw + snd kw) in
      let t2 := w32 (Sigma0 a + Maj a b c) in
      [w32 (t1 + t2); a; b; c; w32 (d + t1); e; f; g]
  | _ => state
  end.

Definition compress (state : list Z) (block : list Z) : list Z :=
  let w := rev (schedule 48 (rev block)) in
  let final := fold_left round (combine K256 w) state in
  map (fun '(s, t) => w32 (s + t)) (combine state final).

Fixpoint blocks (fuel : nat) (state : list Z) (ws : list Z) : list Z :=
  match fuel, ws with
  | S fuel', _ :: _ => blocks fuel' (compress state (take 16 ws)) (drop 16 ws)
  | _, _ => state
  end.

Definition sha256 (message : list byte) : list byte :=
  let padded := pad message in
  let ws := words (length padded) padded in
  concat (map (be_bytes 4) (blocks (length ws) H256 ws)).

(** *** Base-58 with the multibase prefix [z] *)

Definition alphabet : list ascii :=
  list_ascii_of_string
    "123456789ABCDEFGHJKLMNPQRSTUVWXYZabcdefghijkmnopqrstuvwxyz".

Fixpoint leading {A : Type} (is_zero : A -> bool) (l : list A) : nat :=
  match l with
  | a :: rest => if is_zero a then S (leading is_zero rest) else O
  | [] => O
  end.

(** The digits of [z] in base 58, most significant first; none for 0. *)
Fixpoint digits58 (fuel : nat) (z : Z) (acc : list ascii) : list ascii :=
  match fuel with
  | O => acc
  | S fuel' =>
      if z =? 0 then acc
      else digits58 fuel' (z / 58)
             (nth (Z.to_nat (z mod 58)) alphabet "1"%char :: acc)
  end.

Definition base58btc_encode (bytes : list byte) : string :=
  let zeros := leading (fun b => Byte.eqb b x00) bytes in
  let value := be_value bytes in
  String "z"
    (string_of_list_ascii
       (repeat "1"%char zeros
          ++ digits58 (S (Z.to_nat (Z.log2 value))) value [])).

Fixpoint index_of (c : ascii) (l : list ascii) : option Z :=
  match l with
  | [] => None
  | a :: rest =>
      if Ascii.eqb a c then Some 0 else Z.succ <$> index_of c rest
  end.

Fixpoint value58 (acc : Z) (digits : list ascii) : option Z :=
  match digits with
  | [] => Some acc
  | c :: rest =>
      match index_of c alphabet with
      | Some d => value58 (acc * 58 + d) rest
      | None => None
      end
  end.

Definition base58btc_decode (s : string) : completion (list byte) :=
  match s with
  | String "z" rest =>
      let digits := list_ascii_of_string rest in
      let ones := leading (fun c => Ascii.eqb c "1") digits in
      match value58 0 digits with
      | Some value =>
          let size := if value =? 0 then O
                      else S (Z.to_nat (Z.log2 value / 8)) in
          Ok (repeat x00 ones ++ be_bytes size value)
      | None => Throw (CodecError "Non-base58btc character")
      end
  | _ =>
      Throw (CodecError
               "base58btc decoder only supports inputs prefixed with z")
  end.

(** *** The scalar test of the curve library *)

Definition isPrivate (bytes : list byte) : bool :=
  (length bytes =? 32)%nat
  && (0 <? be_value bytes) && (be_value bytes <? secp256k1_n).

(** The imports with a given multikey prefix and digest. *)
Definition imports (prefix : list byte) (prefixHash : string) : Imports :=
  Build_Imports secp256k1_p secp256k1_n 7 prefix prefixHash
                sha256 base58btc_encode base58btc_decode isPrivate.

(** Modelled from the spec: [BIP340_MULTIKEY_PREFIX] of [constants.ts], a
    fixed 2-byte prefix.  The specification does not give the bytes;
    [0xe1, 0x4a] stand for them. *)
Definition prefix : list byte := [xe1; x4a].

(** Modelled from the spec: [BIP340_MULTIKEY_PREFIX_HASH] of
    [constants.ts], the SHA-256 of the prefix in hexadecimal. *)
Definition prefixHash : string :=
  Eval vm_compute in Buffer_toString_hex (sha256 prefix).

Definition secp256k1 : Imports := imports prefix prefixHash.

(** *** The points of the curve library *)

(** Arithmetic modulo the field prime; the inverse is the power
    [p - 2]. *)
Fixpoint power (a : Z) (e : positive) : Z :=
  match e with
  | xH => a mod secp256k1_p
  | xO e' => let r := power a e' in (r * r) mod secp256k1_p
  | xI e' => let r := power a e' in ((r * r) mod secp256k1_p * a) mod secp256k1_p
  end.

Definition inverse (a : Z) : Z := power a (Z.to_pos (secp256k1_p - 2)).

(** A point in affine coordinates; [None] is the point at infinity. *)
Definition point : Type := option (Z * Z).

Definition add (P Q : point) : point :=
  match P, Q with
  | None, _ => Q
  | _, None => P
  | Some (x1, y1), Some (x2, y2) =>
      if (x1 =? x2) && ((y1 + y2) mod secp256k1_p =? 0) then None
      else
        let slope :=
          (if x1 =? x2 then 3 * x1 * x1 * inverse (2 * y1)
           else (y2 - y1) * inverse (x2 - x1)) mod secp256k1_p in
        let x3 := (slope * slope - x1 - x2) mod secp256k1_p in
        Some (x3, (slope * (x1 - x3) - y1) mod secp256k1_p)
  end.

Fixpoint multiply (k : positive) (P : point) : point :=
  match k with
  | xH => P
  | xO k' => let Q := multiply k' P in add Q Q
  | xI k' => let Q := multiply k' P in add (add Q Q) P
  end.

Definition on_curve (x y : Z) : bool :=
  (0 <=? x) && (x <? secp256k1_p) && (0 <=? y) && (y <? secp256k1_p)
  && ((y * y) mod secp256k1_p =? (x ^ 3 + 7) mod secp256k1_p).

(** [pointFromScalar(d, compressed)]: the scalar must be a private key;
    the result is the encoding of [d * G]. *)
Definition pointFromScalar (d : list byte) (compressed : bool)
    : completion (option (list byte)) :=
  if negb (isPrivate d) then Throw (TypeError "Expected Private")
  else
    match multiply (Z.to_pos (be_value d)) (Some (secp256k1_Gx, secp256k1_Gy)) with
    | None => Ok None
    | Some (x, y) =>
        Ok (Some (if compressed
                  then (if Z.even y then x02 else x03) :: be_bytes 32 x
                  else x04 :: be_bytes 32 x ++ be_bytes 32 y))
    end.

(** [isPointCompressed(p)]: [p] encodes a point, on 33 bytes. *)
Definition isPointCompressed (p : list byte) : bool :=
  match p with
  | first :: xs =>
      (length xs =? 32)%nat
      && (Byte.eqb first x02 || Byte.eqb first x03)
      && (let x := be_value xs in
          let y := power (x ^ 3 + 7) (Z.to_pos ((secp256k1_p + 1) / 4)) in
          on_curve x y)
  | [] => false
  end.

Definition curve : CurveLibrary :=
  Build_CurveLibrary pointFromScalar isPointCompressed.

End Reference.

(** * Properties *)

(** ** Modular exponentiation *)

Section ModPow.
Import PublicKeyUtils.

Lemma iterations_shiftr exp :
  0 < exp -> iterations exp = S (iterations (Z.shiftr exp 1)).
Proof.
  intros Hpos. unfold iterations.
  replace (exp >? 0) with true by (symmetry; apply Z.gtb_lt; lia).
  rewrite Z.shiftr_div_pow2 by lia. change (2 ^ 1) with 2.
  destruct (Z.eq_dec exp 1) as [->|Hne]; [reflexivity|].
  assert (Hhalf : 0 < exp / 2) by (apply Z.div_str_pos; lia).
  replace (exp / 2 >? 0) with true by (symmetry; apply Z.gtb_lt; lia).
  f_equal.
  rewrite <- Z2Nat.inj_succ by apply Z.log2_nonneg.
  f_equal.
  rewrite <- (Z.log2_double (exp / 2)) by lia.
  destruct (Z.even exp) eqn:Hev.
  - apply Z.even_spec in Hev. destruct Hev as [k ->].
    f_equal. rewrite (Z.mul_comm 2 k), Z.div_mul by lia. lia.
  - assert (Hodd : Z.odd exp = true) by (rewrite <- Z.negb_even, Hev; reflexivity).
    apply Z.odd_spec in Hodd. destruct Hodd as [k ->].
    replace ((2 * k + 1) / 2) with k.
    + rewrite Z.log2_succ_double by lia. rewrite Z.log2_double by lia. reflexivity.
    + symmetry. rewrite Z.add_comm, Z.mul_comm, Z.div_add by lia.
      reflexivity.
Qed.

Lemma land_1_odd exp : BigInt_truthy (Z.land exp 1) = Z.odd exp.
Proof.
  unfold BigInt_truthy.
  change 1 with (Z.ones 1). rewrite Z.land_ones by lia.
  change (2 ^ 1) with 2. rewrite Zmod_odd.
  destruct (Z.odd exp); reflexivity.
Qed.

Lemma pow_halve b e :
  0 <= e -> b ^ e = (if Z.odd e then b else 1) * (b * b) ^ (e / 2).
Proof.
  intros He.
  rewrite <- Z.pow_2_r, <- Z.pow_mul_r by (try apply Z.div_pos; lia).
  rewrite (Z.div_mod e 2) at 1 by lia.
  rewrite Zmod_odd.
  destruct (Z.odd e).
  - rewrite Z.pow_add_r, Z.pow_1_r by (try apply Z.mul_nonneg_nonneg;
      try apply Z.div_pos; lia). lia.
  - rewrite Z.add_0_r. lia.
Qed.

Lemma rem_pow_idemp b k m :
  m <> 0 -> 0 <= k -> Z.rem (Z.rem b m ^ k) m = Z.rem (b ^ k) m.
Proof.
  intros Hm Hk. pattern k. apply natlike_ind; [reflexivity| |assumption].
  intros x Hx IH.
  rewrite !Z.pow_succ_r by assumption.
  rewrite Z.mul_rem_idemp_l by assumption.
  rewrite <- Z.mul_rem_idemp_r, IH, Z.mul_rem_idemp_r by assumption.
  reflexivity.
Qed.

(** The loop invariant: with enough fuel the loop ends normally, and
    it returns the truncating remainder of [result * base ^ exp]. *)
Lemma modPow_loop_spec fuel : forall result base exp modulus,
  modulus <> 0 -> 0 <= exp -> (iterations exp <= fuel)%nat ->
  Z.rem result modulus = result ->
  modPow_loop fuel result base exp modulus = Ok (Z.rem (result * base ^ exp) modulus).
Proof.
  induction fuel as [|fuel IH]; intros result base exp modulus Hm He Hfuel Hres.
  - destruct (Z.eq_dec exp 0) as [->|Hne].
    + simpl. rewrite Z.mul_1_r, Hres. reflexivity.
    + rewrite (iterations_shiftr exp) in Hfuel by lia. lia.
  - destruct (Z.eq_dec exp 0) as [->|Hne].
    + simpl. rewrite Z.mul_1_r, Hres. reflexivity.
    + assert (Hpos : 0 < exp) by lia.
      cbn [modPow_loop].
      replace (exp >? 0) with true by (symmetry; apply Z.gtb_lt; lia).
      rewrite land_1_odd. unfold BigInt_rem.
      replace (modulus =? 0) with false by (symmetry; apply Z.eqb_neq; assumption).
      rewrite (iterations_shiftr exp) in Hfuel by assumption.
      assert (Hsh : Z.shiftr exp 1 = exp / 2)
        by (rewrite Z.shiftr_div_pow2 by lia; reflexivity).
      assert (Hhalf : 0 <= exp / 2) by (apply Z.div_pos; lia).
      rewrite (pow_halve base exp) by assumption.
      assert (Hfuel' : (iterations (Z.shiftr exp 1) <= fuel)%nat) by lia.
      destruct (Z.odd exp); cbn [mbind completion_bind].
      * rewrite IH by
          first [assumption | apply Z.rem_rem; assumption | rewrite Hsh; lia].
        rewrite Hsh. f_equal.
        rewrite <- Z.mul_rem_idemp_r, rem_pow_idemp by assumption.
        rewrite Z.mul_rem_idemp_r, Z.mul_rem_idemp_l by assumption.
        f_equal. ring.
      * rewrite IH by first [assumption | rewrite Hsh; lia].
        rewrite Hsh. f_equal.
        rewrite <- Z.mul_rem_idemp_r, rem_pow_idemp by assumption.
        rewrite Z.mul_rem_idemp_r by assumption.
        f_equal. ring.
Qed.

(** More fuel than the loop needs changes nothing. *)
Lemma modPow_loop_fuel fuel base exp modulus :
  modulus <> 0 -> 0 <= exp -> 1 < Z.abs modulus -> (iterations exp <= fuel)%nat ->
  modPow_loop fuel 1 base exp modulus = modPow base exp modulus.
Proof.
  intros Hm He H1 Hfuel. unfold modPow.
  assert (Hone : Z.rem 1 modulus = 1) by (apply Z.rem_small_iff; lia).
  rewrite !modPow_loop_spec by (auto; lia). reflexivity.
Qed.

Lemma modPow_rem base exp modulus :
  0 <= exp -> 1 < modulus -> modPow base exp modulus = Ok (Z.rem (base ^ exp) modulus).
Proof.
  intros He Hm. unfold modPow.
  rewrite modPow_loop_spec; try lia.
  - rewrite Z.mul_1_l. reflexivity.
  - apply Z.rem_small. lia.
Qed.

Lemma modPow_mod base exp modulus :
  0 <= base -> 0 <= exp -> 1 < modulus ->
  modPow base exp modulus = Ok (base ^ exp mod modulus).
Proof.
  intros Hb He Hm. rewrite modPow_rem by assumption.
  rewrite Z.rem_mod_nonneg; [reflexivity| |lia].
  apply Z.pow_nonneg. assumption.
Qed.

End ModPow.

(** ** Bytes and hexadecimal strings *)

Section Bytes.

Lemma byte_to_Z_range b : 0 <= byte_to_Z b < 256.
Proof.
  unfold byte_to_Z. pose proof (Byte.to_N_bounded b) as Hb. lia.
Qed.

Lemma byte_of_to_Z b : byte_of_Z (byte_to_Z b) = b.
Proof.
  unfold byte_of_Z. rewrite Z.mod_small by apply byte_to_Z_range.
  unfold byte_to_Z. rewrite N2Z.id, Byte.of_to_N. reflexivity.
Qed.

Lemma byte_to_of_Z z : byte_to_Z (byte_of_Z z) = z mod 256.
Proof.
  unfold byte_of_Z, byte_to_Z.
  assert (Hr : 0 <= z mod 256 < 256) by (apply Z.mod_pos_bound; lia).
  destruct (Byte.of_N (Z.to_N (z mod 256))) as [b|] eqn:Hof.
  - apply Byte.to_of_N in Hof. simpl. rewrite Hof. lia.
  - apply Byte.of_N_None_iff in Hof. lia.
Qed.

Lemma byte_of_Z_mod z : byte_of_Z (z mod 256) = byte_of_Z z.
Proof. unfold byte_of_Z. rewrite Z.mod_mod by lia. reflexivity. Qed.

Lemma hex_value_char d : 0 <= d < 16 -> hex_value (hex_char d) = Some d.
Proof.
  intros Hd.
  assert (Hcases : d = 0 \/ d = 1 \/ d = 2 \/ d = 3 \/ d = 4 \/ d = 5 \/ d = 6
                   \/ d = 7 \/ d = 8 \/ d = 9 \/ d = 10 \/ d = 11 \/ d = 12
                   \/ d = 13 \/ d = 14 \/ d = 15) by lia.
  repeat (destruct Hcases as [->|Hcases]; [reflexivity|]).
  subst d. reflexivity.
Qed.

Lemma nibbles z : 0 <= z / 16 mod 16 < 16 /\ 0 <= z mod 16 < 16.
Proof. split; apply Z.mod_pos_bound; lia. Qed.

Lemma byte_nibbles b :
  0 <= byte_to_Z b / 16 < 16 /\ 0 <= byte_to_Z b mod 16 < 16
  /\ byte_to_Z b / 16 * 16 + byte_to_Z b mod 16 = byte_to_Z b.
Proof.
  pose proof (byte_to_Z_range b) as Hb.
  pose proof (Z.div_mod (byte_to_Z b) 16 ltac:(lia)) as Hdm.
  pose proof (Z.mod_pos_bound (byte_to_Z b) 16 ltac:(lia)) as Hm.
  lia.
Qed.

(** Reading back the hexadecimal form of a byte string. *)
Lemma parse_hex_toString bytes : forall acc,
  parse_hex acc (Buffer_toString_hex bytes)
  = Some (fold_left (fun a b => a * 256 + byte_to_Z b) bytes acc).
Proof.
  induction bytes as [|b rest IH]; intros acc; [reflexivity|].
  destruct (byte_nibbles b) as (Hhi & Hlo & Hsum).
  cbn [Buffer_toString_hex parse_hex fold_left].
  rewrite (hex_value_char _ Hhi), (hex_value_char _ Hlo), IH.
  do 2 f_equal. lia.
Qed.

Lemma BigInt_of_0x_toString bytes :
  bytes <> [] -> BigInt_of_0x (Buffer_toString_hex bytes) = Ok (be_value bytes).
Proof.
  intros Hne. unfold BigInt_of_0x.
  rewrite parse_hex_toString.
  destruct bytes as [|b rest]; [contradiction|reflexivity].
Qed.

Lemma fold_be_bounds bytes : forall acc,
  0 <= acc ->
  acc * 256 ^ Z.of_nat (length bytes)
  <= fold_left (fun a b => a * 256 + byte_to_Z b) bytes acc
  < (acc + 1) * 256 ^ Z.of_nat (length bytes).
Proof.
  induction bytes as [|b rest IH]; intros acc Hacc.
  - cbn. lia.
  - cbn [fold_left length]. rewrite Nat2Z.inj_succ, Z.pow_succ_r by lia.
    pose proof (byte_to_Z_range b) as Hb.
    specialize (IH (acc * 256 + byte_to_Z b) ltac:(lia)).
    assert (Hpow : 0 < 256 ^ Z.of_nat (length rest))
      by (apply Z.pow_pos_nonneg; lia).
    nia.
Qed.

Lemma be_value_range bytes :
  0 <= be_value bytes < 256 ^ Z.of_nat (length bytes).
Proof.
  pose proof (fold_be_bounds bytes 0 ltac:(lia)) as Hb.
  unfold be_value. lia.
Qed.

Lemma be_value_snoc bytes b :
  be_value (bytes ++ [b]) = be_value bytes * 256 + byte_to_Z b.
Proof. unfold be_value. rewrite fold_left_app. reflexivity. Qed.

Lemma be_bytes_length len : forall z, length (be_bytes len z) = len.
Proof.
  induction len as [|len IH]; intros z; [reflexivity|].
  cbn [be_bytes]. rewrite length_app, IH. cbn. lia.
Qed.

(** [be_bytes] and [be_value] are inverse to each other. *)
Lemma be_value_bytes len : forall z,
  be_value (be_bytes len z) = z mod 256 ^ Z.of_nat len.
Proof.
  induction len as [|len IH]; intros z.
  - cbn. rewrite Z.mod_1_r. reflexivity.
  - cbn [be_bytes]. rewrite be_value_snoc, IH, byte_to_of_Z.
    rewrite Nat2Z.inj_succ, Z.pow_succ_r by lia.
    rewrite Z.rem_mul_r by (try apply Z.pow_pos_nonneg; lia).
    lia.
Qed.

Lemma be_bytes_value bytes : be_bytes (length bytes) (be_value bytes) = bytes.
Proof.
  induction bytes as [|b rest IH] using rev_ind; [reflexivity|].
  rewrite length_app, Nat.add_comm. cbn [length Nat.add be_bytes].
  rewrite be_value_snoc.
  pose proof (byte_to_Z_range b) as Hb.
  replace ((be_value rest * 256 + byte_to_Z b) / 256) with (be_value rest)
    by (symmetry; rewrite Z.add_comm, Z.div_add, Z.div_small by lia; lia).
  rewrite IH. f_equal. f_equal.
  rewrite <- byte_of_Z_mod.
  rewrite Z.add_comm, Z.mod_add, Z.mod_small by lia.
  apply byte_of_to_Z.
Qed.

End Bytes.

(** ** From a BigInt to its 32 bytes through hexadecimal digits *)

Section HexDigits.

Lemma zeros_shift k acc : zeros k +:+ String "0" acc = zeros (S k) +:+ acc.
Proof.
  unfold zeros. induction k as [|k IH]; [reflexivity|].
  change (String "0" (string_of_list_ascii (repeat "0"%char k) +:+ String "0" acc)
          = String "0" (string_of_list_ascii (repeat "0"%char (S k)) +:+ acc)).
  rewrite IH. reflexivity.
Qed.

Lemma hex_fixed_zero k : forall acc, hex_fixed k 0 acc = zeros k +:+ acc.
Proof.
  induction k as [|k IH]; intros acc; [reflexivity|].
  cbn [hex_fixed]. change (0 / 16) with 0. change (hex_char (0 mod 16)) with "0"%char.
  rewrite IH. apply zeros_shift.
Qed.

Lemma div16_bound z j : 0 <= z < 16 ^ Z.of_nat (S j) -> 0 <= z / 16 < 16 ^ Z.of_nat j.
Proof.
  rewrite Nat2Z.inj_succ, Z.pow_succ_r by lia. intros Hz. split.
  - apply Z.div_pos; lia.
  - apply Z.div_lt_upper_bound; lia.
Qed.

(** Leading zero digits of a fixed-width rendering. *)
Lemma hex_fixed_small j : forall k z acc,
  (j <= k)%nat -> 0 <= z < 16 ^ Z.of_nat j ->
  hex_fixed k z acc = zeros (k - j) +:+ hex_fixed j z acc.
Proof.
  induction j as [|j IH]; intros k z acc Hjk Hz.
  - change (16 ^ Z.of_nat 0) with 1 in Hz.
    replace z with 0 by lia. rewrite Nat.sub_0_r. apply hex_fixed_zero.
  - destruct k as [|k]; [lia|].
    cbn [hex_fixed Nat.sub]. apply IH; [lia|]. apply div16_bound. assumption.
Qed.

Lemma hex_fixed_length j : forall z acc,
  String.length (hex_fixed j z acc) = (j + String.length acc)%nat.
Proof.
  induction j as [|j IH]; intros z acc; [reflexivity|].
  cbn [hex_fixed]. rewrite IH. cbn [String.length]. lia.
Qed.

(** [hex_digits] writes the shortest fixed-width rendering. *)
Lemma hex_digits_fixed w : forall z acc,
  (1 <= w)%nat -> 0 <= z < 16 ^ Z.of_nat w ->
  exists j, (1 <= j <= w)%nat /\ 0 <= z < 16 ^ Z.of_nat j
            /\ (j = 1%nat \/ 16 ^ (Z.of_nat j - 1) <= z)
            /\ hex_digits w z acc = hex_fixed j z acc.
Proof.
  induction w as [|w IH]; intros z acc Hw Hz; [lia|].
  cbn [hex_digits].
  destruct (Z.eqb_spec (z / 16) 0) as [Hq|Hq].
  - exists 1%nat.
    pose proof (Z.div_mod z 16 ltac:(lia)) as Hdm.
    pose proof (Z.mod_pos_bound z 16 ltac:(lia)) as Hmod.
    change (16 ^ Z.of_nat 1) with 16.
    split; [lia|]. split; [lia|]. split; [left; reflexivity|reflexivity].
  - pose proof (div16_bound z w Hz) as Hz'.
    assert (Hw' : (1 <= w)%nat).
    { destruct w as [|w]; [|lia]. change (16 ^ Z.of_nat 0) with 1 in Hz'. lia. }
    destruct (IH (z / 16) (String (hex_char (z mod 16)) acc) Hw' Hz')
      as (j & Hj & Hzj & Hmin & Heq).
    pose proof (Z.div_mod z 16 ltac:(lia)) as Hdm.
    pose proof (Z.mod_pos_bound z 16 ltac:(lia)) as Hmod.
    exists (S j). split; [lia|]. split; [|split].
    + rewrite Nat2Z.inj_succ, Z.pow_succ_r by lia. lia.
    + right. replace (Z.of_nat (S j) - 1) with (Z.succ (Z.of_nat j - 1)) by lia.
      rewrite Z.pow_succ_r by lia.
      destruct Hmin as [->|Hmin]; [change (16 ^ (Z.of_nat 1 - 1)) with 1|]; lia.
    + rewrite Heq. reflexivity.
Qed.

Lemma toString_16_width z :
  0 <= z -> z < 16 ^ Z.of_nat (S (Z.to_nat (Z.log2 z))).
Proof.
  intros Hz. rewrite Nat2Z.inj_succ, Z2Nat.id by apply Z.log2_nonneg.
  destruct (Z.eq_dec z 0) as [->|Hne]; [reflexivity|].
  pose proof (Z.log2_spec z ltac:(lia)) as [_ Hlt].
  eapply Z.lt_le_trans; [exact Hlt|].
  apply Z.pow_le_mono_l. lia.
Qed.

Lemma padStart_toString_16 k y :
  (1 <= k)%nat -> 0 <= y < 16 ^ Z.of_nat k ->
  padStart k "0" (BigInt_toString_16 y) = hex_fixed k y EmptyString.
Proof.
  intros Hk Hy. unfold BigInt_toString_16.
  replace (y <? 0) with false by (symmetry; apply Z.ltb_ge; lia).
  destruct (hex_digits_fixed (S (Z.to_nat (Z.log2 y))) y EmptyString)
    as (j & Hj & Hyj & Hmin & ->); [lia|split; [lia|apply toString_16_width; lia]|].
  assert (Hjk : (j <= k)%nat).
  { destruct Hmin as [->|Hmin]; [assumption|].
    assert (Hlt : 16 ^ (Z.of_nat j - 1) < 16 ^ Z.of_nat k) by lia.
    apply Z.pow_lt_mono_r_iff in Hlt; lia. }
  unfold padStart. rewrite hex_fixed_length. cbn [String.length].
  rewrite Nat.add_0_r. fold (zeros (k - j)).
  symmetry. apply hex_fixed_small; assumption.
Qed.

Lemma from_hex_fixed m : forall z acc,
  Buffer_from_hex (hex_fixed (2 * m) z acc) = be_bytes m z ++ Buffer_from_hex acc.
Proof.
  induction m as [|m IH]; intros z acc; [reflexivity|].
  replace (2 * S m)%nat with (S (S (2 * m))) by lia.
  cbn [hex_fixed be_bytes]. rewrite IH.
  destruct (nibbles z) as [Hhi Hlo].
  cbn [Buffer_from_hex].
  rewrite (hex_value_char _ Hhi), (hex_value_char _ Hlo).
  rewrite Z.div_div by lia. change (16 * 16) with 256.
  rewrite <- app_assoc. cbn [app]. do 2 f_equal.
  rewrite <- (byte_of_Z_mod z). f_equal.
  change 256 with (16 * 16). rewrite Z.rem_mul_r by lia. lia.
Qed.

(** [Buffer.from(y.toString(16).padStart(64, '0'), 'hex')] is the
    32-byte big-endian encoding of [y]. *)
Lemma yBytes_be y :
  0 <= y < 2 ^ 256 ->
  Buffer_from_hex (padStart 64 "0" (BigInt_toString_16 y)) = be_bytes 32 y.
Proof.
  intros Hy.
  rewrite padStart_toString_16 by (try lia; exact Hy).
  change 64%nat with (2 * 32)%nat.
  rewrite from_hex_fixed. apply app_nil_r.
Qed.

End HexDigits.

(** ** Square roots modulo a prime [p = 3 (mod 4)] *)

Section SquareRoot.

Variable p : Z.
Hypothesis p_prime : Z.prime p.
Hypothesis p_3mod4 : p mod 4 = 3.

Lemma quarter_exponent :
  (p + 1) / 4 = p / 4 + 1 /\ p - 1 = 2 * (2 * (p / 4) + 1) /\ 0 <= p / 4.
Proof.
  pose proof (Z.prime_ge_2 p p_prime) as Hge.
  pose proof (Z.div_mod p 4 ltac:(lia)) as Hdm.
  assert (Hq : 0 <= p / 4) by (apply Z.div_pos; lia).
  split; [|lia].
  replace (p + 1) with (4 * (p / 4 + 1) + 0) by lia.
  rewrite Z.add_0_r, Z.mul_comm, Z.div_mul by lia. reflexivity.
Qed.

(** Raising a square to the power [(p + 1) / 4] gives one of its roots. *)
Lemma sqrt_of_square a c :
  a mod p = (c * c) mod p ->
  let r := a ^ ((p + 1) / 4) mod p in
  (r * r) mod p = a mod p.
Proof.
  intros Hsq r. subst r.
  pose proof (Z.prime_ge_2 p p_prime) as Hge.
  destruct quarter_exponent as (-> & Hpm1 & Hq).
  rewrite <- Z.mul_mod by lia.
  rewrite <- Z.pow_add_r by lia.
  destruct (Z.eq_dec (a mod p) 0) as [Hz|Hnz].
  - rewrite <- Z.mod_pow_l, Hz.
    rewrite Z.pow_0_l by lia. apply Z.mod_0_l. lia.
  - replace (p / 4 + 1 + (p / 4 + 1)) with (Z.succ (2 * (p / 4) + 1)) by lia.
    rewrite Z.pow_succ_r by lia.
    rewrite <- Z.mul_mod_idemp_r by lia.
    rewrite <- (Z.mod_pow_l a), Hsq, Z.mod_pow_l.
    rewrite <- Z.pow_2_r, <- Z.pow_mul_r by lia.
    rewrite <- Hpm1.
    rewrite Z.fermat_nz; [rewrite Z.mul_1_r, Z.pow_2_r; exact Hsq|assumption|].
    intros Hc. apply Hnz. rewrite Hsq.
    rewrite <- Z.mul_mod_idemp_l, Hc by lia. apply Z.mod_0_l. lia.
Qed.

End SquareRoot.

(** ** Running code against the store *)

Section Store.

Lemma bind_run {A B : Type} (m : M A) (k : A -> M B) (h : store) :
  (m ≫= k) h = match m h with
               | (Ok a, h') => k a h'
               | (Throw e, h') => (Throw e, h')
               | (OutOfFuel, h') => (OutOfFuel, h')
               end.
Proof. reflexivity. Qed.

Lemma read_Some (h : store) (r : loc) (contents : list byte) :
  h !! r = Some contents -> read r h = (Ok contents, h).
Proof. intros Hr. unfold read. rewrite Hr. reflexivity. Qed.

Lemma alloc_run (h : store) (contents : list byte) :
  alloc contents h = (Ok (length h), h ++ [contents]).
Proof. reflexivity. Qed.

Lemma lookup_new (h : store) (contents : list byte) :
  (h ++ [contents]) !! length h = Some contents.
Proof. apply list_lookup_middle. reflexivity. Qed.

Lemma lookup_old (h : store) (contents x : list byte) (r : loc) :
  h !! r = Some x -> (h ++ [contents]) !! r = Some x.
Proof. intros Hr. apply lookup_app_l_Some. assumption. Qed.

(** A mutation through one reference leaves every other array alone. *)
Lemma lookup_mutate_ne (h : store) (r r' : loc) f :
  r <> r' -> mutate r f h !! r' = h !! r'.
Proof. intros Hne. unfold mutate. apply list_lookup_alter_ne. assumption. Qed.

Lemma lookup_mutate_eq (h : store) (r : loc) f :
  mutate r f h !! r = f <$> h !! r.
Proof. unfold mutate. apply list_lookup_alter_eq. Qed.

Lemma mutate_length (h : store) (r : loc) f : length (mutate r f h) = length h.
Proof. unfold mutate. apply length_alter. Qed.

End Store.

Create HintDb store.
#[local] Hint Resolve lookup_new lookup_old : store.

(** Evaluates a monadic program one bind at a time, looking up the arrays
    it reads in the hypotheses. *)
Ltac run :=
  repeat first
    [ rewrite bind_run
    | rewrite alloc_run
    | erewrite read_Some by eauto with store
    | progress cbn [mret M_ret throw lift new_Uint8Array] ].

(** ** Point recovery *)

Section LiftX.
Context `{Imports}.
Import PublicKeyUtils.

Lemma liftX_wrong_length (h : store) (xBytes : loc) (xs : list byte) :
  h !! xBytes = Some xs -> length xs <> 32%nat ->
  liftX xBytes h = (Throw liftX_length_error, h).
Proof.
  intros Hx Hlen. unfold liftX. run.
  replace (length xs =? 32)%nat with false
    by (symmetry; apply Nat.eqb_neq; assumption).
  reflexivity.
Qed.

Lemma liftX_out_of_range (h : store) (xBytes : loc) (xs : list byte) :
  h !! xBytes = Some xs -> length xs = 32%nat ->
  be_value xs = 0 \/ CURVE_p <= be_value xs ->
  liftX xBytes h = (Throw liftX_range_error, h).
Proof.
  intros Hx Hlen Hrange. unfold liftX. run.
  rewrite Hlen. cbn [Nat.eqb negb].
  rewrite BigInt_of_0x_toString by (intros ->; discriminate).
  run.
  replace ((be_value xs <=? 0) || (be_value xs >=? CURVE_p)) with true;
    [reflexivity|].
  symmetry. apply orb_true_iff. rewrite Z.leb_le, Z.geb_le. lia.
Qed.

Lemma sqrtMod_mod a p :
  0 <= a -> 2 <= p -> sqrtMod a p = Ok (a ^ ((p + 1) / 4) mod p).
Proof.
  intros Ha Hp. unfold sqrtMod.
  rewrite Z.shiftr_div_pow2 by lia. change (2 ^ 2) with 4.
  apply modPow_mod; try lia. apply Z.div_pos; lia.
Qed.

Lemma liftX_in_range (h : store) (xBytes : loc) (xs : list byte) :
  CURVE_p <= 2 ^ 256 -> 0 <= CURVE_b ->
  h !! xBytes = Some xs -> length xs = 32%nat ->
  0 < be_value xs < CURVE_p ->
  liftX xBytes h
  = (Ok (length h),
     h ++ [[x04] ++ xs ++ be_bytes 32 (lifted_y (be_value xs))]).
Proof.
  intros Hp Hb Hx Hlen Hrange. unfold liftX. run.
  rewrite Hlen. cbn [Nat.eqb negb].
  rewrite BigInt_of_0x_toString by (intros ->; discriminate).
  run.
  replace ((be_value xs <=? 0) || (be_value xs >=? CURVE_p)) with false.
  2:{ symmetry. apply orb_false_iff. rewrite Z.leb_gt, Z.geb_leb, Z.leb_gt. lia. }
  unfold BigInt_rem.
  replace (CURVE_p =? 0) with false by (symmetry; apply Z.eqb_neq; lia).
  run.
  assert (Hcube : 0 <= be_value xs ^ 3 + CURVE_b)
    by (pose proof (Z.pow_nonneg (be_value xs) 3 ltac:(lia)); lia).
  assert (Hpos : 0 < CURVE_p) by lia.
  rewrite Z.rem_mod_nonneg by lia.
  pose proof (Z.mod_pos_bound (be_value xs ^ 3 + CURVE_b) CURVE_p Hpos) as Hy2.
  rewrite sqrtMod_mod by lia.
  run. fold (lifted_y (be_value xs)).
  rewrite yBytes_be; [reflexivity|].
  pose proof (Z.mod_pos_bound
                (((be_value xs ^ 3 + CURVE_b) mod CURVE_p) ^ ((CURVE_p + 1) / 4))
                CURVE_p Hpos) as Hy.
  unfold lifted_y. lia.
Qed.

End LiftX.

(** ** The [PublicKey] object *)

Section PublicKeyObject.
Import PublicKey.

Lemma PublicKey_constructor_wrong_length (h : store) (input : loc) (contents : list byte) :
  h !! input = Some contents ->
  length contents <> 32%nat -> length contents <> 33%nat ->
  constructor input h = (Throw constructor_error, h).
Proof.
  intros Hin H32 H33. unfold constructor. run.
  apply Nat.eqb_neq in H32, H33. rewrite H32, H33. reflexivity.
Qed.

Lemma PublicKey_constructor_32 (h : store) (input : loc) (contents : list byte) :
  h !! input = Some contents -> length contents = 32%nat ->
  constructor input h
  = (Ok {| _bytes := length h |}, h ++ [[x02] ++ contents]).
Proof.
  intros Hin H32. unfold constructor. run. rewrite H32. reflexivity.
Qed.

Lemma PublicKey_constructor_33 (h : store) (input : loc) (contents : list byte) :
  h !! input = Some contents -> length contents = 33%nat ->
  constructor input h = (Ok {| _bytes := input |}, h).
Proof.
  intros Hin H33. unfold constructor. run. rewrite H33. reflexivity.
Qed.

(** What a successful construction tells. *)
Lemma PublicKey_constructor_Ok (h h' : store) (input : loc) (pk : t) :
  constructor input h = (Ok pk, h') ->
  exists contents, h !! input = Some contents
    /\ ((length contents = 32%nat /\ pk = {| _bytes := length h |}
         /\ h' = h ++ [[x02] ++ contents])
        \/ (length contents = 33%nat /\ pk = {| _bytes := input |} /\ h' = h)).
Proof.
  intros Hc. destruct (h !! input) as [contents|] eqn:Hin.
  - exists contents. split; [reflexivity|].
    destruct (Nat.eq_dec (length contents) 32%nat) as [H32|H32].
    + rewrite (PublicKey_constructor_32 _ _ _ Hin H32) in Hc. left. split; [assumption|].
      split; congruence.
    + destruct (Nat.eq_dec (length contents) 33%nat) as [H33|H33].
      * rewrite (PublicKey_constructor_33 _ _ _ Hin H33) in Hc. right. split; [assumption|].
        split; congruence.
      * rewrite (PublicKey_constructor_wrong_length _ _ _ Hin H32 H33) in Hc. discriminate.
  - unfold constructor in Hc. rewrite bind_run in Hc. unfold read in Hc.
    rewrite Hin in Hc. discriminate.
Qed.

Lemma PublicKey_bytes_run (h : store) (pk : t) (contents : list byte) :
  h !! _bytes pk = Some contents ->
  bytes pk h = (Ok (length h), h ++ [contents]).
Proof. intros Hb. unfold bytes. run. reflexivity. Qed.

Lemma PublicKey_x_run (h : store) (pk : t) (contents : list byte) :
  h !! _bytes pk = Some contents ->
  x pk h = (Ok (S (length h)), (h ++ [contents]) ++ [take 32 (drop 1 contents)]).
Proof.
  intros Hb. unfold x. rewrite bind_run, (PublicKey_bytes_run _ _ _ Hb). run.
  rewrite length_app. cbn [length]. rewrite Nat.add_1_r. reflexivity.
Qed.

Lemma PublicKey_parity_run (h : store) (pk : t) (contents : list byte) :
  h !! _bytes pk = Some contents ->
  parity pk h = (Ok (contents !! 0%nat), h ++ [contents]).
Proof.
  intros Hb. unfold parity. rewrite bind_run, (PublicKey_bytes_run _ _ _ Hb). run.
  reflexivity.
Qed.

(** A getter that returns has read the array of the object. *)
Lemma PublicKey_bytes_Ok (h h' : store) (pk : t) (r : loc) :
  bytes pk h = (Ok r, h') ->
  exists contents, h !! _bytes pk = Some contents
                   /\ r = length h /\ h' = h ++ [contents].
Proof.
  intros Hb. destruct (h !! _bytes pk) as [contents|] eqn:Hin.
  - rewrite (PublicKey_bytes_run _ _ _ Hin) in Hb. exists contents.
    split; [reflexivity|]. split; congruence.
  - unfold bytes, new_Uint8Array in Hb. rewrite bind_run in Hb.
    unfold read in Hb. rewrite Hin in Hb. discriminate.
Qed.

Lemma PublicKey_x_Ok (h h' : store) (pk : t) (r : loc) :
  x pk h = (Ok r, h') ->
  exists contents, h !! _bytes pk = Some contents
                   /\ r = S (length h)
                   /\ h' = (h ++ [contents]) ++ [take 32 (drop 1 contents)].
Proof.
  intros Hx. destruct (h !! _bytes pk) as [contents|] eqn:Hin.
  - rewrite (PublicKey_x_run _ _ _ Hin) in Hx. exists contents.
    split; [reflexivity|]. split; congruence.
  - unfold x, bytes, new_Uint8Array in Hx. rewrite !bind_run in Hx.
    unfold read in Hx. rewrite Hin in Hx. discriminate.
Qed.

End PublicKeyObject.

(** ** The multikey codec *)

Section Multikey.
Context `{Imports}.
Import PublicKey.

Lemma encode_run (h : store) (pk : t) (contents : list byte) :
  h !! _bytes pk = Some contents -> (33 <= length contents)%nat ->
  let xs := take 32 (drop 1 contents) in
  encode pk h
  = (Ok (base58btc_encode (BIP340_MULTIKEY_PREFIX ++ xs)),
     ((h ++ [contents]) ++ [xs]) ++ [BIP340_MULTIKEY_PREFIX ++ xs]).
Proof.
  intros Hb Hlen xs. unfold encode.
  rewrite bind_run, (PublicKey_x_run _ _ _ Hb). fold xs.
  assert (Hxs : length xs = 32%nat)
    by (unfold xs; rewrite length_take, length_drop; lia).
  assert (Hloc : ((h ++ [contents]) ++ [xs]) !! S (length h) = Some xs).
  { replace (S (length h)) with (length (h ++ [contents]))
      by (rewrite length_app; cbn; lia).
    apply lookup_new. }
  run. rewrite Hxs. cbn [Nat.eqb negb]. run. reflexivity.
Qed.

(** The three ways [decode] ends once the codec has returned a payload. *)
Lemma decode_run (h h1 : store) (pk : t) (encoded : string) (payload : list byte) :
  multibase pk h = (Ok encoded, h1) ->
  base58btc_decode encoded = Ok payload ->
  decode pk h
  = (if negb (length payload =? 34)%nat then Throw decode_length_error
     else if negb (String.eqb (Buffer_toString_hex (sha256 (take 2 payload)))
                     BIP340_MULTIKEY_PREFIX_HASH)
          then Throw (decode_prefix_error (take 2 payload))
          else Ok (length h1),
     h1 ++ [payload]).
Proof.
  intros Hm Hd. unfold decode. rewrite bind_run, Hm. run. rewrite Hd. run.
  destruct (negb (length payload =? 34)%nat); [reflexivity|].
  destruct (negb (String.eqb _ _)); reflexivity.
Qed.

End Multikey.

(** ** The [PrivateKey] object and its conversions *)

Section PrivateKeyObject.
Context `{Imports}.

Lemma lor_shiftl_byte acc b :
  Z.lor (Z.shiftl acc 8) (byte_to_Z b) = acc * 256 + byte_to_Z b.
Proof.
  pose proof (byte_to_Z_range b) as Hb.
  rewrite Z.shiftl_mul_pow2 by lia. change (2 ^ 8) with 256.
  symmetry. apply Z.add_nocarry_lor.
  apply Z.bits_inj'. intros k Hk.
  rewrite Z.land_spec, Z.bits_0.
  destruct (Z.lt_ge_cases k 8) as [Hlt|Hge].
  - change 256 with (2 ^ 8). rewrite Z.mul_pow2_bits_low by assumption.
    reflexivity.
  - rewrite (Z.bits_above_log2 (byte_to_Z b)); [apply andb_false_r|lia|].
    destruct (Z.eq_dec (byte_to_Z b) 0) as [->|Hne]; [cbn; lia|].
    apply Z.log2_lt_pow2; [lia|].
    apply Z.lt_le_trans with (2 ^ 8); [cbn; lia|].
    apply Z.pow_le_mono_r; lia.
Qed.

Lemma fold_lor_be (contents : list byte) : forall acc,
  fold_left (fun a byte => Z.lor (Z.shiftl a 8) (byte_to_Z byte)) contents acc
  = fold_left (fun a b => a * 256 + byte_to_Z b) contents acc.
Proof.
  induction contents as [|b rest IH]; intros acc; [reflexivity|].
  cbn [fold_left]. rewrite lor_shiftl_byte. apply IH.
Qed.

(** [toSecret] reads a byte string as a big-endian integer. *)
Lemma toSecret_run (h : store) (r : loc) (contents : list byte) :
  h !! r = Some contents ->
  PrivateKeyUtils.toSecret r h = (Ok (be_value contents), h).
Proof.
  intros Hr. unfold PrivateKeyUtils.toSecret. run.
  rewrite fold_lor_be. reflexivity.
Qed.

Lemma toBytes_digits secret (len : nat) :
  map (fun i : nat =>
         byte_of_Z (Z.land (Z.shiftr secret
                              (8 * (Z.of_nat len - 1 - Z.of_nat i))) 255))
      (seq 0 len)
  = be_bytes len secret.
Proof.
  revert secret. induction len as [|len IH]; intros secret; [reflexivity|].
  rewrite seq_S, map_app. cbn [be_bytes map Nat.add]. f_equal.
  - rewrite <- IH. apply map_ext_in. intros i Hi. apply in_seq in Hi.
    f_equal. f_equal.
    rewrite !Z.shiftr_div_pow2 by lia.
    replace (8 * (Z.of_nat (S len) - 1 - Z.of_nat i))
      with (8 + 8 * (Z.of_nat len - 1 - Z.of_nat i)) by lia.
    rewrite Z.pow_add_r by lia. change (2 ^ 8) with 256.
    rewrite Z.div_div by (try apply Z.pow_pos_nonneg; lia). reflexivity.
  - f_equal. replace (8 * (Z.of_nat (S len) - 1 - Z.of_nat len)) with 0 by lia.
    rewrite Z.shiftr_0_r. change 255 with (Z.ones 8).
    rewrite Z.land_ones by lia. apply byte_of_Z_mod.
Qed.

(** [toBytes] writes the 32-byte big-endian encoding, when the curve
    library accepts it. *)
Lemma toBytes_run (h : store) (secret : Z) :
  tinysecp_isPrivate (be_bytes 32 secret) = true ->
  PrivateKeyUtils.toBytes secret h
  = (Ok (S (length h)), (h ++ [be_bytes 32 secret]) ++ [be_bytes 32 secret]).
Proof.
  intros Hpriv. unfold PrivateKeyUtils.toBytes.
  pose proof (toBytes_digits secret 32) as Hd.
  change (Z.of_nat 32 - 1) with 31 in Hd. rewrite Hd.
  run. rewrite Hpriv. cbn [negb]. run.
  rewrite length_app. cbn [length]. rewrite Nat.add_1_r. reflexivity.
Qed.

Import PrivateKey.

Lemma PrivateKey_constructor_secret (h : store) (s : Z) :
  1 <= s < CURVE_n ->
  constructor (VBigInt s) h
  = (Ok {| _bytes := VBigInt s; _secret := VBigInt s |}, h).
Proof.
  intros Hs. unfold constructor. cbn [truthy]. unfold BigInt_truthy.
  replace (s =? 0) with false by (symmetry; apply Z.eqb_neq; lia).
  cbn [negb]. run.
  replace ((s <? 1) || (s >=? CURVE_n)) with false; [reflexivity|].
  symmetry. apply orb_false_iff. rewrite Z.ltb_ge, Z.geb_leb, Z.leb_gt. lia.
Qed.

Lemma PrivateKey_constructor_bytes (h : store) (r : loc) (contents : list byte) :
  h !! r = Some contents -> length contents = 32%nat ->
  constructor (VUint8Array r) h
  = (Ok {| _bytes := VUint8Array r; _secret := VUint8Array r |}, h).
Proof.
  intros Hr Hlen. unfold constructor. cbn [truthy negb]. run.
  rewrite Hlen. reflexivity.
Qed.

Lemma PrivateKey_bytes_of_bigint (h : store) (s : Z) (v : value) :
  s <> 0 ->
  bytes {| _bytes := VBigInt s; _secret := v |} h
  = (Throw bigint_to_number_error, h).
Proof.
  intros Hs. unfold bytes. cbn [_bytes truthy]. unfold BigInt_truthy.
  replace (s =? 0) with false by (symmetry; apply Z.eqb_neq; lia).
  reflexivity.
Qed.

Lemma PrivateKey_secret_of_bigint (h : store) (s : Z) (v : value) :
  s <> 0 ->
  secret {| _bytes := v; _secret := VBigInt s |} h
  = (Ok (s, {| _bytes := v; _secret := VBigInt s |}), h).
Proof.
  intros Hs. unfold secret. cbn [_secret truthy]. unfold BigInt_truthy.
  replace (s =? 0) with false by (symmetry; apply Z.eqb_neq; lia).
  reflexivity.
Qed.

Lemma PrivateKey_bytes_run (h : store) (sk : t) (r0 : loc) (contents : list byte) :
  _bytes sk = VUint8Array r0 -> h !! r0 = Some contents ->
  bytes sk h = (Ok (length h), h ++ [contents]).
Proof.
  intros Hf Hr. unfold bytes. rewrite Hf. cbn [truthy negb]. run. reflexivity.
Qed.

(** The getter returns only when the field holds an allocated array. *)
Lemma PrivateKey_bytes_Ok (h h' : store) (sk : t) (r : loc) :
  bytes sk h = (Ok r, h') ->
  exists r0 contents, _bytes sk = VUint8Array r0 /\ h !! r0 = Some contents
                      /\ r = length h /\ h' = h ++ [contents].
Proof.
  unfold bytes. destruct (_bytes sk) as [|s|r0] eqn:Hf; cbn [truthy negb].
  - discriminate.
  - destruct (BigInt_truthy s); discriminate.
  - intros Hb. destruct (h !! r0) as [contents|] eqn:Hr.
    + exists r0, contents. revert Hb. run. intros [= <- <-]. auto.
    + revert Hb. cbn [new_Uint8Array]. rewrite bind_run. unfold read.
      rewrite Hr. discriminate.
Qed.

End PrivateKeyObject.

(** ** The reference imports against known answers *)

Section ReferenceChecks.
Import Reference.

Lemma sha256_abc :
  Buffer_toString_hex (sha256 (ascii_bytes "abc"))
  = "ba7816bf8f01cfea414140de5dae2223b00361a396177a9cb410ff61f20015ad"%string.
Proof. vm_compute. reflexivity. Qed.

Lemma sha256_two_blocks :
  Buffer_toString_hex
    (sha256 (ascii_bytes
               "abcdbcdecdefdefgefghfghighijhijkijkljklmklmnlmnomnopnopq"))
  = "248d6a61d20638b8e5c026930c3e6039a33ce45964ff2167f6ecedd419db06c1"%string.
Proof. vm_compute. reflexivity. Qed.

Lemma prefixHash_value :
  prefixHash
  = "b8f54beb0c765fcb38fd625a6194439e47a742da2c85df5abcfa071554d21d21"%string.
Proof. reflexivity. Qed.

Lemma base58btc_hello :
  base58btc_encode (ascii_bytes "Hello World!") = "z2NEpo7TZRRrLZSi2U"%string
  /\ base58btc_decode "z2NEpo7TZRRrLZSi2U" = Ok (ascii_bytes "Hello World!").
Proof. split; vm_compute; reflexivity. Qed.

Lemma base58btc_leading_zeros :
  base58btc_encode [x00; x00; x01] = "z112"%string
  /\ base58btc_decode "z112" = Ok [x00; x00; x01]
  /\ base58btc_decode "z0" = Throw (CodecError "Non-base58btc character").
Proof. repeat split; vm_compute; reflexivity. Qed.

(** The generator is on the curve. *)
Lemma generator_on_curve :
  (secp256k1_Gy * secp256k1_Gy) mod secp256k1_p
  = (secp256k1_Gx ^ 3 + 7) mod secp256k1_p.
Proof. vm_compute. reflexivity. Qed.

(** [liftX] run on the x-coordinate of the generator returns the
    generator, uncompressed. *)
Lemma liftX_generator :
  @PublicKeyUtils.liftX secp256k1 0%nat [be_bytes 32 secp256k1_Gx]
  = (Ok 1%nat,
     [be_bytes 32 secp256k1_Gx;
      [x04] ++ be_bytes 32 secp256k1_Gx ++ be_bytes 32 secp256k1_Gy]).
Proof. vm_compute. reflexivity. Qed.

(** The multikey string of the generator, and what [decode] throws when
    the digest of [constants.ts] is another one. *)
Lemma multibase_generator :
  let h : store := [be_bytes 33 (2 * 2 ^ 256 + secp256k1_Gx)] in
  let pk := {| PublicKey._bytes := 0%nat |} in
  fst (@PublicKey.multibase secp256k1 pk h)
  = Ok "z66Pu5cFv1WyftyTbLJxfydJXo9WcoyqcqBE6WwzwNWo4Tvw"%string
  /\ fst (@PublicKey.decode (imports prefix "00") pk h)
     = Throw (PublicKeyError "Invalid prefix: malformed multibase prefix 225,74"
                             "DECODE_PUBLIC_KEY_ERROR").
Proof. split; vm_compute; reflexivity. Qed.

End ReferenceChecks.

(** ** The field prime is prime *)

Section Primality.
Import PublicKeyUtils.

Lemma no_divisor_sound fuel : forall d n,
  0 < d -> no_divisor fuel d n = true ->
  forall k, d <= k -> k * k <= n -> ~ (k | n).
Proof.
  induction fuel as [|fuel IH]; intros d n Hd Hnd k Hk Hkk; cbn [no_divisor] in Hnd.
  - apply Z.gtb_lt in Hnd. nia.
  - destruct (d * d >? n) eqn:Hsq; [apply Z.gtb_lt in Hsq; nia|].
    destruct (Z.eqb_spec (n mod d) 0) as [|Hmod]; [discriminate|].
    destruct (Z.eq_dec k d) as [->|Hne].
    + intros Hdiv. apply Hmod. apply Z.mod_divide; [lia|assumption].
    + apply (IH (d + 1) n); [lia|assumption|lia|assumption].
Qed.

(** A number without a non-trivial divisor up to its square root is
    prime. *)
Lemma prime_of_small_divisors n :
  1 < n -> (forall k, 2 <= k -> k * k <= n -> ~ (k | n)) -> Z.prime n.
Proof.
  intros Hn Hnone. split; [assumption|].
  intros m Hm [c Hc].
  assert (Hc2 : 2 <= c) by nia.
  destruct (Z.le_gt_cases (m * m) n) as [Hle|Hgt].
  - apply (Hnone m); [lia|assumption|]. exists c. assumption.
  - apply (Hnone c); [assumption|nia|]. exists m. lia.
Qed.

Lemma trial_division_sound n : trial_division n = true -> Z.prime n.
Proof.
  unfold trial_division. intros Ht. apply andb_true_iff in Ht.
  destruct Ht as [Hn Hnd]. apply Z.ltb_lt in Hn.
  apply prime_of_small_divisors; [assumption|].
  intros k Hk Hkk. eapply no_divisor_sound; [|exact Hnd| |]; lia.
Qed.

Lemma prime_divisor : forall n, 0 <= n -> 1 < n ->
  exists r, Z.prime r /\ (r | n).
Proof.
  apply (Zlt_0_ind (fun n => 1 < n -> exists r, Z.prime r /\ (r | n))).
  intros n IH Hn0 Hn.
  destruct (prime_dec n) as [Hp|Hnp].
  - exists n. split; [apply prime_alt; assumption|apply Z.divide_refl].
  - destruct (not_prime_divide n Hn Hnp) as (d & Hd & Hdn).
    destruct (IH d ltac:(lia) ltac:(lia)) as (r & Hr & Hrd).
    exists r. split; [assumption|]. eapply Z.divide_trans; eassumption.
Qed.

(** A number all of whose prime divisors exceed its square root is
    prime. *)
Lemma prime_of_large_factors N :
  1 < N -> (forall r, Z.prime r -> (r | N) -> N < r * r) -> Z.prime N.
Proof.
  intros HN Hlarge. apply prime_of_small_divisors; [assumption|].
  intros k Hk Hkk Hdiv.
  destruct (prime_divisor k ltac:(lia) ltac:(lia)) as (r & Hr & Hrk).
  pose proof (Z.prime_ge_2 r Hr) as Hr2.
  pose proof (Z.divide_pos_le r k ltac:(lia) Hrk) as Hle.
  specialize (Hlarge r Hr (Z.divide_trans _ _ _ Hrk Hdiv)). nia.
Qed.

(** Exponents of a unit compose by their greatest common divisor. *)
Lemma pow_gcd b r : 1 < r -> forall n, 0 <= n -> forall m, 0 <= m ->
  b ^ m mod r = 1 -> b ^ n mod r = 1 -> b ^ Z.gcd m n mod r = 1.
Proof.
  intros Hr.
  apply (Zlt_0_ind (fun n => forall m, 0 <= m ->
           b ^ m mod r = 1 -> b ^ n mod r = 1 -> b ^ Z.gcd m n mod r = 1)).
  intros n IH Hn0 m Hm Hbm Hbn.
  destruct (Z.eq_dec n 0) as [->|Hne].
  - rewrite Z.gcd_0_r, Z.abs_eq by assumption. assumption.
  - pose proof (Z.mod_pos_bound m n ltac:(lia)) as Hmod.
    assert (Hrem : b ^ (m mod n) mod r = 1).
    { rewrite (Z.div_mod m n Hne) in Hbm at 1.
      assert (Hq : 0 <= m / n) by (apply Z.div_pos; lia).
      rewrite Z.pow_add_r, Z.pow_mul_r in Hbm by lia.
      rewrite <- Z.mul_mod_idemp_l, <- Z.mod_pow_l, Hbn in Hbm by lia.
      rewrite Z.pow_1_l, (Z.mod_small 1), Z.mul_1_l in Hbm by lia.
      assumption. }
    specialize (IH (m mod n) Hmod n ltac:(lia) Hbn Hrem).
    rewrite Z.gcd_comm, Z.gcd_mod, Z.gcd_comm in IH by assumption.
    assumption.
Qed.

(** The step of Pocklington: a prime factor [q] of [N - 1] that passes
    the test divides [r - 1] for every prime divisor [r] of [N]. *)
Lemma pocklington_step N q a r :
  1 < N -> Z.prime q -> (q | N - 1) -> Z.prime r -> (r | N) ->
  a ^ (N - 1) mod N = 1 ->
  Z.gcd (a ^ ((N - 1) / q) mod N - 1) N = 1 ->
  (q | r - 1).
Proof.
  intros HN Hq Hqd Hr Hrd Hpow Hgcd.
  pose proof (Z.prime_ge_2 r Hr) as Hr2.
  pose proof (Z.prime_ge_2 q Hq) as Hq2.
  set (b := a ^ ((N - 1) / q)) in *.
  assert (He : 0 <= (N - 1) / q) by (apply Z.div_pos; lia).
  assert (Hbq : b ^ q mod r = 1).
  { unfold b. rewrite <- Z.pow_mul_r by lia.
    replace ((N - 1) / q * q) with (N - 1).
    - rewrite <- (Z.mod_mod_divide _ N r Hrd), Hpow. apply Z.mod_small. lia.
    - destruct Hqd as [c Hc]. rewrite Hc, Z.div_mul by lia. reflexivity. }
  assert (Hb1 : b mod r <> 1).
  { intros Hb.
    assert (Hdiv : (r | b mod N - 1)).
    { apply Z.mod_divide; [lia|].
      rewrite <- Zminus_mod_idemp_l, (Z.mod_mod_divide _ N r Hrd), Hb.
      reflexivity. }
    pose proof (Z.gcd_greatest _ _ _ Hdiv Hrd) as Hone.
    rewrite Hgcd in Hone. apply Z.divide_1_r_nonneg in Hone; lia. }
  assert (Hb0 : b mod r <> 0).
  { intros Hb. rewrite <- Z.mod_pow_l, Hb, Z.pow_0_l, Z.mod_0_l in Hbq by lia.
    discriminate. }
  pose proof (Z.fermat_nz r b Hr Hb0) as Hfermat.
  pose proof (pow_gcd b r ltac:(lia) (r - 1) ltac:(lia) q ltac:(lia) Hbq Hfermat)
    as Hg.
  pose proof (Z.gcd_nonneg q (r - 1)) as Hg0.
  destruct (Z.divide_prime_r _ _ Hq (Z.gcd_divide_l q (r - 1)))
    as [Hc|[Hc|[Hc|Hc]]]; try lia.
  - rewrite Hc, Z.pow_1_r in Hg. contradiction.
  - rewrite <- Hc. apply Z.gcd_divide_r.
Qed.

Lemma divide_mul_coprime a b m :
  (a | m) -> (b | m) -> Z.gcd b a = 1 -> (a * b | m).
Proof.
  intros [k ->] Hb Hg. rewrite Z.mul_comm in Hb.
  apply Z.gauss in Hb; [|assumption].
  destruct Hb as [j ->]. exists j. ring.
Qed.

Lemma prime_coprime_product q (qs : list Z) :
  Z.prime q -> Forall Z.prime qs -> ~ In q qs ->
  Z.gcd q (fold_right Z.mul 1 qs) = 1.
Proof.
  intros Hq Hqs Hnin. apply Z.coprime_prime_l; [assumption|].
  induction qs as [|q' qs IH]; cbn [fold_right].
  - intros Hd. apply Z.divide_1_r_nonneg in Hd;
      pose proof (Z.prime_ge_2 q Hq); lia.
  - inversion Hqs as [|? ? Hq' Hqs']; subst.
    intros Hd. apply Z.divide_prime_mul in Hd; [|assumption].
    destruct Hd as [Hd|Hd].
    + apply Hnin. left. symmetry. apply Z.divide_prime_prime; assumption.
    + apply IH; [assumption| |assumption]. intros Hin. apply Hnin. right.
      assumption.
Qed.

Lemma product_divides (qs : list Z) m :
  Forall Z.prime qs -> List.NoDup qs -> Forall (fun q => (q | m)) qs ->
  (fold_right Z.mul 1 qs | m).
Proof.
  induction qs as [|q qs IH]; intros Hp Hnd Hdiv; cbn [fold_right].
  - apply Z.divide_1_l.
  - inversion Hp; inversion Hnd; inversion Hdiv; subst.
    apply divide_mul_coprime; [assumption|auto|].
    rewrite Z.gcd_comm. apply prime_coprime_product; assumption.
Qed.

Lemma pocklington_check_sound N q a :
  1 < N -> 0 < q -> pocklington_check N (q, a) = true ->
  (q | N - 1) /\ a ^ (N - 1) mod N = 1
  /\ Z.gcd (a ^ ((N - 1) / q) mod N - 1) N = 1.
Proof.
  intros HN Hq. unfold pocklington_check.
  destruct (0 <=? a) eqn:Ha.
  - apply Z.leb_le in Ha.
    rewrite !modPow_mod by (try apply Z.div_pos; lia).
    cbn [andb]. intros Hc.
    apply andb_true_iff in Hc. destruct Hc as [Hc Hg].
    apply andb_true_iff in Hc. destruct Hc as [Hd Hu].
    apply Z.eqb_eq in Hd, Hu, Hg.
    split; [apply Z.mod_divide; [lia|assumption]|]. split; assumption.
  - destruct (modPow a (N - 1) N); try discriminate.
    destruct (modPow a ((N - 1) / q) N); discriminate.
Qed.

(** The criterion of Pocklington, for a product of distinct primes that
    divides [N - 1] and exceeds the square root of [N]. *)
Theorem pocklington N (certificate : list (Z * Z)) :
  1 < N ->
  Forall Z.prime (map fst certificate) ->
  List.NoDup (map fst certificate) ->
  forallb (pocklington_check N) certificate = true ->
  (let F := fold_right Z.mul 1 (map fst certificate) in N <= F * F) ->
  Z.prime N.
Proof.
  intros HN Hprimes Hnd Hchecks Hsize.
  apply prime_of_large_factors; [assumption|].
  intros r Hr Hrd. pose proof (Z.prime_ge_2 r Hr) as Hr2.
  assert (Hall : Forall (fun q => (q | r - 1)) (map fst certificate)).
  { apply List.Forall_forall. intros q Hin. apply in_map_iff in Hin.
    destruct Hin as ([q' a] & <- & Hin). cbn [fst].
    assert (Hq : Z.prime q').
    { rewrite List.Forall_forall in Hprimes. apply Hprimes.
      apply in_map_iff. exists (q', a). split; [reflexivity|assumption]. }
    rewrite forallb_forall in Hchecks. specialize (Hchecks _ Hin).
    pose proof (Z.prime_ge_2 q' Hq) as Hq2.
    destruct (pocklington_check_sound N q' a HN ltac:(lia) Hchecks)
      as (Hd & Hu & Hg).
    apply (pocklington_step N q' a r); assumption. }
  pose proof (product_divides _ (r - 1) Hprimes Hnd Hall) as HF.
  apply Z.divide_pos_le in HF; [|lia].
  cbn zeta in Hsize.
  assert (HF1 : 1 <= fold_right Z.mul 1 (map fst certificate)).
  { clear -Hprimes. induction (map fst certificate) as [|q qs IH]; cbn; [lia|].
    inversion Hprimes; subst. pose proof (Z.prime_ge_2 q ltac:(assumption)).
    specialize (IH ltac:(assumption)). nia. }
  nia.
Qed.

Lemma prime_96557 : Z.prime 96557.
Proof. apply trial_division_sound. vm_compute. reflexivity. Qed.

Lemma prime_7240687 : Z.prime 7240687.
Proof. apply trial_division_sound. vm_compute. reflexivity. Qed.

Lemma prime_107590001 : Z.prime 107590001.
Proof. apply trial_division_sound. vm_compute. reflexivity. Qed.

Lemma prime_128_bits : Z.prime 255515944373312847190720520512484175977.
Proof.
  apply (pocklington _ [(96557, 2); (7240687, 2); (107590001, 2)]).
  - lia.
  - cbn [map fst].
    repeat (apply List.Forall_cons;
            [first [exact prime_96557|exact prime_7240687|exact prime_107590001]|]).
    apply List.Forall_nil.
  - cbn [map fst].
    repeat (apply List.NoDup_cons; [cbn [In]; intuition lia|]).
    apply List.NoDup_nil.
  - vm_compute. reflexivity.
  - vm_compute. discriminate.
Qed.

Lemma prime_237_bits :
  Z.prime 205115282021455665897114700593932402728804164701536103180137503955397371.
Proof.
  apply (pocklington _ [(255515944373312847190720520512484175977, 2)]).
  - lia.
  - cbn [map fst].
    apply List.Forall_cons; [exact prime_128_bits|apply List.Forall_nil].
  - cbn [map fst].
    apply List.NoDup_cons; [cbn [In]; intuition|apply List.NoDup_nil].
  - vm_compute. reflexivity.
  - vm_compute. discriminate.
Qed.

(** The field prime of secp256k1 is a prime, and of the form [4 k + 3]:
    [p - 1 = 2 * 3 * 7 * 13441 * q] for the 237-bit prime [q] above. *)
Theorem secp256k1_p_prime : Z.prime Reference.secp256k1_p.
Proof.
  apply (pocklington _
           [(205115282021455665897114700593932402728804164701536103180137503955397371,
             2)]).
  - vm_compute. reflexivity.
  - cbn [map fst].
    apply List.Forall_cons; [exact prime_237_bits|apply List.Forall_nil].
  - cbn [map fst].
    apply List.NoDup_cons; [cbn [In]; intuition|apply List.NoDup_nil].
  - vm_compute. reflexivity.
  - vm_compute. discriminate.
Qed.

Lemma secp256k1_p_3mod4 : Reference.secp256k1_p mod 4 = 3.
Proof. reflexivity. Qed.

End Primality.

(** * The claims *)

(** ** Modular exponentiation (C3) *)

(** Against C3 as stated: for the base [-2], the exponent [1] and the
    modulus [5], [modPow] returns [-2], while [(-2) ^ 1 mod 5] is [3].
    The [%] of BigInt keeps the sign of the dividend. *)
Lemma modPow_negative_base :
  PublicKeyUtils.modPow (-2) 1 5 = Ok (-2)
  /\ (-2) ^ 1 mod 5 = 3
  /\ ~ (forall base exp modulus : Z,
          0 <= exp -> 1 < modulus ->
          PublicKeyUtils.modPow base exp modulus = Ok (base ^ exp mod modulus)).
Proof.
  split; [reflexivity|]. split; [reflexivity|].
  intros Hall. specialize (Hall (-2) 1 5 ltac:(lia) ltac:(lia)).
  discriminate Hall.
Qed.

(** C3, amended: for every integer base, every non-negative exponent and
    every modulus greater than 1, [modPow] returns normally the truncating
    remainder of [base ^ exp] by the modulus (the [%] of BigInt, with the
    sign of [base ^ exp]); when the base is not negative this is
    [base ^ exp mod modulus]. *)
Theorem modPow_correct (base exp modulus : Z) :
  0 <= exp -> 1 < modulus ->
  PublicKeyUtils.modPow base exp modulus = Ok (Z.rem (base ^ exp) modulus)
  /\ (0 <= base ->
      PublicKeyUtils.modPow base exp modulus = Ok (base ^ exp mod modulus)).
Proof.
  intros He Hm. split.
  - apply modPow_rem; assumption.
  - intros Hb. apply modPow_mod; assumption.
Qed.

Lemma modPow_correct_witness :
  (0 <= 3 /\ 1 < 5)
  /\ PublicKeyUtils.modPow (-2) 3 5 = Ok (Z.rem ((-2) ^ 3) 5)
  /\ (0 <= 10 /\ 1 < 1000)
  /\ PublicKeyUtils.modPow 2 10 1000 = Ok (2 ^ 10 mod 1000).
Proof.
  split; [lia|]. split.
  - apply (modPow_correct (-2) 3 5); lia.
  - split; [lia|]. apply (modPow_correct 2 10 1000); lia.
Defined.

(** ** Point recovery (C2, C6) *)

(** C2: for every 32-byte input whose big-endian value [x] satisfies
    [0 < x < p] and for which [x ^ 3 + 7] is a quadratic residue modulo
    [p], [liftX] returns the uncompressed point [0x04 || x || y], whose
    y-coordinate is [(x ^ 3 + 7) ^ ((p + 1) / 4) mod p] and satisfies the
    curve equation [y ^ 2 = x ^ 3 + 7 (mod p)].  The constants of the
    curve are those of the imports: [p] a prime of at most 256 bits with
    [p = 3 (mod 4)] and [b = 7]. *)
Theorem liftX_on_curve `{Imports} (h : store) (xBytes : loc) (xs : list byte) :
  Z.prime CURVE_p -> CURVE_p mod 4 = 3 -> CURVE_p <= 2 ^ 256 -> CURVE_b = 7 ->
  h !! xBytes = Some xs -> length xs = 32%nat ->
  0 < be_value xs < CURVE_p ->
  (exists c, (c * c) mod CURVE_p = (be_value xs ^ 3 + 7) mod CURVE_p) ->
  exists (point : loc) (h' : store) (y : Z),
    PublicKeyUtils.liftX xBytes h = (Ok point, h')
    /\ h' !! point = Some ([x04] ++ xs ++ be_bytes 32 y)
    /\ y = (be_value xs ^ 3 + 7) ^ ((CURVE_p + 1) / 4) mod CURVE_p
    /\ 0 <= y < CURVE_p
    /\ (y * y) mod CURVE_p = (be_value xs ^ 3 + 7) mod CURVE_p.
Proof.
  intros Hprime H34 Hp Hb Hx Hlen Hrange [c Hc].
  assert (Hpos : 0 < CURVE_p) by lia.
  exists (length h), (h ++ [[x04] ++ xs ++ be_bytes 32 (lifted_y (be_value xs))]),
    (lifted_y (be_value xs)).
  split; [apply liftX_in_range; try assumption; lia|].
  split; [apply lookup_new|].
  assert (Hy : lifted_y (be_value xs)
               = (be_value xs ^ 3 + 7) ^ ((CURVE_p + 1) / 4) mod CURVE_p)
    by (unfold lifted_y; rewrite Hb; apply Z.mod_pow_l).
  split; [exact Hy|]. rewrite Hy.
  split; [apply Z.mod_pos_bound; assumption|].
  apply (sqrt_of_square CURVE_p Hprime H34 (be_value xs ^ 3 + 7) c).
  symmetry. exact Hc.
Qed.

(** The x-coordinate of the generator of secp256k1, lifted. *)
Lemma liftX_on_curve_witness :
  let xs := be_bytes 32 Reference.secp256k1_Gx in
  let h : store := [xs] in
  (h !! 0%nat = Some xs /\ length xs = 32%nat
   /\ 0 < be_value xs < Reference.secp256k1_p
   /\ (Reference.secp256k1_Gy * Reference.secp256k1_Gy) mod Reference.secp256k1_p
      = (be_value xs ^ 3 + 7) mod Reference.secp256k1_p)
  /\ exists (point : loc) (h' : store) (y : Z),
       @PublicKeyUtils.liftX Reference.secp256k1 0%nat h = (Ok point, h')
       /\ h' !! point = Some ([x04] ++ xs ++ be_bytes 32 y)
       /\ y = (be_value xs ^ 3 + 7) ^ ((Reference.secp256k1_p + 1) / 4)
              mod Reference.secp256k1_p
       /\ 0 <= y < Reference.secp256k1_p
       /\ (y * y) mod Reference.secp256k1_p
          = (be_value xs ^ 3 + 7) mod Reference.secp256k1_p.
Proof.
  intros xs h.
  assert (Hrange : 0 < be_value xs < Reference.secp256k1_p)
    by (split; vm_compute; reflexivity).
  assert (Hsquare :
            (Reference.secp256k1_Gy * Reference.secp256k1_Gy)
              mod Reference.secp256k1_p
            = (be_value xs ^ 3 + 7) mod Reference.secp256k1_p)
    by (vm_compute; reflexivity).
  split.
  - split; [reflexivity|]. split; [reflexivity|]. split; assumption.
  - apply (@liftX_on_curve Reference.secp256k1 h 0%nat xs).
    + exact secp256k1_p_prime.
    + reflexivity.
    + vm_compute. discriminate.
    + reflexivity.
    + reflexivity.
    + reflexivity.
    + exact Hrange.
    + exists Reference.secp256k1_Gy. exact Hsquare.
Defined.

(** C6: [liftX] throws its error ([LIFT_X_ERROR]) for every input whose
    length is not 32 bytes and for every 32-byte input whose big-endian
    value [x] is [0] or at least [p]; for every [x] in range it returns a
    new 65-byte array whose first byte is [0x04] and whose bytes 1..33 are
    the input.  The last part is for a field prime of at most 256 bits and
    a curve constant that is not negative. *)
Theorem liftX_range_check `{Imports} (h : store) (xBytes : loc) (xs : list byte) :
  h !! xBytes = Some xs ->
  (length xs <> 32%nat ->
   PublicKeyUtils.liftX xBytes h = (Throw liftX_length_error, h))
  /\ (length xs = 32%nat -> be_value xs = 0 \/ CURVE_p <= be_value xs ->
      PublicKeyUtils.liftX xBytes h = (Throw liftX_range_error, h))
  /\ (length xs = 32%nat -> 0 < be_value xs < CURVE_p ->
      CURVE_p <= 2 ^ 256 -> 0 <= CURVE_b ->
      exists (point : loc) (h' : store) (out : list byte),
        PublicKeyUtils.liftX xBytes h = (Ok point, h')
        /\ h' !! point = Some out
        /\ length out = 65%nat
        /\ out !! 0%nat = Some x04
        /\ take 32 (drop 1 out) = xs).
Proof.
  intros Hx. split; [|split].
  - intros Hlen. apply (liftX_wrong_length h xBytes xs); assumption.
  - intros Hlen Hrange. apply (liftX_out_of_range h xBytes xs); assumption.
  - intros Hlen Hrange Hp Hb.
    exists (length h), (h ++ [[x04] ++ xs ++ be_bytes 32 (lifted_y (be_value xs))]),
      ([x04] ++ xs ++ be_bytes 32 (lifted_y (be_value xs))).
    split; [apply liftX_in_range; assumption|].
    split; [apply lookup_new|].
    split; [rewrite !length_app, be_bytes_length, Hlen; reflexivity|].
    split; [reflexivity|].
    change (take 32 (xs ++ be_bytes 32 (lifted_y (be_value xs))) = xs).
    apply take_app_length'. symmetry. assumption.
Qed.

Lemma liftX_range_check_witness :
  let short : list byte := repeat x01 31 in
  let zero : list byte := repeat x00 32 in
  let large : list byte := repeat xff 32 in
  let good : list byte := be_bytes 32 Reference.secp256k1_Gx in
  let h : store := [short; zero; large; good] in
  (h !! 0%nat = Some short /\ length short <> 32%nat
   /\ @PublicKeyUtils.liftX Reference.secp256k1 0%nat h
      = (Throw liftX_length_error, h))
  /\ (h !! 1%nat = Some zero /\ length zero = 32%nat /\ be_value zero = 0
      /\ @PublicKeyUtils.liftX Reference.secp256k1 1%nat h
         = (Throw liftX_range_error, h))
  /\ (h !! 2%nat = Some large /\ length large = 32%nat
      /\ Reference.secp256k1_p <= be_value large
      /\ @PublicKeyUtils.liftX Reference.secp256k1 2%nat h
         = (Throw liftX_range_error, h))
  /\ (h !! 3%nat = Some good /\ length good = 32%nat
      /\ 0 < be_value good < Reference.secp256k1_p
      /\ exists (point : loc) (h' : store) (out : list byte),
           @PublicKeyUtils.liftX Reference.secp256k1 3%nat h = (Ok point, h')
           /\ h' !! point = Some out
           /\ length out = 65%nat
           /\ out !! 0%nat = Some x04
           /\ take 32 (drop 1 out) = good).
Proof.
  intros short zero large good h.
  assert (Hlarge : Reference.secp256k1_p <= be_value large)
    by (vm_compute; discriminate).
  assert (Hgood : 0 < be_value good < Reference.secp256k1_p)
    by (split; vm_compute; reflexivity).
  split; [|split; [|split]].
  - split; [reflexivity|]. split; [cbn; lia|].
    apply (@liftX_range_check Reference.secp256k1 h 0%nat short); [reflexivity|].
    cbn. lia.
  - split; [reflexivity|]. split; [reflexivity|]. split; [reflexivity|].
    apply (@liftX_range_check Reference.secp256k1 h 1%nat zero);
      [reflexivity|reflexivity|left; reflexivity].
  - split; [reflexivity|]. split; [reflexivity|]. split; [exact Hlarge|].
    apply (@liftX_range_check Reference.secp256k1 h 2%nat large);
      [reflexivity|reflexivity|right; exact Hlarge].
  - split; [reflexivity|]. split; [reflexivity|]. split; [exact Hgood|].
    apply (@liftX_range_check Reference.secp256k1 h 3%nat good);
      [reflexivity|reflexivity|exact Hgood|vm_compute; discriminate|cbn; lia].
Defined.

(** ** The [PublicKey] constructor (C8, C5) *)

(** C8: constructing a [PublicKey] from an array of any length other than
    32 and 33 throws the constructor error
    ([PUBLIC_KEY_CONSTRUCTOR_ERROR]); a 32-byte input is normalised to 33
    bytes by prepending [0x02]; a 33-byte input is accepted. *)
Theorem PublicKey_constructor_lengths (h : store) (input : loc)
    (contents : list byte) :
  h !! input = Some contents ->
  (length contents <> 32%nat -> length contents <> 33%nat ->
   PublicKey.constructor input h = (Throw constructor_error, h))
  /\ (length contents = 32%nat ->
      exists (pk : PublicKey.t) (h' : store),
        PublicKey.constructor input h = (Ok pk, h')
        /\ h' !! PublicKey._bytes pk = Some ([x02] ++ contents)
        /\ length ([x02] ++ contents) = 33%nat)
  /\ (length contents = 33%nat ->
      exists pk : PublicKey.t,
        PublicKey.constructor input h = (Ok pk, h)
        /\ h !! PublicKey._bytes pk = Some contents).
Proof.
  intros Hin. split; [|split].
  - intros H32 H33. apply (PublicKey_constructor_wrong_length h input contents);
      assumption.
  - intros H32. exists {| PublicKey._bytes := length h |}, (h ++ [[x02] ++ contents]).
    split; [apply (PublicKey_constructor_32 h input contents); assumption|].
    split; [apply lookup_new|]. cbn [length app]. rewrite H32. reflexivity.
  - intros H33. exists {| PublicKey._bytes := input |}.
    split; [apply (PublicKey_constructor_33 h input contents); assumption|exact Hin].
Qed.

Lemma PublicKey_constructor_lengths_witness :
  let empty : list byte := [] in
  let long : list byte := repeat x07 34 in
  let xonly : list byte := repeat x07 32 in
  let compressed : list byte := x03 :: repeat x07 32 in
  let h : store := [empty; long; xonly; compressed] in
  (h !! 0%nat = Some empty /\ length empty <> 32%nat /\ length empty <> 33%nat
   /\ PublicKey.constructor 0%nat h = (Throw constructor_error, h))
  /\ (h !! 1%nat = Some long /\ length long <> 32%nat /\ length long <> 33%nat
      /\ PublicKey.constructor 1%nat h = (Throw constructor_error, h))
  /\ (h !! 2%nat = Some xonly /\ length xonly = 32%nat
      /\ exists (pk : PublicKey.t) (h' : store),
           PublicKey.constructor 2%nat h = (Ok pk, h')
           /\ h' !! PublicKey._bytes pk = Some ([x02] ++ xonly)
           /\ length ([x02] ++ xonly) = 33%nat)
  /\ (h !! 3%nat = Some compressed /\ length compressed = 33%nat
      /\ exists pk : PublicKey.t,
           PublicKey.constructor 3%nat h = (Ok pk, h)
           /\ h !! PublicKey._bytes pk = Some compressed).
Proof.
  intros empty long xonly compressed h.
  split; [|split; [|split]].
  - split; [reflexivity|]. split; [cbn; lia|]. split; [cbn; lia|].
    apply (PublicKey_constructor_lengths h 0%nat empty); [reflexivity| |]; cbn; lia.
  - split; [reflexivity|]. split; [cbn; lia|]. split; [cbn; lia|].
    apply (PublicKey_constructor_lengths h 1%nat long); [reflexivity| |]; cbn; lia.
  - split; [reflexivity|]. split; [reflexivity|].
    apply (PublicKey_constructor_lengths h 2%nat xonly); reflexivity.
  - split; [reflexivity|]. split; [reflexivity|].
    apply (PublicKey_constructor_lengths h 3%nat compressed); reflexivity.
Defined.

(** Against C5 as stated: the constructor accepts the 33 bytes
    [0x04, 0, ..., 0], and the parity accessor of the key then returns
    [0x04], neither [0x02] nor [0x03]. *)
Lemma parity_byte_unchecked :
  let h : store := [x04 :: repeat x00 32] in
  let pk := {| PublicKey._bytes := 0%nat |} in
  PublicKey.constructor 0%nat h = (Ok pk, h)
  /\ fst (PublicKey.parity pk h) = Ok (Some x04)
  /\ ~ (forall (h0 h' : store) (input : loc) (k : PublicKey.t),
          PublicKey.constructor input h0 = (Ok k, h') ->
          exists (stored : list byte) (first : byte),
            h' !! PublicKey._bytes k = Some stored
            /\ length stored = 33%nat
            /\ fst (PublicKey.parity k h') = Ok (Some first)
            /\ (first = x02 \/ first = x03)).
Proof.
  intros h pk. split; [reflexivity|]. split; [reflexivity|].
  intros Hall.
  destruct (Hall h h 0%nat pk eq_refl) as (stored & first & _ & _ & Hpar & Hfirst).
  cbn in Hpar. injection Hpar as <-.
  destruct Hfirst; discriminate.
Qed.

(** C5, amended: every successfully constructed [PublicKey] stores a
    33-byte array whose first byte is the value of the parity accessor;
    that byte is [0x02] when the input had 32 bytes, and is the first byte
    of the input, whatever it is, when the input had 33 bytes, the input
    then being stored as it is. *)
Theorem PublicKey_stored_encoding (h h' : store) (input : loc) (pk : PublicKey.t) :
  PublicKey.constructor input h = (Ok pk, h') ->
  exists (contents stored : list byte) (first : byte),
    h !! input = Some contents
    /\ h' !! PublicKey._bytes pk = Some stored
    /\ length stored = 33%nat
    /\ stored !! 0%nat = Some first
    /\ fst (PublicKey.parity pk h') = Ok (Some first)
    /\ ((length contents = 32%nat /\ stored = [x02] ++ contents /\ first = x02)
        \/ (length contents = 33%nat /\ stored = contents
            /\ PublicKey._bytes pk = input)).
Proof.
  intros Hc. destruct (PublicKey_constructor_Ok _ _ _ _ Hc)
    as (contents & Hin & [(H32 & -> & ->)|(H33 & -> & ->)]).
  - exists contents, ([x02] ++ contents), x02.
    assert (Hst : (h ++ [[x02] ++ contents]) !! length h = Some ([x02] ++ contents))
      by apply lookup_new.
    split; [assumption|]. split; [exact Hst|].
    split; [cbn [length app]; rewrite H32; reflexivity|].
    split; [reflexivity|].
    split; [rewrite (PublicKey_parity_run _ {| PublicKey._bytes := length h |} _ Hst);
            reflexivity|].
    left. auto.
  - destruct contents as [|first rest]; [discriminate|].
    exists (first :: rest), (first :: rest), first.
    split; [assumption|]. split; [assumption|]. split; [assumption|].
    split; [reflexivity|].
    split; [rewrite (PublicKey_parity_run _ {| PublicKey._bytes := input |} _ Hin);
            reflexivity|].
    right. auto.
Qed.

Lemma PublicKey_stored_encoding_witness :
  let xonly : list byte := repeat x07 32 in
  let odd : list byte := x03 :: repeat x07 32 in
  let h : store := [xonly; odd] in
  (PublicKey.constructor 0%nat h
   = (Ok {| PublicKey._bytes := 2%nat |}, h ++ [[x02] ++ xonly])
   /\ exists (contents stored : list byte) (first : byte),
        h !! 0%nat = Some contents
        /\ (h ++ [[x02] ++ xonly]) !! 2%nat = Some stored
        /\ length stored = 33%nat
        /\ stored !! 0%nat = Some first
        /\ fst (PublicKey.parity {| PublicKey._bytes := 2%nat |}
                  (h ++ [[x02] ++ xonly])) = Ok (Some first)
        /\ ((length contents = 32%nat /\ stored = [x02] ++ contents
             /\ first = x02)
            \/ (length contents = 33%nat /\ stored = contents
                /\ 2%nat = 0%nat)))
  /\ (PublicKey.constructor 1%nat h = (Ok {| PublicKey._bytes := 1%nat |}, h)
      /\ exists (contents stored : list byte) (first : byte),
           h !! 1%nat = Some contents
           /\ h !! 1%nat = Some stored
           /\ length stored = 33%nat
           /\ stored !! 0%nat = Some first
           /\ fst (PublicKey.parity {| PublicKey._bytes := 1%nat |} h)
              = Ok (Some first)
           /\ ((length contents = 32%nat /\ stored = [x02] ++ contents
                /\ first = x02)
               \/ (length contents = 33%nat /\ stored = contents
                   /\ 1%nat = 1%nat))).
Proof.
  intros xonly odd h. split.
  - split; [reflexivity|].
    apply (PublicKey_stored_encoding h (h ++ [[x02] ++ xonly]) 0%nat
             {| PublicKey._bytes := 2%nat |}).
    reflexivity.
  - split; [reflexivity|].
    apply (PublicKey_stored_encoding h h 1%nat {| PublicKey._bytes := 1%nat |}).
    reflexivity.
Defined.

(** ** The multikey wire format (C4, C7) *)

(** C4: for every 32-byte x-only public key [x], decoding the multikey
    string that encoding [PublicKey(x)] produces succeeds and yields
    exactly the 34 bytes made of the fixed 2-byte prefix followed by [x].
    The imports are as the specification describes them: the prefix has 2
    bytes, the expected digest is the SHA-256 of the prefix in
    hexadecimal, and the base-58 decoder inverts the encoder on that
    payload. *)
Theorem multikey_round_trip `{Imports} (h : store) (input : loc) (xs : list byte) :
  length BIP340_MULTIKEY_PREFIX = 2%nat ->
  Buffer_toString_hex (sha256 BIP340_MULTIKEY_PREFIX) = BIP340_MULTIKEY_PREFIX_HASH ->
  base58btc_decode (base58btc_encode (BIP340_MULTIKEY_PREFIX ++ xs))
  = Ok (BIP340_MULTIKEY_PREFIX ++ xs) ->
  h !! input = Some xs -> length xs = 32%nat ->
  exists (pk : PublicKey.t) (h1 : store),
    PublicKey.constructor input h = (Ok pk, h1)
    /\ fst (PublicKey.encode pk h1)
       = Ok (base58btc_encode (BIP340_MULTIKEY_PREFIX ++ xs))
    /\ returned (PublicKey.decode pk) h1 = Some (BIP340_MULTIKEY_PREFIX ++ xs)
    /\ length (BIP340_MULTIKEY_PREFIX ++ xs) = 34%nat.
Proof.
  intros Hprefix Hhash Hcodec Hin Hlen.
  set (pk := {| PublicKey._bytes := length h |}).
  set (h1 := h ++ [[x02] ++ xs]).
  assert (Hst : h1 !! PublicKey._bytes pk = Some ([x02] ++ xs)) by apply lookup_new.
  assert (Hx : take 32 (drop 1 ([x02] ++ xs)) = xs).
  { change (take 32 xs = xs). apply take_ge. lia. }
  pose proof (encode_run h1 pk ([x02] ++ xs) Hst
                ltac:(cbn [length app]; lia)) as Henc.
  cbn zeta in Henc. rewrite Hx in Henc.
  assert (Hsize : length (BIP340_MULTIKEY_PREFIX ++ xs) = 34%nat)
    by (rewrite length_app, Hprefix, Hlen; reflexivity).
  exists pk, h1.
  split; [apply (PublicKey_constructor_32 h input xs); assumption|].
  split; [rewrite Henc; reflexivity|]. split; [|exact Hsize].
  unfold returned.
  rewrite (decode_run h1 _ pk _ _ Henc Hcodec).
  rewrite Hsize. cbn [Nat.eqb negb].
  rewrite take_app_length' by (symmetry; exact Hprefix).
  rewrite Hhash, String.eqb_refl. cbn [negb].
  apply lookup_new.
Qed.

(** The x-coordinate of the generator, under the reference imports. *)
Lemma multikey_round_trip_witness :
  let xs := be_bytes 32 Reference.secp256k1_Gx in
  let h : store := [xs] in
  (length Reference.prefix = 2%nat
   /\ Buffer_toString_hex (Reference.sha256 Reference.prefix) = Reference.prefixHash
   /\ Reference.base58btc_decode (Reference.base58btc_encode (Reference.prefix ++ xs))
      = Ok (Reference.prefix ++ xs)
   /\ h !! 0%nat = Some xs /\ length xs = 32%nat)
  /\ exists (pk : PublicKey.t) (h1 : store),
       PublicKey.constructor 0%nat h = (Ok pk, h1)
       /\ fst (@PublicKey.encode Reference.secp256k1 pk h1)
          = Ok (Reference.base58btc_encode (Reference.prefix ++ xs))
       /\ returned (@PublicKey.decode Reference.secp256k1 pk) h1
          = Some (Reference.prefix ++ xs)
       /\ length (Reference.prefix ++ xs) = 34%nat.
Proof.
  intros xs h.
  assert (Hcodec :
            Reference.base58btc_decode
              (Reference.base58btc_encode (Reference.prefix ++ xs))
            = Ok (Reference.prefix ++ xs)) by (vm_compute; reflexivity).
  split.
  - split; [reflexivity|]. split; [vm_compute; reflexivity|].
    split; [exact Hcodec|]. split; reflexivity.
  - apply (@multikey_round_trip Reference.secp256k1 h 0%nat xs).
    + reflexivity.
    + vm_compute. reflexivity.
    + exact Hcodec.
    + reflexivity.
    + reflexivity.
Defined.

(** C7: [decode] throws its error ([DECODE_PUBLIC_KEY_ERROR]) whenever the
    payload the base-58 decoder returns does not have exactly 34 bytes,
    and throws it with the message on the malformed prefix whenever the
    SHA-256 of the first 2 bytes of a 34-byte payload, in hexadecimal,
    differs from the expected digest, whatever the other 32 bytes are. *)
Theorem decode_rejects `{Imports} (h h1 : store) (pk : PublicKey.t)
    (encoded : string) (payload : list byte) :
  PublicKey.multibase pk h = (Ok encoded, h1) ->
  base58btc_decode encoded = Ok payload ->
  (length payload <> 34%nat ->
   fst (PublicKey.decode pk h) = Throw decode_length_error)
  /\ (length payload = 34%nat ->
      Buffer_toString_hex (sha256 (take 2 payload)) <> BIP340_MULTIKEY_PREFIX_HASH ->
      fst (PublicKey.decode pk h) = Throw (decode_prefix_error (take 2 payload))).
Proof.
  intros Hm Hd. rewrite (decode_run h h1 pk encoded payload Hm Hd). cbn [fst].
  split.
  - intros Hlen. apply Nat.eqb_neq in Hlen. rewrite Hlen. reflexivity.
  - intros Hlen Hhash. rewrite Hlen. cbn [Nat.eqb negb].
    apply String.eqb_neq in Hhash. rewrite Hhash. reflexivity.
Qed.

(** A constants module with a 3-byte prefix makes the payload 35 bytes
    long; one with another digest makes the prefix check fail. *)
Lemma decode_rejects_witness :
  let long := Reference.imports [xe1; x4a; x00] Reference.prefixHash in
  let other := Reference.imports Reference.prefix "00" in
  let h : store := [x02 :: be_bytes 32 Reference.secp256k1_Gx] in
  let pk := {| PublicKey._bytes := 0%nat |} in
  (exists (encoded : string) (h1 : store) (payload : list byte),
     @PublicKey.multibase long pk h = (Ok encoded, h1)
     /\ Reference.base58btc_decode encoded = Ok payload
     /\ length payload <> 34%nat
     /\ fst (@PublicKey.decode long pk h) = Throw decode_length_error)
  /\ (exists (encoded : string) (h1 : store) (payload : list byte),
        @PublicKey.multibase other pk h = (Ok encoded, h1)
        /\ Reference.base58btc_decode encoded = Ok payload
        /\ length payload = 34%nat
        /\ Buffer_toString_hex (Reference.sha256 (take 2 payload)) <> "00"%string
        /\ fst (@PublicKey.decode other pk h)
           = Throw (decode_prefix_error (take 2 payload))).
Proof.
  intros long other h pk. split.
  - set (payload := [xe1; x4a; x00] ++ be_bytes 32 Reference.secp256k1_Gx).
    exists (Reference.base58btc_encode payload), (snd (@PublicKey.multibase long pk h)),
      payload.
    assert (Hm : @PublicKey.multibase long pk h
                 = (Ok (Reference.base58btc_encode payload),
                    snd (@PublicKey.multibase long pk h)))
      by (vm_compute; reflexivity).
    assert (Hd : Reference.base58btc_decode (Reference.base58btc_encode payload)
                 = Ok payload) by (vm_compute; reflexivity).
    assert (Hlen : length payload <> 34%nat) by (vm_compute; discriminate).
    split; [exact Hm|]. split; [exact Hd|]. split; [exact Hlen|].
    apply (proj1 (@decode_rejects long h _ pk _ payload Hm Hd)). exact Hlen.
  - set (payload := Reference.prefix ++ be_bytes 32 Reference.secp256k1_Gx).
    exists (Reference.base58btc_encode payload), (snd (@PublicKey.multibase other pk h)),
      payload.
    assert (Hm : @PublicKey.multibase other pk h
                 = (Ok (Reference.base58btc_encode payload),
                    snd (@PublicKey.multibase other pk h)))
      by (vm_compute; reflexivity).
    assert (Hd : Reference.base58btc_decode (Reference.base58btc_encode payload)
                 = Ok payload) by (vm_compute; reflexivity).
    assert (Hlen : length payload = 34%nat) by reflexivity.
    assert (Hhash : Buffer_toString_hex (Reference.sha256 (take 2 payload))
                    <> "00"%string) by (vm_compute; discriminate).
    split; [exact Hm|]. split; [exact Hd|]. split; [exact Hlen|].
    split; [exact Hhash|].
    apply (proj2 (@decode_rejects other h _ pk _ payload Hm Hd)); assumption.
Defined.

(** ** Who owns the byte arrays (C9, C10) *)

Section Ownership.

Lemma returned_PublicKey_bytes (h : store) (pk : PublicKey.t) (c : list byte) :
  h !! PublicKey._bytes pk = Some c ->
  returned (PublicKey.bytes pk) h = Some c.
Proof.
  intros Hb. unfold returned. rewrite (PublicKey_bytes_run _ _ _ Hb).
  apply lookup_new.
Qed.

Lemma returned_PublicKey_x (h : store) (pk : PublicKey.t) (c : list byte) :
  h !! PublicKey._bytes pk = Some c ->
  returned (PublicKey.x pk) h = Some (take 32 (drop 1 c)).
Proof.
  intros Hb. unfold returned. rewrite (PublicKey_x_run _ _ _ Hb).
  replace (S (length h)) with (length (h ++ [c]))
    by (rewrite length_app; cbn; lia).
  apply lookup_new.
Qed.

Lemma returned_PrivateKey_bytes (h : store) (sk : PrivateKey.t) (r0 : loc)
    (c : list byte) :
  PrivateKey._bytes sk = VUint8Array r0 -> h !! r0 = Some c ->
  returned (PrivateKey.bytes sk) h = Some c.
Proof.
  intros Hf Hb. unfold returned. rewrite (PrivateKey_bytes_run _ _ _ _ Hf Hb).
  apply lookup_new.
Qed.

(** Mutating an array allocated after [r0] leaves [r0] alone. *)
Lemma lookup_mutate_later (h : store) (later : list (list byte)) (r r0 : loc)
    (c : list byte) f :
  h !! r0 = Some c -> (length h <= r)%nat ->
  mutate r f (h ++ later) !! r0 = Some c.
Proof.
  intros Hr0 Hr. pose proof (lookup_lt_Some _ _ _ Hr0) as Hlt.
  rewrite lookup_mutate_ne by lia. apply lookup_app_l_Some. assumption.
Qed.

End Ownership.

(** C9: a byte array returned by [PrivateKey.bytes], [PublicKey.bytes] or
    [PublicKey.x] is a copy.  Whatever is done to its contents through the
    returned reference, the array the key holds is unchanged and the next
    call of the same getter returns the bytes the first call returned. *)
Theorem getters_return_copies (f : list byte -> list byte) :
  (forall (sk : PrivateKey.t) (h h1 : store) (r : loc) (c : list byte),
     PrivateKey.bytes sk h = (Ok r, h1) -> h1 !! r = Some c ->
     returned (PrivateKey.bytes sk) (mutate r f h1) = Some c
     /\ forall r0, PrivateKey._bytes sk = VUint8Array r0 ->
                   mutate r f h1 !! r0 = h !! r0)
  /\ (forall (pk : PublicKey.t) (h h1 : store) (r : loc) (c : list byte),
        PublicKey.bytes pk h = (Ok r, h1) -> h1 !! r = Some c ->
        returned (PublicKey.bytes pk) (mutate r f h1) = Some c
        /\ mutate r f h1 !! PublicKey._bytes pk = h !! PublicKey._bytes pk)
  /\ (forall (pk : PublicKey.t) (h h1 : store) (r : loc) (c : list byte),
        PublicKey.x pk h = (Ok r, h1) -> h1 !! r = Some c ->
        returned (PublicKey.x pk) (mutate r f h1) = Some c
        /\ mutate r f h1 !! PublicKey._bytes pk = h !! PublicKey._bytes pk).
Proof.
  split; [|split].
  - intros sk h h1 r c Hcall Hc.
    destruct (PrivateKey_bytes_Ok _ _ _ _ Hcall) as (r0 & c0 & Hf & Hr0 & -> & ->).
    rewrite lookup_new in Hc. injection Hc as <-.
    pose proof (lookup_mutate_later h [c0] (length h) r0 c0 f Hr0 ltac:(lia)) as Hkept.
    split.
    + apply (returned_PrivateKey_bytes _ sk r0 c0); assumption.
    + intros r0' Hf'. rewrite Hf in Hf'. injection Hf' as <-.
      rewrite Hkept, Hr0. reflexivity.
  - intros pk h h1 r c Hcall Hc.
    destruct (PublicKey_bytes_Ok _ _ _ _ Hcall) as (c0 & Hr0 & -> & ->).
    rewrite lookup_new in Hc. injection Hc as <-.
    pose proof (lookup_mutate_later h [c0] (length h) _ c0 f Hr0 ltac:(lia)) as Hkept.
    split.
    + apply returned_PublicKey_bytes. assumption.
    + rewrite Hkept, Hr0. reflexivity.
  - intros pk h h1 r c Hcall Hc.
    destruct (PublicKey_x_Ok _ _ _ _ Hcall) as (c0 & Hr0 & -> & ->).
    replace (S (length h)) with (length (h ++ [c0])) in Hc
      by (rewrite length_app; cbn; lia).
    rewrite lookup_new in Hc. injection Hc as <-.
    rewrite <- app_assoc.
    pose proof (lookup_mutate_later h ([c0] ++ [take 32 (drop 1 c0)])
                  (S (length h)) _ c0 f Hr0 ltac:(lia)) as Hkept.
    split.
    + apply returned_PublicKey_x. assumption.
    + rewrite Hkept, Hr0. reflexivity.
Qed.

(** Overwriting every byte of the returned copies with [0xff]. *)
Lemma getters_return_copies_witness :
  let f : list byte -> list byte := fun c => repeat xff (length c) in
  let secret : list byte := repeat x01 32 in
  let point : list byte := x02 :: repeat x07 32 in
  let h : store := [secret; point] in
  let sk := {| PrivateKey._bytes := VUint8Array 0%nat;
               PrivateKey._secret := VUint8Array 0%nat |} in
  let pk := {| PublicKey._bytes := 1%nat |} in
  (PrivateKey.bytes sk h = (Ok 2%nat, h ++ [secret])
   /\ (h ++ [secret]) !! 2%nat = Some secret
   /\ returned (PrivateKey.bytes sk) (mutate 2%nat f (h ++ [secret])) = Some secret)
  /\ (PublicKey.bytes pk h = (Ok 2%nat, h ++ [point])
      /\ (h ++ [point]) !! 2%nat = Some point
      /\ returned (PublicKey.bytes pk) (mutate 2%nat f (h ++ [point])) = Some point)
  /\ (PublicKey.x pk h = (Ok 3%nat, h ++ [point; repeat x07 32])
      /\ (h ++ [point; repeat x07 32]) !! 3%nat = Some (repeat x07 32)
      /\ returned (PublicKey.x pk) (mutate 3%nat f (h ++ [point; repeat x07 32]))
         = Some (repeat x07 32)).
Proof.
  intros f secret point h sk pk.
  destruct (getters_return_copies f) as (Hsk & Hpk & Hx).
  split; [|split].
  - split; [reflexivity|]. split; [reflexivity|].
    apply (Hsk sk h (h ++ [secret]) 2%nat secret); reflexivity.
  - split; [reflexivity|]. split; [reflexivity|].
    apply (Hpk pk h (h ++ [point]) 2%nat point); reflexivity.
  - split; [reflexivity|]. split; [reflexivity|].
    apply (Hx pk h (h ++ [point; repeat x07 32]) 3%nat (repeat x07 32));
      reflexivity.
Defined.

(** C10: a 33-byte input is stored by reference.  After any change of the
    caller's array, the [bytes], [x] and [parity] accessors of the key
    return the changed bytes; for the input [0x02, 7, ..., 7] overwritten
    with [0xff] all three results differ from those before.  A 32-byte
    input goes into a new array, and changing the caller's array changes
    nothing. *)
Theorem constructor_keeps_33_byte_input (f : list byte -> list byte) :
  (forall (h : store) (input : loc) (c : list byte),
     h !! input = Some c -> length c = 33%nat ->
     exists pk : PublicKey.t,
       PublicKey.constructor input h = (Ok pk, h)
       /\ PublicKey._bytes pk = input
       /\ returned (PublicKey.bytes pk) (mutate input f h) = Some (f c)
       /\ returned (PublicKey.x pk) (mutate input f h) = Some (take 32 (drop 1 (f c)))
       /\ fst (PublicKey.parity pk (mutate input f h)) = Ok (f c !! 0%nat))
  /\ (exists (h : store) (input : loc) (pk : PublicKey.t)
             (g : list byte -> list byte),
        PublicKey.constructor input h = (Ok pk, h)
        /\ (exists c, h !! input = Some c /\ length c = 33%nat)
        /\ returned (PublicKey.bytes pk) (mutate input g h)
           <> returned (PublicKey.bytes pk) h
        /\ returned (PublicKey.x pk) (mutate input g h)
           <> returned (PublicKey.x pk) h
        /\ fst (PublicKey.parity pk (mutate input g h))
           <> fst (PublicKey.parity pk h))
  /\ (forall (h : store) (input : loc) (c : list byte),
        h !! input = Some c -> length c = 32%nat ->
        exists (pk : PublicKey.t) (h1 : store),
          PublicKey.constructor input h = (Ok pk, h1)
          /\ PublicKey._bytes pk <> input
          /\ returned (PublicKey.bytes pk) (mutate input f h1) = Some ([x02] ++ c)
          /\ returned (PublicKey.x pk) (mutate input f h1) = Some c
          /\ fst (PublicKey.parity pk (mutate input f h1)) = Ok (Some x02)).
Proof.
  split; [|split].
  - intros h input c Hin Hlen.
    exists {| PublicKey._bytes := input |}.
    assert (Hm : mutate input f h !! input = Some (f c))
      by (rewrite lookup_mutate_eq, Hin; reflexivity).
    split; [apply (PublicKey_constructor_33 h input c); assumption|].
    split; [reflexivity|].
    split; [apply returned_PublicKey_bytes; exact Hm|].
    split; [apply returned_PublicKey_x; exact Hm|].
    rewrite (PublicKey_parity_run _ {| PublicKey._bytes := input |} _ Hm).
    reflexivity.
  - exists [x02 :: repeat x07 32], 0%nat, {| PublicKey._bytes := 0%nat |},
      (fun c => repeat xff (length c)).
    split; [reflexivity|].
    split; [exists (x02 :: repeat x07 32); split; reflexivity|].
    split; [|split]; vm_compute; discriminate.
  - intros h input c Hin Hlen.
    pose proof (lookup_lt_Some _ _ _ Hin) as Hlt.
    exists {| PublicKey._bytes := length h |}, (h ++ [[x02] ++ c]).
    assert (Hm : mutate input f (h ++ [[x02] ++ c]) !! length h = Some ([x02] ++ c))
      by (rewrite lookup_mutate_ne by lia; apply lookup_new).
    split; [apply (PublicKey_constructor_32 h input c); assumption|].
    split; [cbn; lia|].
    split; [apply returned_PublicKey_bytes; exact Hm|].
    split.
    + rewrite (returned_PublicKey_x _ {| PublicKey._bytes := length h |} _ Hm).
      change (Some (take 32 c) = Some c). rewrite take_ge by lia. reflexivity.
    + rewrite (PublicKey_parity_run _ {| PublicKey._bytes := length h |} _ Hm).
      reflexivity.
Qed.

(** The caller sets the parity byte of its own array to [0x03]. *)
Lemma constructor_keeps_33_byte_input_witness :
  let f : list byte -> list byte := <[0%nat := x03]> in
  let compressed : list byte := x02 :: repeat x07 32 in
  let xonly : list byte := repeat x07 32 in
  let h : store := [compressed; xonly] in
  (h !! 0%nat = Some compressed /\ length compressed = 33%nat
   /\ exists pk : PublicKey.t,
        PublicKey.constructor 0%nat h = (Ok pk, h)
        /\ PublicKey._bytes pk = 0%nat
        /\ returned (PublicKey.bytes pk) (mutate 0%nat f h) = Some (f compressed)
        /\ returned (PublicKey.x pk) (mutate 0%nat f h)
           = Some (take 32 (drop 1 (f compressed)))
        /\ fst (PublicKey.parity pk (mutate 0%nat f h)) = Ok (f compressed !! 0%nat))
  /\ (h !! 1%nat = Some xonly /\ length xonly = 32%nat
      /\ exists (pk : PublicKey.t) (h1 : store),
           PublicKey.constructor 1%nat h = (Ok pk, h1)
           /\ PublicKey._bytes pk <> 1%nat
           /\ returned (PublicKey.bytes pk) (mutate 1%nat f h1) = Some ([x02] ++ xonly)
           /\ returned (PublicKey.x pk) (mutate 1%nat f h1) = Some xonly
           /\ fst (PublicKey.parity pk (mutate 1%nat f h1)) = Ok (Some x02)).
Proof.
  intros f compressed xonly h.
  destruct (constructor_keeps_33_byte_input f) as (H33 & _ & H32).
  split.
  - split; [reflexivity|]. split; [reflexivity|].
    apply (H33 h 0%nat compressed); reflexivity.
  - split; [reflexivity|]. split; [reflexivity|].
    apply (H32 h 1%nat xonly); reflexivity.
Defined.

(** ** A [PrivateKey] from a secret (C1) *)

(** The conversions [PrivateKeyUtils] offers are exact: [toBytes] writes
    the 32-byte big-endian encoding of a secret the curve library accepts
    and [toSecret] reads it back. *)
Lemma conversions_lossless `{Imports} (h : store) (s : Z) :
  0 <= s < 2 ^ 256 -> tinysecp_isPrivate (be_bytes 32 s) = true ->
  exists (r : loc) (h1 : store),
    PrivateKeyUtils.toBytes s h = (Ok r, h1)
    /\ h1 !! r = Some (be_bytes 32 s)
    /\ PrivateKeyUtils.toSecret r h1 = (Ok s, h1).
Proof.
  intros Hs Hpriv.
  exists (S (length h)), ((h ++ [be_bytes 32 s]) ++ [be_bytes 32 s]).
  assert (Hr : ((h ++ [be_bytes 32 s]) ++ [be_bytes 32 s]) !! S (length h)
               = Some (be_bytes 32 s)).
  { replace (S (length h)) with (length (h ++ [be_bytes 32 s]))
      by (rewrite length_app; cbn; lia).
    apply lookup_new. }
  split; [apply toBytes_run; assumption|]. split; [exact Hr|].
  rewrite (toSecret_run _ _ _ Hr), be_value_bytes.
  change (256 ^ Z.of_nat 32) with (2 ^ 256). rewrite Z.mod_small by assumption.
  reflexivity.
Qed.

(** C1 on the code: for every bigint secret [s] with [1 <= s < n] the
    constructor succeeds and the secret accessor returns [s], but the
    bytes accessor throws a [TypeError] instead of returning the 32-byte
    big-endian encoding of [s].  The seed is never [undefined] past the
    first check, so [seedBytes ?? toBytes(seedSecret)] keeps the bigint
    itself in [_bytes], and [new Uint8Array] of a bigint throws. *)
Theorem PrivateKey_from_secret `{Imports} (h : store) (s : Z) :
  1 <= s < CURVE_n ->
  exists sk : PrivateKey.t,
    PrivateKey.constructor (VBigInt s) h = (Ok sk, h)
    /\ PrivateKey._bytes sk = VBigInt s
    /\ PrivateKey.secret sk h = (Ok (s, sk), h)
    /\ PrivateKey.bytes sk h = (Throw bigint_to_number_error, h)
    /\ returned (PrivateKey.bytes sk) h <> Some (be_bytes 32 s).
Proof.
  intros Hs.
  exists {| PrivateKey._bytes := VBigInt s; PrivateKey._secret := VBigInt s |}.
  split; [apply PrivateKey_constructor_secret; assumption|].
  split; [reflexivity|].
  split; [apply PrivateKey_secret_of_bigint; lia|].
  assert (Hb : PrivateKey.bytes
                 {| PrivateKey._bytes := VBigInt s; PrivateKey._secret := VBigInt s |} h
               = (Throw bigint_to_number_error, h))
    by (apply PrivateKey_bytes_of_bigint; lia).
  split; [exact Hb|].
  unfold returned. rewrite Hb. discriminate.
Qed.

(** The secret [1n] under the reference imports. *)
Lemma PrivateKey_from_secret_witness :
  1 <= 1 < Reference.secp256k1_n
  /\ exists sk : PrivateKey.t,
       @PrivateKey.constructor Reference.secp256k1 (VBigInt 1) [] = (Ok sk, [])
       /\ PrivateKey._bytes sk = VBigInt 1
       /\ PrivateKey.secret sk [] = (Ok (1, sk), [])
       /\ PrivateKey.bytes sk [] = (Throw bigint_to_number_error, [])
       /\ returned (PrivateKey.bytes sk) [] <> Some (be_bytes 32 1).
Proof.
  assert (Hs : 1 <= 1 < Reference.secp256k1_n)
    by (split; [vm_compute; discriminate|vm_compute; reflexivity]).
  split; [exact Hs|].
  apply (@PrivateKey_from_secret Reference.secp256k1 [] 1). exact Hs.
Defined.

(** * Further properties of the code *)

(** ** [modPow] and [sqrtMod] on every input *)

Section ModPowTotal.
Import PublicKeyUtils.

(** A positive exponent reduces the result at its leading bit, whatever
    the result was before. *)
Lemma modPow_loop_positive fuel : forall result base exp modulus,
  modulus <> 0 -> 0 < exp -> (iterations exp <= fuel)%nat ->
  modPow_loop fuel result base exp modulus
  = Ok (Z.rem (result * base ^ exp) modulus).
Proof.
  induction fuel as [|fuel IH]; intros result base exp modulus Hm Hpos Hfuel.
  - rewrite (iterations_shiftr exp) in Hfuel by assumption. lia.
  - cbn [modPow_loop].
    replace (exp >? 0) with true by (symmetry; apply Z.gtb_lt; lia).
    rewrite land_1_odd. unfold BigInt_rem.
    replace (modulus =? 0) with false by (symmetry; apply Z.eqb_neq; assumption).
    rewrite (iterations_shiftr exp) in Hfuel by assumption.
    assert (Hsh : Z.shiftr exp 1 = exp / 2)
      by (rewrite Z.shiftr_div_pow2 by lia; reflexivity).
    assert (Hhalf : 0 <= exp / 2) by (apply Z.div_pos; lia).
    assert (Hfuel' : (iterations (Z.shiftr exp 1) <= fuel)%nat) by lia.
    rewrite (pow_halve base exp) by lia.
    destruct (Z.odd exp) eqn:Hodd; cbn [mbind completion_bind].
    + rewrite modPow_loop_spec by
        first [assumption | apply Z.rem_rem; assumption | rewrite Hsh; lia].
      rewrite Hsh. f_equal.
      rewrite <- Z.mul_rem_idemp_r, rem_pow_idemp by assumption.
      rewrite Z.mul_rem_idemp_r, Z.mul_rem_idemp_l by assumption.
      f_equal. ring.
    + assert (Hge : 0 < exp / 2).
      { apply Z.div_str_pos. split; [lia|].
        destruct (Z.eq_dec exp 1) as [->|]; [discriminate|lia]. }
      rewrite IH by first [assumption | rewrite Hsh; lia].
      rewrite Hsh. f_equal.
      rewrite <- Z.mul_rem_idemp_r, rem_pow_idemp by assumption.
      rewrite Z.mul_rem_idemp_r by assumption.
      f_equal. ring.
Qed.

Lemma modPow_zero_modulus base exp :
  0 < exp -> modPow base exp 0 = Throw (RangeError "Division by zero").
Proof.
  intros Hpos. unfold modPow. rewrite (iterations_shiftr exp) by assumption.
  cbn [modPow_loop].
  replace (exp >? 0) with true by (symmetry; apply Z.gtb_lt; lia).
  destruct (BigInt_truthy (Z.land exp 1)); reflexivity.
Qed.

End ModPowTotal.

(** X1: [modPow] on all its inputs.  An exponent that is not positive
    gives [1n] whatever the base and the modulus; a positive exponent with
    the modulus [0n] throws a [RangeError]; a positive exponent with any
    other modulus, negative ones and [1n] included, gives the truncating
    remainder of [base ^ exp] by the modulus.  The loop always ends. *)
Theorem modPow_total (base exp modulus : Z) :
  (exp <= 0 -> PublicKeyUtils.modPow base exp modulus = Ok 1)
  /\ (0 < exp -> modulus = 0 ->
      PublicKeyUtils.modPow base exp modulus
      = Throw (RangeError "Division by zero"))
  /\ (0 < exp -> modulus <> 0 ->
      PublicKeyUtils.modPow base exp modulus
      = Ok (Z.rem (base ^ exp) modulus)).
Proof.
  split; [|split].
  - intros He. unfold PublicKeyUtils.modPow, PublicKeyUtils.iterations.
    assert (Hgt : (exp >? 0) = false) by (rewrite Z.gtb_ltb; apply Z.ltb_ge; lia).
    rewrite Hgt. cbn [PublicKeyUtils.modPow_loop]. rewrite Hgt. reflexivity.
  - intros He ->. apply modPow_zero_modulus. assumption.
  - intros He Hm. unfold PublicKeyUtils.modPow.
    rewrite modPow_loop_positive by (try assumption; lia).
    rewrite Z.mul_1_l. reflexivity.
Qed.

Lemma modPow_total_witness :
  (-3 <= 0 /\ PublicKeyUtils.modPow 2 (-3) 7 = Ok 1)
  /\ (0 < 5 /\ PublicKeyUtils.modPow 2 5 0 = Throw (RangeError "Division by zero"))
  /\ (0 < 5 /\ -7 <> 0 /\ PublicKeyUtils.modPow (-2) 5 (-7) = Ok (Z.rem ((-2) ^ 5) (-7)))
  /\ (0 < 4 /\ 1 <> 0 /\ PublicKeyUtils.modPow 3 4 1 = Ok (Z.rem (3 ^ 4) 1)).
Proof.
  split; [|split; [|split]].
  - split; [lia|]. apply (proj1 (modPow_total 2 (-3) 7)). lia.
  - split; [lia|]. apply (proj1 (proj2 (modPow_total 2 5 0))); lia.
  - split; [lia|]. split; [lia|]. apply (proj2 (proj2 (modPow_total (-2) 5 (-7)))); lia.
  - split; [lia|]. split; [lia|]. apply (proj2 (proj2 (modPow_total 3 4 1))); lia.
Defined.

Section EulerCriterion.

Variable p : Z.
Hypothesis p_prime : Z.prime p.
Hypothesis p_3mod4 : p mod 4 = 3.

(** The power [(p - 1) / 2] of a unit is [1] or [-1]. *)
Lemma half_power_sign a :
  a mod p <> 0 ->
  a ^ (2 * (p / 4) + 1) mod p = 1 \/ a ^ (2 * (p / 4) + 1) mod p = p - 1.
Proof.
  intros Hnz. pose proof (Z.prime_ge_2 p p_prime) as Hge.
  destruct (quarter_exponent p p_prime p_3mod4) as (_ & Hpm1 & Hq).
  set (u := a ^ (2 * (p / 4) + 1) mod p).
  assert (Hu : 0 <= u < p) by (apply Z.mod_pos_bound; lia).
  assert (Hsq : (u * u) mod p = 1).
  { unfold u. rewrite <- Z.mul_mod, <- Z.pow_add_r by lia.
    replace (2 * (p / 4) + 1 + (2 * (p / 4) + 1)) with (p - 1) by lia.
    apply Z.fermat_nz; assumption. }
  assert (Hdiv : (p | (u - 1) * (u + 1))).
  { apply Z.mod_divide; [lia|].
    replace ((u - 1) * (u + 1)) with (u * u - 1) by ring.
    rewrite <- Zminus_mod_idemp_l, Hsq. reflexivity. }
  apply Z.divide_prime_mul in Hdiv; [|assumption].
  destruct Hdiv as [[k Hk]|[k Hk]]; [left|right].
  - assert (k = 0) by nia. subst k. lia.
  - assert (k = 1) by nia. subst k. lia.
Qed.

(** The square of the candidate root is [a] or [-a]. *)
Lemma candidate_square a :
  let r := a ^ ((p + 1) / 4) mod p in
  (r * r) mod p = a mod p \/ (r * r) mod p = (- a) mod p.
Proof.
  intros r. subst r. pose proof (Z.prime_ge_2 p p_prime) as Hge.
  destruct (quarter_exponent p p_prime p_3mod4) as (-> & Hpm1 & Hq).
  rewrite <- Z.mul_mod, <- Z.pow_add_r by lia.
  replace (p / 4 + 1 + (p / 4 + 1)) with (Z.succ (2 * (p / 4) + 1)) by lia.
  rewrite Z.pow_succ_r by lia.
  destruct (Z.eq_dec (a mod p) 0) as [Hz|Hnz].
  - left. rewrite <- Z.mul_mod_idemp_l, Hz by lia. reflexivity.
  - rewrite <- Z.mul_mod_idemp_r by lia.
    destruct (half_power_sign a Hnz) as [->| ->].
    + left. rewrite Z.mul_1_r. reflexivity.
    + right. replace (a * (p - 1)) with (- a + a * p) by ring.
      apply Z.mod_add. lia.
Qed.

(** The candidate is a root exactly of the squares. *)
Lemma candidate_root_iff a :
  let r := a ^ ((p + 1) / 4) mod p in
  (r * r) mod p = a mod p <-> exists c, (c * c) mod p = a mod p.
Proof.
  intros r. split.
  - intros Hr. exists r. exact Hr.
  - intros [c Hc]. apply (sqrt_of_square p p_prime p_3mod4 a c). symmetry. exact Hc.
Qed.

End EulerCriterion.

(** X2: for a prime [p = 3 (mod 4)] and every [a >= 0], [sqrtMod(a, p)]
    returns some [r] in [0, p) whose square is [a] or [-a] modulo [p]; it
    is [a] exactly when [a] is a square modulo [p].  The function never
    fails and never reports that [a] has no root. *)
Theorem sqrtMod_root_or_not (p a : Z) :
  Z.prime p -> p mod 4 = 3 -> 0 <= a ->
  exists r : Z,
    PublicKeyUtils.sqrtMod a p = Ok r
    /\ 0 <= r < p
    /\ ((r * r) mod p = a mod p \/ (r * r) mod p = (- a) mod p)
    /\ ((r * r) mod p = a mod p <-> exists c, (c * c) mod p = a mod p).
Proof.
  intros Hp H34 Ha. pose proof (Z.prime_ge_2 p Hp) as Hge.
  exists (a ^ ((p + 1) / 4) mod p).
  split; [apply sqrtMod_mod; assumption|].
  split; [apply Z.mod_pos_bound; lia|].
  split; [apply candidate_square; assumption|apply candidate_root_iff; assumption].
Qed.

Lemma sqrtMod_root_or_not_witness :
  (Z.prime 7 /\ 7 mod 4 = 3 /\ 0 <= 3)
  /\ exists r : Z,
       PublicKeyUtils.sqrtMod 3 7 = Ok r
       /\ 0 <= r < 7
       /\ ((r * r) mod 7 = 3 mod 7 \/ (r * r) mod 7 = (- 3) mod 7)
       /\ ((r * r) mod 7 = 3 mod 7 <-> exists c, (c * c) mod 7 = 3 mod 7).
Proof.
  assert (H7 : Z.prime 7) by (apply trial_division_sound; reflexivity).
  split; [split; [exact H7|split; [reflexivity|lia]]|].
  apply (sqrtMod_root_or_not 7 3 H7); [reflexivity|lia].
Defined.

(** A computed candidate that is no root shows a non-residue. *)
Lemma non_residue_by_candidate (p a r : Z) :
  Z.prime p -> p mod 4 = 3 -> 0 <= a ->
  PublicKeyUtils.sqrtMod a p = Ok r -> (r * r) mod p <> a mod p ->
  ~ exists c, (c * c) mod p = a mod p.
Proof.
  intros Hp H34 Ha Hr Hne Hsq. pose proof (Z.prime_ge_2 p Hp) as Hge.
  rewrite sqrtMod_mod in Hr by assumption. injection Hr as <-.
  apply Hne. apply candidate_root_iff; assumption.
Qed.

(** X3: [liftX] does not reject an x-coordinate that is on no point of the
    curve.  For every 32-byte [x] in range with [x ^ 3 + 7] not a square
    modulo [p], it returns [0x04 || x || y] with [y ^ 2 = - (x ^ 3 + 7)],
    a point that does not satisfy the curve equation. *)
Theorem liftX_off_curve `{Imports} (h : store) (xBytes : loc) (xs : list byte) :
  Z.prime CURVE_p -> CURVE_p mod 4 = 3 -> CURVE_p <= 2 ^ 256 -> CURVE_b = 7 ->
  h !! xBytes = Some xs -> length xs = 32%nat ->
  0 < be_value xs < CURVE_p ->
  ~ (exists c, (c * c) mod CURVE_p = (be_value xs ^ 3 + 7) mod CURVE_p) ->
  exists y : Z,
    returned (PublicKeyUtils.liftX xBytes) h = Some ([x04] ++ xs ++ be_bytes 32 y)
    /\ 0 <= y < CURVE_p
    /\ (y * y) mod CURVE_p = (- (be_value xs ^ 3 + 7)) mod CURVE_p
    /\ (y * y) mod CURVE_p <> (be_value xs ^ 3 + 7) mod CURVE_p.
Proof.
  intros Hprime H34 Hp Hb Hx Hlen Hrange Hnon.
  assert (Hpos : 0 < CURVE_p) by lia.
  exists (lifted_y (be_value xs)).
  assert (Hy : lifted_y (be_value xs)
               = (be_value xs ^ 3 + 7) ^ ((CURVE_p + 1) / 4) mod CURVE_p)
    by (unfold lifted_y; rewrite Hb; apply Z.mod_pow_l).
  split.
  { unfold returned. rewrite (liftX_in_range h xBytes xs) by (try assumption; lia).
    apply lookup_new. }
  rewrite Hy. split; [apply Z.mod_pos_bound; assumption|].
  assert (Hne : ((be_value xs ^ 3 + 7) ^ ((CURVE_p + 1) / 4) mod CURVE_p
                 * ((be_value xs ^ 3 + 7) ^ ((CURVE_p + 1) / 4) mod CURVE_p))
                mod CURVE_p <> (be_value xs ^ 3 + 7) mod CURVE_p).
  { intros Heq. apply Hnon.
    apply (candidate_root_iff CURVE_p Hprime H34 (be_value xs ^ 3 + 7)). exact Heq. }
  split; [|exact Hne].
  destruct (candidate_square CURVE_p Hprime H34 (be_value xs ^ 3 + 7)) as [Heq|Heq];
    [contradiction|exact Heq].
Qed.

(** [x = 5] is on no point of secp256k1: the candidate root of
    [5 ^ 3 + 7] is no root. *)
Lemma candidate_of_132 :
  match PublicKeyUtils.sqrtMod 132 Reference.secp256k1_p with
  | Ok r => negb ((r * r) mod Reference.secp256k1_p
                  =? 132 mod Reference.secp256k1_p)
  | _ => false
  end = true.
Proof. vm_compute. reflexivity. Qed.

Lemma five_on_no_point :
  ~ (exists c, (c * c) mod Reference.secp256k1_p
               = (be_value (be_bytes 32 5) ^ 3 + 7) mod Reference.secp256k1_p).
Proof.
  assert (Hv : be_value (be_bytes 32 5) ^ 3 + 7 = 132) by (vm_compute; reflexivity).
  rewrite Hv. pose proof candidate_of_132 as Hc.
  destruct (PublicKeyUtils.sqrtMod 132 Reference.secp256k1_p) as [r| |] eqn:Hr;
    [|discriminate|discriminate].
  apply (non_residue_by_candidate Reference.secp256k1_p 132 r);
    [exact secp256k1_p_prime|reflexivity|lia|exact Hr|].
  apply negb_true_iff, Z.eqb_neq in Hc. exact Hc.
Qed.

Lemma liftX_off_curve_witness :
  let xs := be_bytes 32 5 in
  let h : store := [xs] in
  (h !! 0%nat = Some xs /\ length xs = 32%nat
   /\ 0 < be_value xs < Reference.secp256k1_p
   /\ ~ (exists c, (c * c) mod Reference.secp256k1_p
                   = (be_value xs ^ 3 + 7) mod Reference.secp256k1_p))
  /\ exists y : Z,
       returned (@PublicKeyUtils.liftX Reference.secp256k1 0%nat) h
       = Some ([x04] ++ xs ++ be_bytes 32 y)
       /\ 0 <= y < Reference.secp256k1_p
       /\ (y * y) mod Reference.secp256k1_p
          = (- (be_value xs ^ 3 + 7)) mod Reference.secp256k1_p
       /\ (y * y) mod Reference.secp256k1_p
          <> (be_value xs ^ 3 + 7) mod Reference.secp256k1_p.
Proof.
  intros xs h.
  assert (Hrange : 0 < be_value xs < Reference.secp256k1_p)
    by (split; vm_compute; reflexivity).
  split.
  - split; [reflexivity|]. split; [reflexivity|].
    split; [exact Hrange|exact five_on_no_point].
  - apply (@liftX_off_curve Reference.secp256k1 h 0%nat xs).
    + exact secp256k1_p_prime.
    + reflexivity.
    + vm_compute. discriminate.
    + reflexivity.
    + reflexivity.
    + reflexivity.
    + exact Hrange.
    + exact five_on_no_point.
Defined.

(** ** The accessors of a [PublicKey] *)

Section HexStrings.

Lemma from_hex_toString (bytes : list byte) :
  Buffer_from_hex (Buffer_toString_hex bytes) = bytes.
Proof.
  induction bytes as [|b rest IH]; [reflexivity|].
  cbn [Buffer_toString_hex Buffer_from_hex].
  destruct (byte_nibbles b) as (Hhi & Hlo & Hsum).
  rewrite !hex_value_char by assumption.
  rewrite Hsum, byte_of_to_Z, IH. reflexivity.
Qed.

(** Two arrays with one hexadecimal string are equal. *)
Lemma toString_hex_inj (l1 l2 : list byte) :
  Buffer_toString_hex l1 = Buffer_toString_hex l2 -> l1 = l2.
Proof.
  intros Heq. rewrite <- (from_hex_toString l1), Heq. apply from_hex_toString.
Qed.

Lemma hex_eqb_iff (l1 l2 : list byte) :
  String.eqb (Buffer_toString_hex l1) (Buffer_toString_hex l2) = true <-> l1 = l2.
Proof.
  rewrite String.eqb_eq. split; [apply toString_hex_inj|intros ->; reflexivity].
Qed.

End HexStrings.

Section PublicKeyAccessors.
Context `{Imports}.
Import PublicKey.

Lemma lookup_second (h : store) (c d : list byte) :
  ((h ++ [c]) ++ [d]) !! S (length h) = Some d.
Proof.
  replace (S (length h)) with (length (h ++ [c]))
    by (rewrite length_app; cbn; lia).
  apply lookup_new.
Qed.

Lemma x_of_stored (first : byte) (xs : list byte) :
  length xs = 32%nat -> take 32 (drop 1 (first :: xs)) = xs.
Proof. intros Hlen. change (take 32 xs = xs). apply take_ge. lia. Qed.

Lemma PublicKey_uncompressed_run (h : store) (pk : t) (first : byte) (xs : list byte) :
  h !! _bytes pk = Some (first :: xs) -> length xs = 32%nat ->
  uncompressed pk h
  = PublicKeyUtils.liftX (S (length h)) ((h ++ [first :: xs]) ++ [xs]).
Proof.
  intros Hb Hlen. unfold uncompressed.
  rewrite bind_run, (PublicKey_x_run _ _ _ Hb), x_of_stored by assumption.
  reflexivity.
Qed.

Lemma PublicKey_hex_run (h : store) (pk : t) (contents : list byte) :
  h !! _bytes pk = Some contents ->
  hex pk h = (Ok (Buffer_toString_hex contents), h ++ [contents]).
Proof.
  intros Hb. unfold hex. rewrite bind_run, (PublicKey_bytes_run _ _ _ Hb). run.
  reflexivity.
Qed.

Lemma PublicKey_equals_run (h : store) (a b : t) (c1 c2 : list byte) :
  h !! _bytes a = Some c1 -> h !! _bytes b = Some c2 ->
  equals a b h
  = (Ok (String.eqb (Buffer_toString_hex c1) (Buffer_toString_hex c2)),
     (h ++ [c1]) ++ [c2]).
Proof.
  intros Ha Hb. unfold equals.
  rewrite bind_run, (PublicKey_hex_run _ _ _ Ha).
  rewrite bind_run, (PublicKey_hex_run (h ++ [c1]) b c2) by auto with store.
  reflexivity.
Qed.

End PublicKeyAccessors.

(** X4: [uncompressed] and [y] never read the parity byte of the key.
    For a key holding [first || x] with [x] in range, whatever [first] is,
    [uncompressed] is [0x04 || x || y] and [y] is the 32 bytes of the one
    root [liftX] computes, so a key of parity [0x02] and a key of parity
    [0x03] with the same [x] get the same [y].  A key whose [x] is zero or
    not below [p] was accepted by the constructor; both accessors throw
    the range error of [liftX] for it. *)
Theorem uncompressed_ignores_parity `{Imports} (h : store) (pk : PublicKey.t)
    (first : byte) (xs : list byte) :
  CURVE_p <= 2 ^ 256 -> 0 <= CURVE_b ->
  h !! PublicKey._bytes pk = Some (first :: xs) -> length xs = 32%nat ->
  (0 < be_value xs < CURVE_p ->
   returned (PublicKey.uncompressed pk) h
   = Some ([x04] ++ xs ++ be_bytes 32 (lifted_y (be_value xs)))
   /\ returned (PublicKey.y pk) h = Some (be_bytes 32 (lifted_y (be_value xs))))
  /\ (be_value xs = 0 \/ CURVE_p <= be_value xs ->
      fst (PublicKey.uncompressed pk h) = Throw liftX_range_error
      /\ fst (PublicKey.y pk h) = Throw liftX_range_error).
Proof.
  intros Hp Hb Hst Hlen.
  pose proof (PublicKey_uncompressed_run h pk first xs Hst Hlen) as Hun.
  pose proof (lookup_second h (first :: xs) xs) as Hx.
  split.
  - intros Hrange.
    pose proof (liftX_in_range _ _ xs Hp Hb Hx Hlen Hrange) as Hlift.
    rewrite <- Hun in Hlift.
    split.
    + unfold returned. rewrite Hlift. apply lookup_new.
    + unfold returned, PublicKey.y. rewrite bind_run, Hlift.
      erewrite bind_run, read_Some by apply lookup_new.
      rewrite alloc_run.
      match goal with |- (?s ++ [_]) !! _ = _ => replace (length _) with (length s) end.
      2:{ rewrite !length_app. cbn [length]. lia. }
      rewrite lookup_new. f_equal.
      change (take 32 (drop 32 (xs ++ be_bytes 32 (lifted_y (be_value xs))))
              = be_bytes 32 (lifted_y (be_value xs))).
      rewrite drop_app_length' by (symmetry; exact Hlen).
      apply take_ge. rewrite be_bytes_length. lia.
  - intros Hrange.
    pose proof (liftX_out_of_range _ _ xs Hx Hlen Hrange) as Hlift.
    rewrite <- Hun in Hlift.
    split; [rewrite Hlift; reflexivity|].
    unfold PublicKey.y. rewrite bind_run, Hlift. reflexivity.
Qed.

(** The generator's x-coordinate under the parity byte [0x03], and the
    x-coordinate zero. *)
Lemma uncompressed_ignores_parity_witness :
  let xs := be_bytes 32 Reference.secp256k1_Gx in
  let zero : list byte := repeat x00 32 in
  let h : store := [x03 :: xs; x02 :: zero] in
  let odd := {| PublicKey._bytes := 0%nat |} in
  let null := {| PublicKey._bytes := 1%nat |} in
  (0 < be_value xs < Reference.secp256k1_p
   /\ returned (@PublicKey.uncompressed Reference.secp256k1 odd) h
      = Some ([x04] ++ xs
              ++ be_bytes 32 (@lifted_y Reference.secp256k1 (be_value xs)))
   /\ returned (@PublicKey.y Reference.secp256k1 odd) h
      = Some (be_bytes 32 (@lifted_y Reference.secp256k1 (be_value xs))))
  /\ ((be_value zero = 0 \/ Reference.secp256k1_p <= be_value zero)
      /\ fst (@PublicKey.uncompressed Reference.secp256k1 null h)
         = Throw liftX_range_error
      /\ fst (@PublicKey.y Reference.secp256k1 null h) = Throw liftX_range_error).
Proof.
  intros xs zero h odd null.
  assert (Hp : Reference.secp256k1_p <= 2 ^ 256) by (vm_compute; discriminate).
  assert (Hrange : 0 < be_value xs < Reference.secp256k1_p)
    by (split; vm_compute; reflexivity).
  assert (Hzero : be_value zero = 0 \/ Reference.secp256k1_p <= be_value zero)
    by (left; reflexivity).
  split.
  - split; [exact Hrange|].
    apply (proj1 (@uncompressed_ignores_parity Reference.secp256k1 h odd x03 xs
                    Hp ltac:(discriminate) eq_refl eq_refl)).
    exact Hrange.
  - split; [exact Hzero|].
    apply (proj2 (@uncompressed_ignores_parity Reference.secp256k1 h null x02 zero
                    Hp ltac:(discriminate) eq_refl eq_refl)).
    exact Hzero.
Defined.

(** X5: [equals] compares the stored arrays byte by byte.  It returns
    [true] exactly when the two keys hold the same 33 bytes, parity byte
    included, and it never throws for keys that hold an array. *)
Theorem PublicKey_equals_iff (h : store) (a b : PublicKey.t) (c1 c2 : list byte) :
  h !! PublicKey._bytes a = Some c1 -> h !! PublicKey._bytes b = Some c2 ->
  exists same : bool,
    fst (PublicKey.equals a b h) = Ok same /\ (same = true <-> c1 = c2).
Proof.
  intros Ha Hb. rewrite (PublicKey_equals_run h a b c1 c2 Ha Hb).
  eexists. split; [reflexivity|]. apply hex_eqb_iff.
Qed.

Lemma PublicKey_equals_iff_witness :
  let even : list byte := x02 :: repeat x07 32 in
  let odd : list byte := x03 :: repeat x07 32 in
  let h : store := [even; odd] in
  (h !! 0%nat = Some even /\ h !! 1%nat = Some odd)
  /\ exists same : bool,
       fst (PublicKey.equals {| PublicKey._bytes := 0%nat |}
              {| PublicKey._bytes := 1%nat |} h) = Ok same
       /\ (same = true <-> even = odd).
Proof.
  intros even odd h. split; [split; reflexivity|].
  apply (PublicKey_equals_iff h {| PublicKey._bytes := 0%nat |}
           {| PublicKey._bytes := 1%nat |} even odd); reflexivity.
Defined.

(** X6: a key built from the 32 bytes [x] and a key built from the 33
    bytes [0x02 || x] are equal, in either order of the comparison; a key
    built from [0x03 || x] equals neither. *)
Theorem xonly_is_even_parity (h : store) (r32 r02 r03 : loc) (xs : list byte) :
  h !! r32 = Some xs -> h !! r02 = Some (x02 :: xs) ->
  h !! r03 = Some (x03 :: xs) -> length xs = 32%nat ->
  exists (k32 k02 k03 : PublicKey.t) (h1 : store),
    PublicKey.constructor r32 h = (Ok k32, h1)
    /\ PublicKey.constructor r02 h1 = (Ok k02, h1)
    /\ PublicKey.constructor r03 h1 = (Ok k03, h1)
    /\ fst (PublicKey.equals k32 k02 h1) = Ok true
    /\ fst (PublicKey.equals k02 k32 h1) = Ok true
    /\ fst (PublicKey.equals k32 k03 h1) = Ok false
    /\ fst (PublicKey.equals k02 k03 h1) = Ok false.
Proof.
  intros H32 H02 H03 Hlen.
  set (h1 := h ++ [[x02] ++ xs]).
  assert (Hk32 : h1 !! length h = Some (x02 :: xs)) by apply lookup_new.
  assert (Hk02 : h1 !! r02 = Some (x02 :: xs)) by (apply lookup_old; assumption).
  assert (Hk03 : h1 !! r03 = Some (x03 :: xs)) by (apply lookup_old; assumption).
  assert (Htrue : String.eqb (Buffer_toString_hex (x02 :: xs))
                    (Buffer_toString_hex (x02 :: xs)) = true)
    by apply String.eqb_refl.
  assert (Hfalse : String.eqb (Buffer_toString_hex (x02 :: xs))
                     (Buffer_toString_hex (x03 :: xs)) = false).
  { apply not_true_is_false. intros Heq. apply hex_eqb_iff in Heq. discriminate. }
  exists {| PublicKey._bytes := length h |}, {| PublicKey._bytes := r02 |},
    {| PublicKey._bytes := r03 |}, h1.
  split; [apply (PublicKey_constructor_32 h r32 xs); assumption|].
  split; [apply (PublicKey_constructor_33 h1 r02 (x02 :: xs));
          [assumption|cbn [length]; lia]|].
  split; [apply (PublicKey_constructor_33 h1 r03 (x03 :: xs));
          [assumption|cbn [length]; lia]|].
  split; [rewrite (PublicKey_equals_run h1 {| PublicKey._bytes := length h |}
                     {| PublicKey._bytes := r02 |} _ _ Hk32 Hk02);
          cbn [fst]; rewrite Htrue; reflexivity|].
  split; [rewrite (PublicKey_equals_run h1 {| PublicKey._bytes := r02 |}
                     {| PublicKey._bytes := length h |} _ _ Hk02 Hk32);
          cbn [fst]; rewrite Htrue; reflexivity|].
  split; [rewrite (PublicKey_equals_run h1 {| PublicKey._bytes := length h |}
                     {| PublicKey._bytes := r03 |} _ _ Hk32 Hk03);
          cbn [fst]; rewrite Hfalse; reflexivity|].
  rewrite (PublicKey_equals_run h1 {| PublicKey._bytes := r02 |}
             {| PublicKey._bytes := r03 |} _ _ Hk02 Hk03).
  cbn [fst]. rewrite Hfalse. reflexivity.
Qed.

(** The three encodings of the generator's x-coordinate. *)
Lemma xonly_is_even_parity_witness :
  let xs := be_bytes 32 Reference.secp256k1_Gx in
  let h : store := [xs; x02 :: xs; x03 :: xs] in
  (h !! 0%nat = Some xs /\ h !! 1%nat = Some (x02 :: xs)
   /\ h !! 2%nat = Some (x03 :: xs) /\ length xs = 32%nat)
  /\ exists (k32 k02 k03 : PublicKey.t) (h1 : store),
       PublicKey.constructor 0%nat h = (Ok k32, h1)
       /\ PublicKey.constructor 1%nat h1 = (Ok k02, h1)
       /\ PublicKey.constructor 2%nat h1 = (Ok k03, h1)
       /\ fst (PublicKey.equals k32 k02 h1) = Ok true
       /\ fst (PublicKey.equals k02 k32 h1) = Ok true
       /\ fst (PublicKey.equals k32 k03 h1) = Ok false
       /\ fst (PublicKey.equals k02 k03 h1) = Ok false.
Proof.
  intros xs h. split; [repeat split|].
  apply (xonly_is_even_parity h 0%nat 1%nat 2%nat xs); reflexivity.
Defined.

(** X7: [encode] cannot fail on a constructed key, and the parity byte is
    not encoded.  Whatever array the constructor accepted, the key holds
    33 bytes [first || x], the x-coordinate read from it has 32 bytes, so
    the check of [encode] passes, and the multibase string is the base-58
    encoding of the prefix followed by [x] alone: keys that differ in
    their parity byte only have one multibase string. *)
Theorem encode_of_constructed `{Imports} (h h1 : store) (input : loc)
    (pk : PublicKey.t) :
  PublicKey.constructor input h = (Ok pk, h1) ->
  exists (first : byte) (xs : list byte),
    h1 !! PublicKey._bytes pk = Some (first :: xs)
    /\ length xs = 32%nat
    /\ fst (PublicKey.encode pk h1)
       = Ok (base58btc_encode (BIP340_MULTIKEY_PREFIX ++ xs))
    /\ fst (PublicKey.multibase pk h1)
       = Ok (base58btc_encode (BIP340_MULTIKEY_PREFIX ++ xs)).
Proof.
  intros Hc.
  assert (Hst : exists first xs, h1 !! PublicKey._bytes pk = Some (first :: xs)
                                 /\ length xs = 32%nat).
  { destruct (PublicKey_constructor_Ok _ _ _ _ Hc)
      as (contents & Hin & [(H32 & -> & ->)|(H33 & -> & ->)]).
    - exists x02, contents. split; [apply lookup_new|assumption].
    - destruct contents as [|first xs]; [discriminate|].
      exists first, xs. split; [assumption|]. cbn [length] in H33. lia. }
  destruct Hst as (first & xs & Hst & Hlen).
  exists first, xs. split; [assumption|]. split; [assumption|].
  pose proof (encode_run h1 pk (first :: xs) Hst ltac:(cbn [length]; lia)) as Henc.
  cbn zeta in Henc. rewrite x_of_stored in Henc by assumption.
  unfold PublicKey.multibase. rewrite Henc. split; reflexivity.
Qed.

(** A compressed key of odd parity. *)
Lemma encode_of_constructed_witness :
  let xs := be_bytes 32 Reference.secp256k1_Gx in
  let h : store := [x03 :: xs] in
  let pk := {| PublicKey._bytes := 0%nat |} in
  PublicKey.constructor 0%nat h = (Ok pk, h)
  /\ exists (first : byte) (ys : list byte),
       h !! PublicKey._bytes pk = Some (first :: ys)
       /\ length ys = 32%nat
       /\ fst (@PublicKey.encode Reference.secp256k1 pk h)
          = Ok (Reference.base58btc_encode (Reference.prefix ++ ys))
       /\ fst (@PublicKey.multibase Reference.secp256k1 pk h)
          = Ok (Reference.base58btc_encode (Reference.prefix ++ ys)).
Proof.
  intros xs h pk. split; [reflexivity|].
  apply (@encode_of_constructed Reference.secp256k1 h h 0%nat pk). reflexivity.
Defined.

(** X8: the round trip through the multikey string loses the parity
    byte, and [prefix] returns the whole payload.  For a key holding
    [first || x], whatever [first] is, [decode] and the [prefix] accessor
    both return the 34 bytes made of the 2-byte prefix and [x]; the
    imports are a 2-byte prefix, its SHA-256 as the expected digest, and a
    base-58 decoder that inverts the encoder on this payload. *)
Theorem prefix_is_whole_payload `{Imports} (h : store) (pk : PublicKey.t)
    (first : byte) (xs : list byte) :
  length BIP340_MULTIKEY_PREFIX = 2%nat ->
  Buffer_toString_hex (sha256 BIP340_MULTIKEY_PREFIX) = BIP340_MULTIKEY_PREFIX_HASH ->
  base58btc_decode (base58btc_encode (BIP340_MULTIKEY_PREFIX ++ xs))
  = Ok (BIP340_MULTIKEY_PREFIX ++ xs) ->
  h !! PublicKey._bytes pk = Some (first :: xs) -> length xs = 32%nat ->
  returned (PublicKey.decode pk) h = Some (BIP340_MULTIKEY_PREFIX ++ xs)
  /\ returned (PublicKey.prefix pk) h = Some (BIP340_MULTIKEY_PREFIX ++ xs)
  /\ length (BIP340_MULTIKEY_PREFIX ++ xs) = 34%nat.
Proof.
  intros Hprefix Hhash Hcodec Hst Hlen.
  pose proof (encode_run h pk (first :: xs) Hst ltac:(cbn [length]; lia)) as Henc.
  cbn zeta in Henc. rewrite x_of_stored in Henc by assumption.
  assert (Hsize : length (BIP340_MULTIKEY_PREFIX ++ xs) = 34%nat)
    by (rewrite length_app, Hprefix, Hlen; reflexivity).
  assert (Hdec : returned (PublicKey.decode pk) h = Some (BIP340_MULTIKEY_PREFIX ++ xs)).
  { unfold returned. rewrite (decode_run h _ pk _ _ Henc Hcodec).
    rewrite Hsize. cbn [Nat.eqb negb].
    rewrite take_app_length' by (symmetry; exact Hprefix).
    rewrite Hhash, String.eqb_refl. cbn [negb]. apply lookup_new. }
  split; [exact Hdec|]. split; [exact Hdec|exact Hsize].
Qed.

(** The generator under the parity byte [0x03]. *)
Lemma prefix_is_whole_payload_witness :
  let xs := be_bytes 32 Reference.secp256k1_Gx in
  let h : store := [x03 :: xs] in
  let pk := {| PublicKey._bytes := 0%nat |} in
  (length Reference.prefix = 2%nat
   /\ Buffer_toString_hex (Reference.sha256 Reference.prefix) = Reference.prefixHash
   /\ Reference.base58btc_decode (Reference.base58btc_encode (Reference.prefix ++ xs))
      = Ok (Reference.prefix ++ xs)
   /\ h !! PublicKey._bytes pk = Some (x03 :: xs) /\ length xs = 32%nat)
  /\ returned (@PublicKey.decode Reference.secp256k1 pk) h
     = Some (Reference.prefix ++ xs)
  /\ returned (@PublicKey.prefix Reference.secp256k1 pk) h
     = Some (Reference.prefix ++ xs)
  /\ length (Reference.prefix ++ xs) = 34%nat.
Proof.
  intros xs h pk.
  assert (Hcodec :
            Reference.base58btc_decode
              (Reference.base58btc_encode (Reference.prefix ++ xs))
            = Ok (Reference.prefix ++ xs)) by (vm_compute; reflexivity).
  assert (Hhash : Buffer_toString_hex (Reference.sha256 Reference.prefix)
                  = Reference.prefixHash) by (vm_compute; reflexivity).
  split.
  - split; [reflexivity|]. split; [exact Hhash|].
    split; [exact Hcodec|]. split; reflexivity.
  - apply (@prefix_is_whole_payload Reference.secp256k1 h pk x03 xs).
    + reflexivity.
    + exact Hhash.
    + exact Hcodec.
    + reflexivity.
    + reflexivity.
Defined.

(** ** The [PrivateKey] object on every seed *)

Section PrivateKeyCases.
Context `{Imports}.

Lemma be_bytes_mod (len : nat) (z : Z) :
  be_bytes len (z mod 256 ^ Z.of_nat len) = be_bytes len z.
Proof.
  pose proof (be_bytes_value (be_bytes len z)) as Hb.
  rewrite be_bytes_length, be_value_bytes in Hb. exact Hb.
Qed.

(** [toBytes] on every secret. *)
Lemma toBytes_eq (h : store) (secret : Z) :
  PrivateKeyUtils.toBytes secret h
  = if tinysecp_isPrivate (be_bytes 32 secret)
    then (Ok (S (length h)), (h ++ [be_bytes 32 secret]) ++ [be_bytes 32 secret])
    else (Throw toBytes_error, h ++ [be_bytes 32 secret]).
Proof.
  destruct (tinysecp_isPrivate (be_bytes 32 secret)) eqn:Hpriv.
  - apply toBytes_run. assumption.
  - unfold PrivateKeyUtils.toBytes.
    pose proof (toBytes_digits secret 32) as Hd.
    change (Z.of_nat 32 - 1) with 31 in Hd. rewrite Hd.
    run. rewrite Hpriv. reflexivity.
Qed.

Lemma PrivateKey_hex_run (h : store) (sk : PrivateKey.t) (r0 : loc)
    (contents : list byte) :
  PrivateKey._bytes sk = VUint8Array r0 -> h !! r0 = Some contents ->
  PrivateKey.hex sk h = (Ok (Buffer_toString_hex contents), h ++ [contents]).
Proof.
  intros Hf Hr. unfold PrivateKey.hex.
  rewrite bind_run, (PrivateKey_bytes_run _ _ _ _ Hf Hr). run. reflexivity.
Qed.

Lemma PrivateKey_hex_of_bigint (h : store) (s : Z) (v : value) :
  s <> 0 ->
  PrivateKey.hex {| PrivateKey._bytes := VBigInt s; PrivateKey._secret := v |} h
  = (Throw bigint_to_number_error, h).
Proof.
  intros Hs. unfold PrivateKey.hex.
  rewrite bind_run, PrivateKey_bytes_of_bigint by assumption. reflexivity.
Qed.

End PrivateKeyCases.

(** X9: the [PrivateKey] constructor on every seed.  [undefined] and the
    bigint [0n] are both reported as a missing argument; every other
    bigint outside [1, n) as out of range; an array of a length other
    than 32 as a wrong length.  Every other seed is accepted and stored in
    both fields as it is: a bigint is not converted to bytes, an array is
    neither copied nor converted to a secret nor checked to be a valid
    scalar, and the store is left as it was. *)
Theorem PrivateKey_constructor_cases `{Imports} (h : store) :
  PrivateKey.constructor VUndefined h = (Throw seed_missing_error, h)
  /\ PrivateKey.constructor (VBigInt 0) h = (Throw seed_missing_error, h)
  /\ (forall s : Z, s <> 0 -> s < 1 \/ CURVE_n <= s ->
        PrivateKey.constructor (VBigInt s) h = (Throw seed_range_error, h))
  /\ (forall s : Z, 1 <= s < CURVE_n ->
        PrivateKey.constructor (VBigInt s) h
        = (Ok {| PrivateKey._bytes := VBigInt s; PrivateKey._secret := VBigInt s |}, h))
  /\ (forall (r : loc) (c : list byte),
        h !! r = Some c -> length c <> 32%nat ->
        PrivateKey.constructor (VUint8Array r) h = (Throw seed_length_error, h))
  /\ (forall (r : loc) (c : list byte),
        h !! r = Some c -> length c = 32%nat ->
        PrivateKey.constructor (VUint8Array r) h
        = (Ok {| PrivateKey._bytes := VUint8Array r;
                 PrivateKey._secret := VUint8Array r |}, h)).
Proof.
  split; [reflexivity|]. split; [reflexivity|].
  split; [|split; [|split]].
  - intros s Hs Hrange. unfold PrivateKey.constructor. cbn [truthy].
    unfold BigInt_truthy.
    replace (s =? 0) with false by (symmetry; apply Z.eqb_neq; assumption).
    cbn [negb]. run.
    replace ((s <? 1) || (s >=? CURVE_n)) with true; [reflexivity|].
    symmetry. apply orb_true_iff. rewrite Z.ltb_lt, Z.geb_le. lia.
  - intros s Hs. apply PrivateKey_constructor_secret. assumption.
  - intros r c Hr Hlen. unfold PrivateKey.constructor. cbn [truthy negb]. run.
    apply Nat.eqb_neq in Hlen. rewrite Hlen. reflexivity.
  - intros r c Hr Hlen. apply (PrivateKey_constructor_bytes h r c); assumption.
Qed.

(** The seeds [-1n], [n], [1n], an array of one byte and 32 zero bytes,
    which are no valid scalar. *)
Lemma PrivateKey_constructor_cases_witness :
  let short : list byte := [x01] in
  let zero : list byte := repeat x00 32 in
  let h : store := [short; zero] in
  (-1 <> 0 /\ (-1 < 1 \/ Reference.secp256k1_n <= -1)
   /\ @PrivateKey.constructor Reference.secp256k1 (VBigInt (-1)) h
      = (Throw seed_range_error, h))
  /\ (Reference.secp256k1_n <> 0
      /\ (Reference.secp256k1_n < 1 \/ Reference.secp256k1_n <= Reference.secp256k1_n)
      /\ @PrivateKey.constructor Reference.secp256k1 (VBigInt Reference.secp256k1_n) h
         = (Throw seed_range_error, h))
  /\ (1 <= 1 < Reference.secp256k1_n
      /\ @PrivateKey.constructor Reference.secp256k1 (VBigInt 1) h
         = (Ok {| PrivateKey._bytes := VBigInt 1; PrivateKey._secret := VBigInt 1 |}, h))
  /\ (h !! 0%nat = Some short /\ length short <> 32%nat
      /\ @PrivateKey.constructor Reference.secp256k1 (VUint8Array 0%nat) h
         = (Throw seed_length_error, h))
  /\ (h !! 1%nat = Some zero /\ length zero = 32%nat
      /\ Reference.isPrivate zero = false
      /\ @PrivateKey.constructor Reference.secp256k1 (VUint8Array 1%nat) h
         = (Ok {| PrivateKey._bytes := VUint8Array 1%nat;
                  PrivateKey._secret := VUint8Array 1%nat |}, h)).
Proof.
  intros short zero h.
  destruct (@PrivateKey_constructor_cases Reference.secp256k1 h)
    as (_ & _ & Hrange & Hsecret & Hlength & Hbytes).
  assert (Hneg : -1 < 1 \/ Reference.secp256k1_n <= -1) by (left; reflexivity).
  assert (Hn : Reference.secp256k1_n < 1
               \/ Reference.secp256k1_n <= Reference.secp256k1_n)
    by (right; apply Z.le_refl).
  assert (Hone : 1 <= 1 < Reference.secp256k1_n)
    by (split; [discriminate|reflexivity]).
  split; [|split; [|split; [|split]]].
  - split; [discriminate|]. split; [exact Hneg|].
    apply Hrange; [discriminate|exact Hneg].
  - split; [discriminate|]. split; [exact Hn|].
    apply Hrange; [discriminate|exact Hn].
  - split; [exact Hone|]. apply Hsecret. exact Hone.
  - split; [reflexivity|]. split; [cbn; lia|].
    apply (Hlength 0%nat short); [reflexivity|cbn; lia].
  - split; [reflexivity|]. split; [reflexivity|]. split; [reflexivity|].
    apply (Hbytes 1%nat zero); reflexivity.
Defined.

(** X10: a key built from 32 bytes.  [bytes] returns the bytes, [hex]
    their hexadecimal string and [isValid] the verdict of the curve
    library on them, which the constructor did not ask for.  [secret]
    throws a [SyntaxError]: the constructor left the array itself in
    [_secret], the accessor finds the field set and hands the array to
    [BigInt]. *)
Theorem PrivateKey_of_bytes `{Imports} (h : store) (r : loc) (c : list byte) :
  h !! r = Some c -> length c = 32%nat ->
  exists sk : PrivateKey.t,
    PrivateKey.constructor (VUint8Array r) h = (Ok sk, h)
    /\ returned (PrivateKey.bytes sk) h = Some c
    /\ fst (PrivateKey.hex sk h) = Ok (Buffer_toString_hex c)
    /\ fst (PrivateKey.isValid sk h) = Ok (tinysecp_isPrivate c)
    /\ exists message : string,
         fst (PrivateKey.secret sk h) = Throw (SyntaxError message).
Proof.
  intros Hr Hlen.
  set (sk := {| PrivateKey._bytes := VUint8Array r;
                PrivateKey._secret := VUint8Array r |}).
  exists sk.
  split; [apply (PrivateKey_constructor_bytes h r c); assumption|].
  split; [apply (returned_PrivateKey_bytes h sk r c); [reflexivity|assumption]|].
  split; [rewrite (PrivateKey_hex_run h sk r c eq_refl Hr); reflexivity|].
  split.
  - unfold PrivateKey.isValid.
    rewrite bind_run, (PrivateKey_bytes_run h sk r c eq_refl Hr).
    unfold PrivateKeyUtils.isValid. run. reflexivity.
  - destruct c as [|b1 [|b2 rest]]; [discriminate|discriminate|].
    eexists. unfold PrivateKey.secret, sk.
    cbn [PrivateKey._secret truthy negb]. rewrite bind_run. cbn [mret M_ret].
    rewrite bind_run. cbn [PrivateKey._secret BigInt_of_value].
    rewrite bind_run, (read_Some _ _ _ Hr). reflexivity.
Qed.

Lemma PrivateKey_of_bytes_witness :
  let c : list byte := be_bytes 32 1 in
  let h : store := [c] in
  (h !! 0%nat = Some c /\ length c = 32%nat)
  /\ exists sk : PrivateKey.t,
       @PrivateKey.constructor Reference.secp256k1 (VUint8Array 0%nat) h = (Ok sk, h)
       /\ returned (PrivateKey.bytes sk) h = Some c
       /\ fst (PrivateKey.hex sk h) = Ok (Buffer_toString_hex c)
       /\ fst (@PrivateKey.isValid Reference.secp256k1 sk h)
          = Ok (Reference.isPrivate c)
       /\ exists message : string,
            fst (PrivateKey.secret sk h) = Throw (SyntaxError message).
Proof.
  intros c h. split; [split; reflexivity|].
  apply (@PrivateKey_of_bytes Reference.secp256k1 h 0%nat c); reflexivity.
Defined.

(** X11: the constructor keeps the caller's seed array.  After any change
    the caller makes to the array it passed, [bytes] and [hex] of the key
    return the changed bytes; the key has no array of its own. *)
Theorem PrivateKey_keeps_seed_array `{Imports} (f : list byte -> list byte)
    (h : store) (r : loc) (c : list byte) :
  h !! r = Some c -> length c = 32%nat ->
  exists sk : PrivateKey.t,
    PrivateKey.constructor (VUint8Array r) h = (Ok sk, h)
    /\ PrivateKey._bytes sk = VUint8Array r
    /\ returned (PrivateKey.bytes sk) (mutate r f h) = Some (f c)
    /\ fst (PrivateKey.hex sk (mutate r f h)) = Ok (Buffer_toString_hex (f c)).
Proof.
  intros Hr Hlen.
  set (sk := {| PrivateKey._bytes := VUint8Array r;
                PrivateKey._secret := VUint8Array r |}).
  assert (Hm : mutate r f h !! r = Some (f c))
    by (rewrite lookup_mutate_eq, Hr; reflexivity).
  exists sk.
  split; [apply (PrivateKey_constructor_bytes h r c); assumption|].
  split; [reflexivity|].
  split; [apply (returned_PrivateKey_bytes _ sk r (f c)); [reflexivity|exact Hm]|].
  rewrite (PrivateKey_hex_run _ sk r (f c) eq_refl Hm). reflexivity.
Qed.

(** The caller overwrites its seed with zeros. *)
Lemma PrivateKey_keeps_seed_array_witness :
  let f : list byte -> list byte := fun c => repeat x00 (length c) in
  let c : list byte := be_bytes 32 1 in
  let h : store := [c] in
  (h !! 0%nat = Some c /\ length c = 32%nat)
  /\ exists sk : PrivateKey.t,
       @PrivateKey.constructor Reference.secp256k1 (VUint8Array 0%nat) h = (Ok sk, h)
       /\ PrivateKey._bytes sk = VUint8Array 0%nat
       /\ returned (PrivateKey.bytes sk) (mutate 0%nat f h) = Some (f c)
       /\ fst (PrivateKey.hex sk (mutate 0%nat f h)) = Ok (Buffer_toString_hex (f c)).
Proof.
  intros f c h. split; [split; reflexivity|].
  apply (@PrivateKey_keeps_seed_array Reference.secp256k1 f h 0%nat c); reflexivity.
Defined.

(** X12: [toBytes] keeps the low 256 bits of the secret and leaves the
    range to the curve library.  Its outcome on [secret] is its outcome on
    [secret mod 2 ^ 256]: it returns the 32-byte big-endian encoding of
    that residue when the library accepts these bytes as a scalar and
    throws [SET_PRIVATE_KEY_ERROR] when it does not.  A negative secret
    and one of more than 256 bits are not rejected as such. *)
Theorem toBytes_truncates `{Imports} (h : store) (secret : Z) :
  PrivateKeyUtils.toBytes secret h = PrivateKeyUtils.toBytes (secret mod 2 ^ 256) h
  /\ (tinysecp_isPrivate (be_bytes 32 (secret mod 2 ^ 256)) = true ->
      returned (PrivateKeyUtils.toBytes secret) h
      = Some (be_bytes 32 (secret mod 2 ^ 256)))
  /\ (tinysecp_isPrivate (be_bytes 32 (secret mod 2 ^ 256)) = false ->
      fst (PrivateKeyUtils.toBytes secret h) = Throw toBytes_error).
Proof.
  pose proof (be_bytes_mod 32 secret) as Hmod.
  change (256 ^ Z.of_nat 32) with (2 ^ 256) in Hmod.
  rewrite !toBytes_eq, Hmod.
  split; [reflexivity|]. split.
  - intros Hpriv. unfold returned. rewrite toBytes_eq, Hpriv. apply lookup_second.
  - intros Hpriv. rewrite Hpriv. reflexivity.
Qed.

(** The secrets [2 ^ 256 + 1] and [-1], whose low 256 bits are [1] and
    [2 ^ 256 - 1], and the secret [2 ^ 256], whose low bits are zero. *)
Lemma toBytes_truncates_witness :
  (Reference.isPrivate (be_bytes 32 ((2 ^ 256 + 1) mod 2 ^ 256)) = true
   /\ returned (@PrivateKeyUtils.toBytes Reference.secp256k1 (2 ^ 256 + 1)) []
      = Some (be_bytes 32 ((2 ^ 256 + 1) mod 2 ^ 256)))
  /\ (Reference.isPrivate (be_bytes 32 ((-1) mod 2 ^ 256)) = false
      /\ fst (@PrivateKeyUtils.toBytes Reference.secp256k1 (-1) [])
         = Throw toBytes_error)
  /\ (Reference.isPrivate (be_bytes 32 (2 ^ 256 mod 2 ^ 256)) = false
      /\ fst (@PrivateKeyUtils.toBytes Reference.secp256k1 (2 ^ 256) [])
         = Throw toBytes_error).
Proof.
  split; [|split].
  - assert (Hpriv : Reference.isPrivate (be_bytes 32 ((2 ^ 256 + 1) mod 2 ^ 256))
                    = true) by (vm_compute; reflexivity).
    split; [exact Hpriv|].
    apply (proj1 (proj2 (@toBytes_truncates Reference.secp256k1 [] (2 ^ 256 + 1)))).
    exact Hpriv.
  - assert (Hpriv : Reference.isPrivate (be_bytes 32 ((-1) mod 2 ^ 256)) = false)
      by (vm_compute; reflexivity).
    split; [exact Hpriv|].
    apply (proj2 (proj2 (@toBytes_truncates Reference.secp256k1 [] (-1)))).
    exact Hpriv.
  - assert (Hpriv : Reference.isPrivate (be_bytes 32 (2 ^ 256 mod 2 ^ 256)) = false)
      by (vm_compute; reflexivity).
    split; [exact Hpriv|].
    apply (proj2 (proj2 (@toBytes_truncates Reference.secp256k1 [] (2 ^ 256)))).
    exact Hpriv.
Defined.

(** X13: [toSecret] and [toBytes] are inverse to each other on what the
    curve library accepts.  [toSecret] of the array [toBytes] returns for
    a secret below [2 ^ 256] is the secret; [toBytes] of the integer
    [toSecret] reads from 32 bytes is an array of the same 32 bytes. *)
Theorem toSecret_toBytes_inverse `{Imports} (h : store) :
  (forall s : Z,
     0 <= s < 2 ^ 256 -> tinysecp_isPrivate (be_bytes 32 s) = true ->
     exists (r : loc) (h1 : store),
       PrivateKeyUtils.toBytes s h = (Ok r, h1)
       /\ PrivateKeyUtils.toSecret r h1 = (Ok s, h1))
  /\ (forall (r : loc) (c : list byte),
        h !! r = Some c -> length c = 32%nat -> tinysecp_isPrivate c = true ->
        exists s : Z,
          PrivateKeyUtils.toSecret r h = (Ok s, h)
          /\ 0 <= s < 2 ^ 256
          /\ returned (PrivateKeyUtils.toBytes s) h = Some c).
Proof.
  split.
  - intros s Hs Hpriv.
    exists (S (length h)), ((h ++ [be_bytes 32 s]) ++ [be_bytes 32 s]).
    split; [apply toBytes_run; assumption|].
    rewrite (toSecret_run _ _ _ (lookup_second h _ _)), be_value_bytes.
    change (256 ^ Z.of_nat 32) with (2 ^ 256). rewrite Z.mod_small by assumption.
    reflexivity.
  - intros r c Hr Hlen Hpriv. exists (be_value c).
    assert (Hback : be_bytes 32 (be_value c) = c)
      by (rewrite <- Hlen; apply be_bytes_value).
    split; [apply toSecret_run; assumption|]. split.
    + pose proof (be_value_range c) as Hrange. rewrite Hlen in Hrange.
      change (256 ^ Z.of_nat 32) with (2 ^ 256) in Hrange. exact Hrange.
    + unfold returned. rewrite toBytes_eq, Hback, Hpriv. apply lookup_second.
Qed.

(** The order of the group less one, the largest valid secret. *)
Lemma toSecret_toBytes_inverse_witness :
  let s := Reference.secp256k1_n - 1 in
  let c := be_bytes 32 s in
  let h : store := [c] in
  (0 <= s < 2 ^ 256 /\ Reference.isPrivate (be_bytes 32 s) = true
   /\ exists (r : loc) (h1 : store),
        @PrivateKeyUtils.toBytes Reference.secp256k1 s h = (Ok r, h1)
        /\ PrivateKeyUtils.toSecret r h1 = (Ok s, h1))
  /\ (h !! 0%nat = Some c /\ length c = 32%nat /\ Reference.isPrivate c = true
      /\ exists s' : Z,
           PrivateKeyUtils.toSecret 0%nat h = (Ok s', h)
           /\ 0 <= s' < 2 ^ 256
           /\ returned (@PrivateKeyUtils.toBytes Reference.secp256k1 s') h = Some c).
Proof.
  intros s c h.
  assert (Hs : 0 <= s < 2 ^ 256) by (split; [discriminate|reflexivity]).
  assert (Hpriv : Reference.isPrivate (be_bytes 32 s) = true)
    by (vm_compute; reflexivity).
  destruct (@toSecret_toBytes_inverse Reference.secp256k1 h) as (Hsb & Hbs).
  split.
  - split; [exact Hs|]. split; [exact Hpriv|]. apply Hsb; assumption.
  - split; [reflexivity|]. split; [reflexivity|]. split; [exact Hpriv|].
    apply (Hbs 0%nat c); [reflexivity|reflexivity|exact Hpriv].
Defined.

(** ** A key from a secret, through its hexadecimal digits *)

Section FromSecret.
Context `{Imports}.

(** Every pair of hexadecimal digits is matched by [/.{2}/] and read by
    [parseInt] as the byte it writes. *)
Lemma hex_pairs_checked :
  forallb
    (fun d1 =>
       forallb
         (fun d2 =>
            negb (is_line_terminator (hex_char d1)
                  || is_line_terminator (hex_char d2))
            && Byte.eqb (number_to_byte (parseInt_16 (hex_char d1, hex_char d2)))
                        (byte_of_Z (d1 * 16 + d2)))
         (map Z.of_nat (seq 0 16)))
    (map Z.of_nat (seq 0 16))
  = true.
Proof. vm_compute. reflexivity. Qed.

Lemma digit_listed d : 0 <= d < 16 -> In d (map Z.of_nat (seq 0 16)).
Proof.
  intros Hd. apply in_map_iff. exists (Z.to_nat d).
  split; [lia|]. apply in_seq. lia.
Qed.

Lemma hex_pair d1 d2 :
  0 <= d1 < 16 -> 0 <= d2 < 16 ->
  is_line_terminator (hex_char d1) || is_line_terminator (hex_char d2) = false
  /\ number_to_byte (parseInt_16 (hex_char d1, hex_char d2))
     = byte_of_Z (d1 * 16 + d2).
Proof.
  intros H1 H2. pose proof hex_pairs_checked as Hall.
  rewrite forallb_forall in Hall. specialize (Hall d1 (digit_listed d1 H1)).
  rewrite forallb_forall in Hall. specialize (Hall d2 (digit_listed d2 H2)).
  apply andb_true_iff in Hall. destruct Hall as [Hterm Hbyte].
  split; [apply negb_true_iff; exact Hterm|apply Byte.byte_dec_bl; exact Hbyte].
Qed.

Lemma pairs_hex_fixed m : forall z acc,
  map (fun chunk => number_to_byte (parseInt_16 chunk))
      (match_pairs (hex_fixed (2 * m) z acc))
  = be_bytes m z
    ++ map (fun chunk => number_to_byte (parseInt_16 chunk)) (match_pairs acc).
Proof.
  induction m as [|m IH]; intros z acc; [reflexivity|].
  replace (2 * S m)%nat with (S (S (2 * m))) by lia.
  cbn [hex_fixed be_bytes]. rewrite IH.
  destruct (nibbles z) as [Hhi Hlo].
  destruct (hex_pair _ _ Hhi Hlo) as [Hterm Hbyte].
  cbn [match_pairs]. rewrite Hterm. cbn [map]. rewrite Hbyte.
  rewrite Z.div_div by lia. change (16 * 16) with 256.
  rewrite <- app_assoc. cbn [app]. do 2 f_equal.
  rewrite <- (byte_of_Z_mod z). f_equal.
  change 256 with (16 * 16). rewrite Z.rem_mul_r by lia. lia.
Qed.

(** The bytes read from a rendering on [j] digits: the last digit of an
    odd number of digits is in no pair. *)
Lemma pairs_hex_even m z :
  map (fun chunk => number_to_byte (parseInt_16 chunk))
      (match_pairs (hex_fixed (2 * m) z EmptyString))
  = be_bytes m z.
Proof. rewrite pairs_hex_fixed. apply app_nil_r. Qed.

Lemma pairs_hex_odd m z :
  map (fun chunk => number_to_byte (parseInt_16 chunk))
      (match_pairs (hex_fixed (S (2 * m)) z EmptyString))
  = be_bytes m (z / 16).
Proof. cbn [hex_fixed]. rewrite pairs_hex_fixed. apply app_nil_r. Qed.

(** The digits [toString(16)] writes, and their number. *)
Lemma toString_16_fixed z :
  0 <= z ->
  exists j, (1 <= j)%nat /\ z < 16 ^ Z.of_nat j
            /\ (j = 1%nat \/ 16 ^ (Z.of_nat j - 1) <= z)
            /\ BigInt_toString_16 z = hex_fixed j z EmptyString.
Proof.
  intros Hz. unfold BigInt_toString_16.
  replace (z <? 0) with false by (symmetry; apply Z.ltb_ge; lia).
  destruct (hex_digits_fixed (S (Z.to_nat (Z.log2 z))) z EmptyString)
    as (j & Hj & Hzj & Hmin & Heq);
    [lia|split; [lia|apply toString_16_width; lia]|].
  exists j. split; [lia|]. split; [lia|]. split; assumption.
Qed.

Lemma padStart_long j z :
  (64 <= j)%nat ->
  padStart 64 "0" (hex_fixed j z EmptyString) = hex_fixed j z EmptyString.
Proof.
  intros Hj. unfold padStart. rewrite hex_fixed_length. cbn [String.length].
  replace (64 - (j + 0))%nat with 0%nat by lia. reflexivity.
Qed.

Lemma fromSecret_run (h : store) (secret : Z) (hexsecret : string)
    (bytes : list byte) :
  padStart 64 "0" (BigInt_toString_16 secret) = hexsecret ->
  map (fun chunk => number_to_byte (parseInt_16 chunk)) (match_pairs hexsecret)
  = bytes ->
  bytes <> [] ->
  Factories.fromSecret secret h
  = PrivateKey.constructor (VUint8Array (length h)) (h ++ [bytes]).
Proof.
  intros Hhex Hbytes Hne. unfold Factories.fromSecret. rewrite Hhex.
  destruct (match_pairs hexsecret) as [|chunk chunks] eqn:Hpairs.
  - cbn [map] in Hbytes. congruence.
  - rewrite bind_run, alloc_run, Hbytes. reflexivity.
Qed.

Lemma PrivateKey_constructor_wrong_length (h : store) (r : loc) (c : list byte) :
  h !! r = Some c -> length c <> 32%nat ->
  PrivateKey.constructor (VUint8Array r) h = (Throw seed_length_error, h).
Proof.
  intros Hr Hlen. unfold PrivateKey.constructor. cbn [truthy negb]. run.
  apply Nat.eqb_neq in Hlen. rewrite Hlen. reflexivity.
Qed.

Lemma nonempty_of_length (bytes : list byte) (n : nat) :
  length bytes = n -> (1 <= n)%nat -> bytes <> [].
Proof. intros Hlen Hn ->. cbn in Hlen. lia. Qed.

End FromSecret.

(** X14: [fromSecret] on every non-negative secret.  Below [2 ^ 256] the
    key holds the 32-byte big-endian encoding of the secret, and the
    secret is checked against no range: [0n] and secrets from [n] on give
    a key.  From [2 ^ 256] to below [2 ^ 260] the secret has 65
    hexadecimal digits, of which the last is in no pair: the key holds the
    encoding of [secret / 16].  From [2 ^ 260] on there are 33 bytes or
    more and the constructor throws its length error. *)
Theorem fromSecret_cases `{Imports} (h : store) (secret : Z) :
  let key := {| PrivateKey._bytes := VUint8Array (length h);
                PrivateKey._secret := VUint8Array (length h) |} in
  (0 <= secret < 2 ^ 256 ->
   Factories.fromSecret secret h = (Ok key, h ++ [be_bytes 32 secret]))
  /\ (2 ^ 256 <= secret < 2 ^ 260 ->
      Factories.fromSecret secret h = (Ok key, h ++ [be_bytes 32 (secret / 16)]))
  /\ (2 ^ 260 <= secret ->
      exists bytes : list byte,
        Factories.fromSecret secret h = (Throw seed_length_error, h ++ [bytes])
        /\ (33 <= length bytes)%nat).
Proof.
  intros key. split; [|split].
  - intros Hs.
    rewrite (fromSecret_run h secret (hex_fixed 64 secret EmptyString)
               (be_bytes 32 secret)).
    + apply (PrivateKey_constructor_bytes _ _ (be_bytes 32 secret));
        [apply lookup_new|apply be_bytes_length].
    + apply padStart_toString_16; [lia|exact Hs].
    + apply (pairs_hex_even 32).
    + apply (nonempty_of_length _ 32); [apply be_bytes_length|lia].
  - intros Hs.
    destruct (toString_16_fixed secret ltac:(lia)) as (j & Hj & Hlt & Hmin & Hstr).
    assert (Hj65 : j = 65%nat).
    { change (2 ^ 256) with (16 ^ 64) in Hs. change (2 ^ 260) with (16 ^ 65) in Hs.
      assert (Hlo : 16 ^ 64 < 16 ^ Z.of_nat j) by lia.
      apply Z.pow_lt_mono_r_iff in Hlo; [|lia|lia].
      destruct Hmin as [->|Hmin]; [lia|].
      assert (Hhi : 16 ^ (Z.of_nat j - 1) < 16 ^ 65) by lia.
      apply Z.pow_lt_mono_r_iff in Hhi; lia. }
    subst j.
    rewrite (fromSecret_run h secret (hex_fixed 65 secret EmptyString)
               (be_bytes 32 (secret / 16))).
    + apply (PrivateKey_constructor_bytes _ _ (be_bytes 32 (secret / 16)));
        [apply lookup_new|apply be_bytes_length].
    + rewrite Hstr. apply padStart_long. lia.
    + apply (pairs_hex_odd 32).
    + apply (nonempty_of_length _ 32); [apply be_bytes_length|lia].
  - intros Hs.
    destruct (toString_16_fixed secret ltac:(lia)) as (j & Hj & Hlt & Hmin & Hstr).
    assert (Hj66 : (66 <= j)%nat).
    { change (2 ^ 260) with (16 ^ 65) in Hs.
      assert (Hlo : 16 ^ 65 < 16 ^ Z.of_nat j) by lia.
      apply Z.pow_lt_mono_r_iff in Hlo; lia. }
    assert (Hbytes : exists bytes : list byte,
               map (fun chunk => number_to_byte (parseInt_16 chunk))
                   (match_pairs (hex_fixed j secret EmptyString)) = bytes
               /\ (33 <= length bytes)%nat).
    { destruct (Nat.Even_or_Odd j) as [[m ->]|[m ->]].
      - exists (be_bytes m secret). split; [apply pairs_hex_even|].
        rewrite be_bytes_length. lia.
      - exists (be_bytes m (secret / 16)). split.
        + replace (2 * m + 1)%nat with (S (2 * m)) by lia. apply pairs_hex_odd.
        + rewrite be_bytes_length. lia. }
    destruct Hbytes as (bytes & Hbytes & Hlen).
    exists bytes. split; [|exact Hlen].
    rewrite (fromSecret_run h secret (hex_fixed j secret EmptyString) bytes).
    + rewrite (PrivateKey_constructor_wrong_length _ _ bytes);
        [reflexivity|apply lookup_new|lia].
    + rewrite Hstr. apply padStart_long. lia.
    + exact Hbytes.
    + apply (nonempty_of_length _ (length bytes)); [reflexivity|lia].
Qed.

(** The secrets [0n], [2 ^ 256], whose key holds [2 ^ 252], and
    [2 ^ 260]. *)
Lemma fromSecret_cases_witness :
  let key := {| PrivateKey._bytes := VUint8Array 0%nat;
                PrivateKey._secret := VUint8Array 0%nat |} in
  (0 <= 0 < 2 ^ 256
   /\ @Factories.fromSecret Reference.secp256k1 0 [] = (Ok key, [be_bytes 32 0]))
  /\ (2 ^ 256 <= 2 ^ 256 < 2 ^ 260
      /\ @Factories.fromSecret Reference.secp256k1 (2 ^ 256) []
         = (Ok key, [be_bytes 32 (2 ^ 256 / 16)]))
  /\ (2 ^ 260 <= 2 ^ 260
      /\ exists bytes : list byte,
           @Factories.fromSecret Reference.secp256k1 (2 ^ 260) []
           = (Throw seed_length_error, [bytes])
           /\ (33 <= length bytes)%nat).
Proof.
  intros key.
  assert (H0 : 0 <= 0 < 2 ^ 256) by (split; [discriminate|reflexivity]).
  assert (H1 : 2 ^ 256 <= 2 ^ 256 < 2 ^ 260) by (split; [discriminate|reflexivity]).
  assert (H2 : 2 ^ 260 <= 2 ^ 260) by discriminate.
  split; [|split].
  - split; [exact H0|].
    apply (proj1 (@fromSecret_cases Reference.secp256k1 [] 0)). exact H0.
  - split; [exact H1|].
    apply (proj1 (proj2 (@fromSecret_cases Reference.secp256k1 [] (2 ^ 256)))).
    exact H1.
  - split; [exact H2|].
    apply (proj2 (proj2 (@fromSecret_cases Reference.secp256k1 [] (2 ^ 260)))).
    exact H2.
Defined.

(** ** Comparing private keys *)

Section PrivateKeyEquality.

Lemma PrivateKey_bytes_bigint (h : store) (sk : PrivateKey.t) (s : Z) :
  PrivateKey._bytes sk = VBigInt s -> s <> 0 ->
  PrivateKey.bytes sk h = (Throw bigint_to_number_error, h).
Proof.
  intros Hf Hs. destruct sk as [b v]. cbn in Hf. subst b.
  apply PrivateKey_bytes_of_bigint. assumption.
Qed.

Lemma PrivateKey_hex_bigint (h : store) (sk : PrivateKey.t) (s : Z) :
  PrivateKey._bytes sk = VBigInt s -> s <> 0 ->
  PrivateKey.hex sk h = (Throw bigint_to_number_error, h).
Proof.
  intros Hf Hs. unfold PrivateKey.hex.
  rewrite bind_run, (PrivateKey_bytes_bigint h sk s Hf Hs). reflexivity.
Qed.

End PrivateKeyEquality.

(** X15: [equals] on private keys.  For two keys that hold arrays it
    returns [true] exactly when the arrays have the same bytes.  When
    either key holds a bigint, as every key built from a bigint secret
    does, it throws the [TypeError] of [new Uint8Array] instead of
    answering, also against a key that holds the bytes of that secret. *)
Theorem PrivateKey_equals_cases (h : store) (a b : PrivateKey.t) :
  (forall (ra rb : loc) (c1 c2 : list byte),
     PrivateKey._bytes a = VUint8Array ra -> PrivateKey._bytes b = VUint8Array rb ->
     h !! ra = Some c1 -> h !! rb = Some c2 ->
     exists same : bool,
       fst (PrivateKey.equals a b h) = Ok same /\ (same = true <-> c1 = c2))
  /\ (forall s : Z,
        PrivateKey._bytes a = VBigInt s -> s <> 0 ->
        fst (PrivateKey.equals a b h) = Throw bigint_to_number_error)
  /\ (forall (ra : loc) (c1 : list byte) (s : Z),
        PrivateKey._bytes a = VUint8Array ra -> h !! ra = Some c1 ->
        PrivateKey._bytes b = VBigInt s -> s <> 0 ->
        fst (PrivateKey.equals a b h) = Throw bigint_to_number_error).
Proof.
  split; [|split].
  - intros ra rb c1 c2 Ha Hb Hra Hrb. unfold PrivateKey.equals.
    rewrite bind_run, (PrivateKey_hex_run h a ra c1 Ha Hra).
    rewrite bind_run, (PrivateKey_hex_run (h ++ [c1]) b rb c2 Hb)
      by (apply lookup_old; assumption).
    eexists. split; [reflexivity|]. apply hex_eqb_iff.
  - intros s Ha Hs. unfold PrivateKey.equals.
    rewrite bind_run, (PrivateKey_hex_bigint h a s Ha Hs). reflexivity.
  - intros ra c1 s Ha Hra Hb Hs. unfold PrivateKey.equals.
    rewrite bind_run, (PrivateKey_hex_run h a ra c1 Ha Hra).
    rewrite bind_run, (PrivateKey_hex_bigint _ b s Hb Hs). reflexivity.
Qed.

(** Two keys of the bytes of [1], and the key of the secret [1n]. *)
Lemma PrivateKey_equals_cases_witness :
  let c : list byte := be_bytes 32 1 in
  let h : store := [c; c] in
  let first := {| PrivateKey._bytes := VUint8Array 0%nat;
                  PrivateKey._secret := VUint8Array 0%nat |} in
  let second := {| PrivateKey._bytes := VUint8Array 1%nat;
                   PrivateKey._secret := VUint8Array 1%nat |} in
  let third := {| PrivateKey._bytes := VBigInt 1; PrivateKey._secret := VBigInt 1 |} in
  (exists same : bool,
     fst (PrivateKey.equals first second h) = Ok same /\ (same = true <-> c = c))
  /\ fst (PrivateKey.equals third first h) = Throw bigint_to_number_error
  /\ fst (PrivateKey.equals first third h) = Throw bigint_to_number_error.
Proof.
  intros c h first second third. split; [|split].
  - apply (proj1 (PrivateKey_equals_cases h first second) 0%nat 1%nat c c);
      reflexivity.
  - apply (proj1 (proj2 (PrivateKey_equals_cases h third first)) 1);
      [reflexivity|discriminate].
  - apply (proj2 (proj2 (PrivateKey_equals_cases h first third)) 0%nat c 1);
      [reflexivity|reflexivity|reflexivity|discriminate].
Defined.

(** ** The reference curve library against known answers *)

Section ReferenceCurve.
Import Reference.

(** The points [2 G] and [3 G] of secp256k1, compressed. *)
Lemma pointFromScalar_small :
  pointFromScalar (be_bytes 32 2) true
  = Ok (Some (Buffer_from_hex
                "02c6047f9441ed7d6d3045406e95c07cd85c778e4b8cef3ca7abac09b95c709ee5"))
  /\ pointFromScalar (be_bytes 32 3) true
     = Ok (Some (Buffer_from_hex
                   "02f9308a019258c31049344f85f89d5229b531c845836f99b08601f113bce036f9")).
Proof. split; vm_compute; reflexivity. Qed.

(** The scalars [0] and [n] are refused, a point is recognised, and an
    x-coordinate on no point is not. *)
Lemma curve_library_edges :
  pointFromScalar (be_bytes 32 0) true = Throw (TypeError "Expected Private")
  /\ pointFromScalar (be_bytes 32 secp256k1_n) true
     = Throw (TypeError "Expected Private")
  /\ isPointCompressed (x03 :: be_bytes 32 secp256k1_Gx) = true
  /\ isPointCompressed (x02 :: be_bytes 32 5) = false
  /\ isPointCompressed (be_bytes 32 secp256k1_Gx) = false.
Proof.
  split; [vm_compute; reflexivity|]. split; [vm_compute; reflexivity|].
  split; [vm_compute; reflexivity|]. split; vm_compute; reflexivity.
Qed.

End ReferenceCurve.

(** ** From a private key to its public key *)

Section Derivation.
Context `{CurveLibrary}.

(** [PrivateKey.computePublicKey] up to the answer of the curve library:
    the copy [bytes] returns is what the library is given. *)
Lemma computePublicKey_run (h : store) (sk : PrivateKey.t) (r : loc)
    (c : list byte) :
  PrivateKey._bytes sk = VUint8Array r -> h !! r = Some c ->
  PrivateKey.computePublicKey sk h
  = match tinysecp_pointFromScalar c true with
    | Ok (Some d) =>
        if (length d =? 33)%nat
        then (Ok {| PublicKey._bytes := S (length h) |}, (h ++ [c]) ++ [d])
        else (Throw compute_format_error, (h ++ [c]) ++ [d])
    | Ok None => (Throw compute_failed_error, h ++ [c])
    | Throw e => (Throw e, h ++ [c])
    | OutOfFuel => (OutOfFuel, h ++ [c])
    end.
Proof.
  intros Hf Hr. unfold PrivateKey.computePublicKey.
  rewrite bind_run, (PrivateKey_bytes_run h sk r c Hf Hr).
  rewrite bind_run. unfold PrivateKeyUtils.computePublicKey at 1.
  rewrite bind_run, (read_Some _ _ _ (lookup_new h c)).
  rewrite bind_run. cbn [lift].
  destruct (tinysecp_pointFromScalar c true) as [[d|]| |]; try reflexivity.
  rewrite bind_run, alloc_run.
  destruct (length d =? 33)%nat eqn:Hlen; cbn [negb]; [|reflexivity].
  cbn [mret M_ret]. apply Nat.eqb_eq in Hlen.
  rewrite (PublicKey_constructor_33 _ _ d); [|apply lookup_new|assumption].
  rewrite length_app. cbn [length]. rewrite Nat.add_1_r. reflexivity.
Qed.

Lemma point_run (h : store) (sk : PrivateKey.t) (r : loc) (c : list byte) :
  PrivateKey._bytes sk = VUint8Array r -> h !! r = Some c ->
  PrivateKey.point sk h
  = (match tinysecp_pointFromScalar c true with
     | Ok (Some d) =>
         if tinysecp_isPointCompressed d
         then BigInt_of_0x (Buffer_toString_hex (take 32 (drop 1 d)))
         else Throw point_format_error
     | Ok None => Throw point_failed_error
     | Throw e => Throw e
     | OutOfFuel => OutOfFuel
     end, h ++ [c]).
Proof.
  intros Hf Hr. unfold PrivateKey.point.
  rewrite bind_run, (PrivateKey_bytes_run h sk r c Hf Hr).
  rewrite bind_run, (read_Some _ _ _ (lookup_new h c)).
  rewrite bind_run. cbn [lift].
  destruct (tinysecp_pointFromScalar c true) as [[d|]| |]; try reflexivity.
  destruct (tinysecp_isPointCompressed d); reflexivity.
Qed.

End Derivation.

(** X16: [computePublicKey] of a private key that holds an array.  The
    curve library is given the bytes of the key and decides: what it
    throws is thrown on, [null] is the error on the failed derivation, a
    result of a length other than 33 the error on the format.  A result
    of 33 bytes becomes the array of the [PublicKey], by reference and
    with the parity byte the library wrote; the length check of the
    [PublicKey] constructor cannot fail here. *)
Theorem computePublicKey_cases `{CurveLibrary} (h : store) (sk : PrivateKey.t)
    (r : loc) (c : list byte) :
  PrivateKey._bytes sk = VUint8Array r -> h !! r = Some c ->
  (forall e : error,
     tinysecp_pointFromScalar c true = Throw e ->
     fst (PrivateKey.computePublicKey sk h) = Throw e)
  /\ (tinysecp_pointFromScalar c true = Ok None ->
      fst (PrivateKey.computePublicKey sk h) = Throw compute_failed_error)
  /\ (forall d : list byte,
        tinysecp_pointFromScalar c true = Ok (Some d) -> length d <> 33%nat ->
        fst (PrivateKey.computePublicKey sk h) = Throw compute_format_error)
  /\ (forall d : list byte,
        tinysecp_pointFromScalar c true = Ok (Some d) -> length d = 33%nat ->
        exists (pk : PublicKey.t) (h1 : store),
          PrivateKey.computePublicKey sk h = (Ok pk, h1)
          /\ h1 !! PublicKey._bytes pk = Some d
          /\ returned (PublicKey.bytes pk) h1 = Some d
          /\ fst (PublicKey.parity pk h1) = Ok (d !! 0%nat)
          /\ returned (PublicKey.x pk) h1 = Some (take 32 (drop 1 d))).
Proof.
  intros Hf Hr. pose proof (computePublicKey_run h sk r c Hf Hr) as Hrun.
  split; [|split; [|split]].
  - intros e He. rewrite Hrun, He. reflexivity.
  - intros He. rewrite Hrun, He. reflexivity.
  - intros d He Hlen. rewrite Hrun, He.
    apply Nat.eqb_neq in Hlen. rewrite Hlen. reflexivity.
  - intros d He Hlen. rewrite He, Hlen in Hrun. cbn [Nat.eqb] in Hrun.
    set (pk := {| PublicKey._bytes := S (length h) |}).
    assert (Hst : ((h ++ [c]) ++ [d]) !! PublicKey._bytes pk = Some d)
      by apply lookup_second.
    exists pk, ((h ++ [c]) ++ [d]).
    split; [exact Hrun|]. split; [exact Hst|].
    split; [apply returned_PublicKey_bytes; exact Hst|].
    split; [rewrite (PublicKey_parity_run _ pk d Hst); reflexivity|].
    apply returned_PublicKey_x. exact Hst.
Qed.

(** The scalar [1] under the reference curve, whose point is the
    generator; 32 zero bytes, which the library refuses; a library that
    answers [null]; a library that answers 65 bytes. *)
Lemma computePublicKey_cases_witness :
  let one : list byte := be_bytes 32 1 in
  let zero : list byte := repeat x00 32 in
  let h : store := [one; zero] in
  let sk := {| PrivateKey._bytes := VUint8Array 0%nat;
               PrivateKey._secret := VUint8Array 0%nat |} in
  let null := {| PrivateKey._bytes := VUint8Array 1%nat;
                 PrivateKey._secret := VUint8Array 1%nat |} in
  let nothing := Build_CurveLibrary (fun _ _ => Ok None) (fun _ => false) in
  let long := Build_CurveLibrary (fun d _ => Ok (Some (x04 :: d ++ d)))
                                 (fun _ => false) in
  let G := x02 :: be_bytes 32 Reference.secp256k1_Gx in
  (Reference.pointFromScalar zero true = Throw (TypeError "Expected Private")
   /\ fst (@PrivateKey.computePublicKey Reference.curve null h)
      = Throw (TypeError "Expected Private"))
  /\ fst (@PrivateKey.computePublicKey nothing sk h) = Throw compute_failed_error
  /\ (length (x04 :: one ++ one) <> 33%nat
      /\ fst (@PrivateKey.computePublicKey long sk h) = Throw compute_format_error)
  /\ (Reference.pointFromScalar one true = Ok (Some G) /\ length G = 33%nat
      /\ exists (pk : PublicKey.t) (h1 : store),
           @PrivateKey.computePublicKey Reference.curve sk h = (Ok pk, h1)
           /\ h1 !! PublicKey._bytes pk = Some G
           /\ returned (PublicKey.bytes pk) h1 = Some G
           /\ fst (PublicKey.parity pk h1) = Ok (G !! 0%nat)
           /\ returned (PublicKey.x pk) h1 = Some (take 32 (drop 1 G))).
Proof.
  intros one zero h sk null nothing long G.
  assert (Hzero : Reference.pointFromScalar zero true
                  = Throw (TypeError "Expected Private")) by reflexivity.
  assert (Hone : Reference.pointFromScalar one true = Ok (Some G))
    by (vm_compute; reflexivity).
  assert (Hlong : length (x04 :: one ++ one) <> 33%nat) by (cbn; lia).
  split; [|split; [|split]].
  - split; [exact Hzero|].
    apply (proj1 (@computePublicKey_cases Reference.curve h null 1%nat zero
                    eq_refl eq_refl)).
    exact Hzero.
  - apply (proj1 (proj2 (@computePublicKey_cases nothing h sk 0%nat one
                           eq_refl eq_refl))).
    reflexivity.
  - split; [exact Hlong|].
    apply (proj1 (proj2 (proj2 (@computePublicKey_cases long h sk 0%nat one
                                  eq_refl eq_refl))) (x04 :: one ++ one));
      [reflexivity|exact Hlong].
  - split; [exact Hone|]. split; [reflexivity|].
    apply (proj2 (proj2 (proj2 (@computePublicKey_cases Reference.curve h sk 0%nat one
                                  eq_refl eq_refl))) G);
      [exact Hone|reflexivity].
Defined.

(** X17: the [point] accessor is the x-coordinate of the computed public
    key, as an integer.  When the curve library derives the 33 bytes
    [first || x] and counts them as a compressed point, [point] returns
    the big-endian integer of [x], the bytes the [x] accessor of
    [computePublicKey()] returns; the parity byte is dropped.  [null]
    from the library and a result it does not count as compressed are the
    two errors of the accessor. *)
Theorem point_is_x_coordinate `{CurveLibrary} (h : store) (sk : PrivateKey.t)
    (r : loc) (c : list byte) :
  PrivateKey._bytes sk = VUint8Array r -> h !! r = Some c ->
  (forall (first : byte) (xs : list byte),
     tinysecp_pointFromScalar c true = Ok (Some (first :: xs)) ->
     length xs = 32%nat ->
     tinysecp_isPointCompressed (first :: xs) = true ->
     fst (PrivateKey.point sk h) = Ok (be_value xs)
     /\ 0 <= be_value xs < 2 ^ 256
     /\ exists (pk : PublicKey.t) (h1 : store),
          PrivateKey.computePublicKey sk h = (Ok pk, h1)
          /\ returned (PublicKey.x pk) h1 = Some xs)
  /\ (tinysecp_pointFromScalar c true = Ok None ->
      fst (PrivateKey.point sk h) = Throw point_failed_error)
  /\ (forall d : list byte,
        tinysecp_pointFromScalar c true = Ok (Some d) ->
        tinysecp_isPointCompressed d = false ->
        fst (PrivateKey.point sk h) = Throw point_format_error).
Proof.
  intros Hf Hr. pose proof (point_run h sk r c Hf Hr) as Hrun.
  split; [|split].
  - intros first xs He Hlen Hcomp.
    rewrite He, Hcomp, x_of_stored in Hrun by assumption.
    rewrite BigInt_of_0x_toString in Hrun by (intros ->; discriminate).
    split; [rewrite Hrun; reflexivity|]. split.
    + pose proof (be_value_range xs) as Hrange. rewrite Hlen in Hrange.
      change (256 ^ Z.of_nat 32) with (2 ^ 256) in Hrange. exact Hrange.
    + pose proof (computePublicKey_run h sk r c Hf Hr) as Hpk.
      rewrite He in Hpk. cbn [length] in Hpk. rewrite Hlen in Hpk.
      cbn [Nat.eqb] in Hpk.
      eexists _, _. split; [exact Hpk|].
      rewrite (returned_PublicKey_x _ _ (first :: xs)) by apply lookup_second.
      rewrite x_of_stored by assumption. reflexivity.
  - intros He. rewrite Hrun, He. reflexivity.
  - intros d He Hcomp. rewrite Hrun, He, Hcomp. reflexivity.
Qed.

(** The scalar [1], whose point is the generator; a library that answers
    [null]; a library that counts nothing as compressed. *)
Lemma point_is_x_coordinate_witness :
  let one : list byte := be_bytes 32 1 in
  let h : store := [one] in
  let sk := {| PrivateKey._bytes := VUint8Array 0%nat;
               PrivateKey._secret := VUint8Array 0%nat |} in
  let xs := be_bytes 32 Reference.secp256k1_Gx in
  let nothing := Build_CurveLibrary (fun _ _ => Ok None) (fun _ => false) in
  let strict := Build_CurveLibrary Reference.pointFromScalar (fun _ => false) in
  (Reference.pointFromScalar one true = Ok (Some (x02 :: xs))
   /\ length xs = 32%nat
   /\ Reference.isPointCompressed (x02 :: xs) = true
   /\ fst (@PrivateKey.point Reference.curve sk h) = Ok (be_value xs)
   /\ 0 <= be_value xs < 2 ^ 256
   /\ exists (pk : PublicKey.t) (h1 : store),
        @PrivateKey.computePublicKey Reference.curve sk h = (Ok pk, h1)
        /\ returned (PublicKey.x pk) h1 = Some xs)
  /\ fst (@PrivateKey.point nothing sk h) = Throw point_failed_error
  /\ fst (@PrivateKey.point strict sk h) = Throw point_format_error.
Proof.
  intros one h sk xs nothing strict.
  assert (Hone : Reference.pointFromScalar one true = Ok (Some (x02 :: xs)))
    by (vm_compute; reflexivity).
  assert (Hcomp : Reference.isPointCompressed (x02 :: xs) = true)
    by (vm_compute; reflexivity).
  split; [|split].
  - split; [exact Hone|]. split; [reflexivity|]. split; [exact Hcomp|].
    apply (proj1 (@point_is_x_coordinate Reference.curve h sk 0%nat one
                    eq_refl eq_refl) x02 xs);
      [exact Hone|reflexivity|exact Hcomp].
  - apply (proj1 (proj2 (@point_is_x_coordinate nothing h sk 0%nat one
                           eq_refl eq_refl))).
    reflexivity.
  - apply (proj2 (proj2 (@point_is_x_coordinate strict h sk 0%nat one
                           eq_refl eq_refl)) (x02 :: xs));
      [exact Hone|reflexivity].
Defined.

(** X18: [PublicKeyUtils.fromPrivateKey].  Given an array of a length
    other than 32 it throws its own error, before any [PrivateKey] is
    built; given 32 bytes it is [computePublicKey()] of the key built
    from them; given a [PrivateKey] object that holds 32 bytes it is
    [computePublicKey()] of that object, run after one more copy of the
    bytes was made for the length check.  Given a key built from a bigint
    it throws the [TypeError] of the [bytes] accessor and derives
    nothing. *)
Theorem fromPrivateKey_cases `{Imports} `{CurveLibrary} (h : store) :
  (forall (r : loc) (c : list byte),
     h !! r = Some c -> length c <> 32%nat ->
     Factories.fromPrivateKey (inr r) h = (Throw fromPrivateKey_error, h))
  /\ (forall (r : loc) (c : list byte),
        h !! r = Some c -> length c = 32%nat ->
        Factories.fromPrivateKey (inr r) h
        = PrivateKey.computePublicKey
            {| PrivateKey._bytes := VUint8Array r;
               PrivateKey._secret := VUint8Array r |} h)
  /\ (forall (sk : PrivateKey.t) (r : loc) (c : list byte),
        PrivateKey._bytes sk = VUint8Array r -> h !! r = Some c ->
        length c = 32%nat ->
        Factories.fromPrivateKey (inl sk) h
        = PrivateKey.computePublicKey sk (h ++ [c]))
  /\ (forall (sk : PrivateKey.t) (s : Z),
        PrivateKey._bytes sk = VBigInt s -> s <> 0 ->
        Factories.fromPrivateKey (inl sk) h = (Throw bigint_to_number_error, h)).
Proof.
  split; [|split; [|split]].
  - intros r c Hr Hlen. unfold Factories.fromPrivateKey. run.
    apply Nat.eqb_neq in Hlen. rewrite Hlen. reflexivity.
  - intros r c Hr Hlen. unfold Factories.fromPrivateKey. run.
    rewrite Hlen. cbn [Nat.eqb negb].
    rewrite bind_run, (PrivateKey_constructor_bytes h r c Hr Hlen). reflexivity.
  - intros sk r c Hf Hr Hlen. unfold Factories.fromPrivateKey.
    rewrite bind_run, (PrivateKey_bytes_run h sk r c Hf Hr).
    rewrite bind_run, (read_Some _ _ _ (lookup_new h c)).
    rewrite Hlen. cbn [Nat.eqb negb]. reflexivity.
  - intros sk s Hf Hs. unfold Factories.fromPrivateKey.
    rewrite bind_run, (PrivateKey_bytes_bigint h sk s Hf Hs). reflexivity.
Qed.

(** An array of one byte, the bytes of [1] and the key of the secret
    [1n]. *)
Lemma fromPrivateKey_cases_witness :
  let short : list byte := [x01] in
  let one : list byte := be_bytes 32 1 in
  let h : store := [short; one] in
  let sk := {| PrivateKey._bytes := VUint8Array 1%nat;
               PrivateKey._secret := VUint8Array 1%nat |} in
  let secret := {| PrivateKey._bytes := VBigInt 1; PrivateKey._secret := VBigInt 1 |} in
  (h !! 0%nat = Some short /\ length short <> 32%nat
   /\ @Factories.fromPrivateKey Reference.secp256k1 Reference.curve (inr 0%nat) h
      = (Throw fromPrivateKey_error, h))
  /\ (h !! 1%nat = Some one /\ length one = 32%nat
      /\ @Factories.fromPrivateKey Reference.secp256k1 Reference.curve (inr 1%nat) h
         = @PrivateKey.computePublicKey Reference.curve sk h)
  /\ @Factories.fromPrivateKey Reference.secp256k1 Reference.curve (inl sk) h
     = @PrivateKey.computePublicKey Reference.curve sk (h ++ [one])
  /\ @Factories.fromPrivateKey Reference.secp256k1 Reference.curve (inl secret) h
     = (Throw bigint_to_number_error, h).
Proof.
  intros short one h sk secret.
  destruct (@fromPrivateKey_cases Reference.secp256k1 Reference.curve h)
    as (Hshort & Harray & Hobject & Hsecret).
  split; [|split; [|split]].
  - split; [reflexivity|]. split; [cbn; lia|].
    apply (Hshort 0%nat short); [reflexivity|cbn; lia].
  - split; [reflexivity|]. split; [reflexivity|].
    apply (Harray 1%nat one); reflexivity.
  - apply (Hobject sk 1%nat one); reflexivity.
  - apply (Hsecret secret 1); [reflexivity|discriminate].
Defined.
